(** * Memflix: chunk store, similarity search and frame (de)serialisation

    A shallow embedding of the [Memflix] class: the chunker, the packed
    vector store, the similarity search and the encode/decode orchestration,
    followed by the properties of its specification.

    JavaScript numbers are IEEE-754 binary64 values; they are modelled by the
    executable specification of floating-point arithmetic of the standard
    library ([spec_float], precision 53, maximal exponent 1024), so that
    [NaN] and the infinities behave as they do at run time. *)

From Stdlib Require Import List String Ascii ZArith Bool Lia Arith.
From Stdlib Require Import Permutation Sorted.
From Stdlib Require Import Floats.SpecFloat.
From Stdlib Require Import DecimalString.
Import ListNotations.
Local Open Scope string_scope.
Local Open Scope list_scope.

Set Implicit Arguments.

(* ================================================================== *)
(** ** The JavaScript run time the class relies on *)
(* ================================================================== *)

Module JS.

(** *** Numbers *)

Definition number := spec_float.

Definition prec : Z := 53.
Definition emax : Z := 1024.

Definition add : number -> number -> number := SFadd prec emax.
Definition sub : number -> number -> number := SFsub prec emax.
Definition mul : number -> number -> number := SFmul prec emax.
Definition div : number -> number -> number := SFdiv prec emax.
Definition sqrt : number -> number := SFsqrt prec emax.

Definition NaN : number := S754_nan.
Definition of_Z (z : Z) : number := binary_normalize prec emax z 0 false.
Definition zero : number := S754_zero false.

(** [x > 0] as JavaScript evaluates it: false when [x] is [NaN]. *)
Definition gt0 (x : number) : bool := SFltb zero x.

Definition is_nan (x : number) : bool :=
  match x with S754_nan => true | _ => false end.
Definition is_zero (x : number) : bool :=
  match x with S754_zero _ => true | _ => false end.
Definition is_infinite (x : number) : bool :=
  match x with S754_infinity _ => true | _ => false end.

(** Where a number that is not [NaN] lies: below, among or above the finite
    numbers, and for a finite one its value scaled by 2^1074, an integer for
    every exponent binary64 arithmetic produces. *)
Definition scaled (s : bool) (m : positive) (e : Z) : Z :=
  (cond_Zopp s (Zpos m) * 2 ^ (e + 1074))%Z.

Definition place (x : number) : Z * Z :=
  match x with
  | S754_infinity true => (-1, 0)%Z
  | S754_infinity false => (1, 0)%Z
  | S754_finite s m e => (0%Z, scaled s m e)
  | _ => (0, 0)%Z
  end.

Definition below (p q : Z * Z) : bool :=
  ((fst p <? fst q) || ((fst p =? fst q) && (snd p <? snd q)))%Z.

(** A number that is not [NaN] and whose exponent is in the range of
    binary64. *)
Definition ranged (x : number) : bool :=
  match x with
  | S754_nan => false
  | S754_finite _ _ e => (-1074 <=? e)%Z
  | _ => true
  end.

(** Storing into a [Float32Array] rounds to binary32 (nearest, ties to
    even); reading widens back, which is exact.  The result is kept in the
    canonical binary64 representation. *)
Definition fround (x : number) : number :=
  match x with
  | S754_finite s m e =>
      match binary_round 24 128 s m e with
      | S754_finite s' m' e' => binary_round prec emax s' m' e'
      | y => y
      end
  | _ => x
  end.

(** *** Arrays *)

(** [a.reduce((acc, x, i) => f(acc, x, i), init)] *)
Fixpoint reduce_from {A B : Type} (f : B -> A -> nat -> B)
         (i : nat) (a : list A) (acc : B) : B :=
  match a with
  | [] => acc
  | x :: a' => reduce_from f (S i) a' (f acc x i)
  end.
Definition reduce {A B : Type} (f : B -> A -> nat -> B) (a : list A) (init : B) : B :=
  reduce_from f 0 a init.

(** [b[i]] in an arithmetic context: an index out of range reads
    [undefined], which converts to [NaN]. *)
Definition at_number (b : list number) (i : nat) : number :=
  nth i b NaN.

(** [a.slice(start, end)] with integer arguments: a negative bound counts
    from the end, and both are clamped to the array. *)
Definition rel_index (len : nat) (k : Z) : nat :=
  if (k <? 0)%Z then Z.to_nat (Z.max (Z.of_nat len + k) 0)
  else Nat.min (Z.to_nat k) len.
Definition slice {A : Type} (a : list A) (start stop : Z) : list A :=
  let from := rel_index (List.length a) start in
  let to := rel_index (List.length a) stop in
  firstn (to - from) (skipn from a).

(** A stable sort, as [Array.prototype.sort] is: [after x y] says that the
    comparator asks for [x] to be placed after [y] (it returned a number
    greater than zero on [(x, y)]); an element is moved past the elements
    it has to follow and no further. *)
Section Sort.
Variable A : Type.
Variable after : A -> A -> bool.

Fixpoint insert (x : A) (l : list A) : list A :=
  match l with
  | [] => [x]
  | y :: l' => if after x y then y :: insert x l' else x :: l
  end.

Definition sort (l : list A) : list A := fold_right insert [] l.

(** Two elements the comparator does not order. *)
Definition unordered (x y : A) : bool := negb (after x y) && negb (after y x).
End Sort.

(** *** Strings

    A string is its sequence of code units; this development covers the
    code units below 256. *)

(** White space and line terminators removed by [trim]. *)
Definition is_white_space (c : ascii) : bool :=
  let n := nat_of_ascii c in
  (((9 <=? n) && (n <=? 13)) || (n =? 32) || (n =? 160))%nat.

Fixpoint trim_start (s : string) : string :=
  match s with
  | EmptyString => EmptyString
  | String c s' => if is_white_space c then trim_start s' else s
  end.

Fixpoint trim_end (s : string) : string :=
  match s with
  | EmptyString => EmptyString
  | String c s' =>
      match trim_end s' with
      | EmptyString => if is_white_space c then EmptyString else String c EmptyString
      | t => String c t
      end
  end.

Definition trim (s : string) : string := trim_end (trim_start s).

(** A string is truthy when it is not empty. *)
Definition truthy (s : string) : bool := negb (s =? "").

(** [s.split(/[.!?]+/)]: the pieces between maximal runs of sentence
    terminators; a run at either end leaves an empty piece there, and the
    empty string splits into one empty piece. *)
Definition is_terminator (c : ascii) : bool :=
  ((c =? ".") || (c =? "!") || (c =? "?"))%char.

Fixpoint split_from (in_run : bool) (s : string) : list string :=
  match s with
  | EmptyString => [EmptyString]
  | String c s' =>
      if is_terminator c then
        if in_run then split_from true s' else EmptyString :: split_from true s'
      else
        match split_from false s' with
        | piece :: pieces => String c piece :: pieces
        | [] => [String c EmptyString]
        end
  end.
Definition split_terminators (s : string) : list string := split_from false s.

(** [s.endsWith(suffix)] *)
Definition endsWith (s suffix : string) : bool :=
  let n := String.length s in
  let k := String.length suffix in
  (k <=? n)%nat && (substring (n - k) k s =? suffix).

(** [s.replace(pattern, by)] with a string pattern: the first occurrence
    only. *)
Definition replace (s pattern by_ : string) : string :=
  match String.index 0 pattern s with
  | None => s
  | Some i =>
      substring 0 i s ++ by_
        ++ substring (i + String.length pattern)
             (String.length s - (i + String.length pattern)) s
  end.

(** [n.toString()] for a natural number, and [s.padStart(width, c)]. *)
Definition toString (n : nat) : string := NilZero.string_of_uint (Nat.to_uint n).

Fixpoint repeat_char (c : ascii) (n : nat) : string :=
  match n with
  | O => EmptyString
  | S n' => String c (repeat_char c n')
  end.
Definition padStart (s : string) (width : nat) (c : ascii) : string :=
  repeat_char c (width - String.length s) ++ s.

(** *** Values

    The values that travel through frames and metadata are JSON values;
    [undefined] is the absence of one. *)
#[local] Unset Elimination Schemes.
Inductive json : Type :=
| JNull
| JBool (b : bool)
| JNum (x : number)
| JStr (s : string)
| JArr (items : list json)
| JObj (fields : list (string * json)).
#[local] Set Elimination Schemes.

Definition value := option json.
Definition undefined : value := None.

Fixpoint assoc {V : Type} (k : string) (fields : list (string * V)) : option V :=
  match fields with
  | [] => None
  | (k', v) :: rest => if k' =? k then Some v else assoc k rest
  end.

(** [{ ...fields, k: v }]: an existing key keeps its place. *)
Fixpoint obj_set {V : Type} (k : string) (v : V) (fields : list (string * V))
  : list (string * V) :=
  match fields with
  | [] => [(k, v)]
  | (k', v') :: rest =>
      if k' =? k then (k', v) :: rest else (k', v') :: obj_set k v rest
  end.

(** [{ k1: v1, ... }] written out with values that may be [undefined]:
    [JSON.stringify] leaves such members out. *)
Fixpoint defined_members (members : list (string * value)) : list (string * json) :=
  match members with
  | [] => []
  | (k, Some v) :: rest => (k, v) :: defined_members rest
  | (_, None) :: rest => defined_members rest
  end.

(** The own properties of an object are listed, by [Object.entries] and by
    [JSON.stringify], with the array indices first, in ascending numeric
    order, and the other string keys after them, in the order they were
    created.  An array index is the canonical decimal form of an integer
    below 2^32 - 1. *)
Definition array_index (k : string) : option N :=
  match NilEmpty.uint_of_string k with
  | Some u =>
      let n := N.of_uint u in
      if (NilZero.string_of_uint (N.to_uint n) =? k) && (n <=? 4294967294)%N
      then Some n else None
  | None => None
  end.

Definition is_index {V : Type} (kv : string * V) : bool :=
  match array_index (fst kv) with Some _ => true | None => false end.

(** An index that has to be listed after another one. *)
Definition index_after {V : Type} (x y : string * V) : bool :=
  match array_index (fst x), array_index (fst y) with
  | Some a, Some b => (b <? a)%N
  | _, _ => false
  end.

Definition own_entries {V : Type} (fields : list (string * V)) : list (string * V) :=
  sort index_after (filter is_index fields)
  ++ filter (fun kv => negb (is_index kv)) fields.

(** [Object.fromEntries(entries)]: the properties in the order they are
    created, a key met again keeping its place. *)
Definition fromEntries {V : Type} (entries : list (string * V)) : list (string * V) :=
  fold_left (fun fields kv => obj_set (fst kv) (snd kv) fields) entries [].

(** Errors thrown. *)
Inductive exn : Type :=
| TypeError (msg : string)
| SyntaxError (msg : string)
| Error (msg : string).

(** How a call completes. *)
Inductive completion (A : Type) : Type :=
| Return (a : A)
| Throw (e : exn).
Arguments Return {A} a.
Arguments Throw {A} e.

(** [v.k]: reading a member of [null] throws; a primitive or an array has
    no member of the names used here. *)
Definition member (v : json) (k : string) : completion value :=
  match v with
  | JNull => Throw (TypeError "Cannot read properties of null")
  | JObj fields => Return (assoc k fields)
  | _ => Return undefined
  end.

(** Key equality of [Map] (SameValueZero).  Arrays and objects are equal
    only to themselves; every one used as a key here is freshly made by
    [JSON.parse], so it equals no earlier key. *)
Definition same_value_zero (k1 k2 : value) : bool :=
  match k1, k2 with
  | None, None => true
  | Some JNull, Some JNull => true
  | Some (JBool a), Some (JBool b) => Bool.eqb a b
  | Some (JNum x), Some (JNum y) => SFeqb x y || (is_nan x && is_nan y)
  | Some (JStr a), Some (JStr b) => a =? b
  | _, _ => false
  end.

(** *** Map: insertion-ordered, keys compared by [eqb] *)
Section Map.
Variables K V : Type.
Variable eqb : K -> K -> bool.

Definition Map := list (K * V).

Definition map_empty : Map := [].

Fixpoint map_get (k : K) (m : Map) : option V :=
  match m with
  | [] => None
  | (k', v) :: m' => if eqb k' k then Some v else map_get k m'
  end.

(** [m.set(k, v)]: a key already present keeps its position. *)
Fixpoint map_set (k : K) (v : V) (m : Map) : Map :=
  match m with
  | [] => [(k, v)]
  | (k', v') :: m' =>
      if eqb k' k then (k', v) :: m' else (k', v') :: map_set k v m'
  end.

Definition map_size (m : Map) : nat := List.length m.
Definition map_entries (m : Map) : list (K * V) := m.
Definition map_keys (m : Map) : list K := map fst m.
End Map.

End JS.

(* ================================================================== *)
(** ** Similarity engine: the score *)
(* ================================================================== *)

Definition vector := list JS.number.

(** [cosineSimilarity(a, b)] *)
Definition cosineSimilarity (a b : vector) : JS.number :=
  let dotProduct :=
    JS.reduce (fun sum ai i => JS.add sum (JS.mul ai (JS.at_number b i))) a JS.zero in
  let magnitudeA :=
    JS.sqrt (JS.reduce (fun sum ai _ => JS.add sum (JS.mul ai ai)) a JS.zero) in
  let magnitudeB :=
    JS.sqrt (JS.reduce (fun sum bi _ => JS.add sum (JS.mul bi bi)) b JS.zero) in
  JS.div dotProduct (JS.mul magnitudeA magnitudeB).

(** The three quantities it is built from, by name. *)
Definition dotProduct (a b : vector) : JS.number :=
  JS.reduce (fun sum ai i => JS.add sum (JS.mul ai (JS.at_number b i))) a JS.zero.
Definition magnitude (a : vector) : JS.number :=
  JS.sqrt (JS.reduce (fun sum ai _ => JS.add sum (JS.mul ai ai)) a JS.zero).


(* ================================================================== *)
(** ** Chunker *)
(* ================================================================== *)

(** One turn of the packing loop of [chunkText]: the chunks pushed so far and
    the running buffer [currentChunk]. *)
Definition chunk_step (maxSize : Z) (st : list string * string) (sentence : string)
  : list string * string :=
  let '(chunks, currentChunk) := st in
  if (Z.of_nat (String.length currentChunk + String.length sentence) >? maxSize)%Z
     && JS.truthy currentChunk
  then (chunks ++ [JS.trim currentChunk], sentence)
  else (chunks, (currentChunk ++ (if JS.truthy currentChunk then ". " else "") ++ sentence)%string).

(** [text.split(/[.!?]+/).filter(s => s.trim())] *)
Definition sentences_of (text : string) : list string :=
  filter (fun s => JS.truthy (JS.trim s)) (JS.split_terminators text).

(** [chunkText(text, maxSize)] *)
Definition chunkText (text : string) (maxSize : Z) : list string :=
  let sentences := sentences_of text in
  let '(chunks, currentChunk) := fold_left (chunk_step maxSize) sentences ([], "") in
  if JS.truthy currentChunk then chunks ++ [JS.trim currentChunk] else chunks.

(* ================================================================== *)
(** ** The instance: chunk index and vector store *)
(* ================================================================== *)

(** The configuration keys read by the code modelled here; the remaining
    ones ([qrSize], [fps], [codec], [crf], [embeddingModel]) are only handed to
    the external tools. *)
Record Config : Type := {
  maxChunkSize : Z;
  embeddingDim : nat;
  batchSize : nat;
  ollamaURL : string
}.

Record Memflix : Type := {
  embedder : bool;  (* the local model has been loaded *)
  index : JS.Map JS.value JS.json;
  embeddings : option vector;  (* [null] until the first vector is stored *)
  embeddingIndex : JS.Map string nat;
  useOllama : bool;
  config : Config
}.

Record Options : Type := {
  opt_useOllama : bool;
  opt_maxChunkSize : option Z;
  opt_embeddingDim : option nat;
  opt_batchSize : option nat;
  opt_ollamaURL : option string
}.

Definition default_options : Options :=
  {| opt_useOllama := false; opt_maxChunkSize := None;
     opt_embeddingDim := None; opt_batchSize := None; opt_ollamaURL := None |}.

(** [new Memflix(options)] *)
Definition new_Memflix (options : Options) : Memflix :=
  {| embedder := false;
     index := JS.map_empty _ _;
     embeddings := None;
     embeddingIndex := JS.map_empty _ _;
     useOllama := opt_useOllama options;
     config :=
       {| maxChunkSize := match opt_maxChunkSize options with Some n => n | None => 1500 end;
          embeddingDim := match opt_embeddingDim options with Some n => n | None => 384 end;
          batchSize := match opt_batchSize options with Some n => n | None => 100 end;
          ollamaURL :=
            match opt_ollamaURL options with
            | Some url => url
            | None => "http://localhost:11434"
            end |} |}.

Definition with_embedder (b : bool) (s : Memflix) : Memflix :=
  {| embedder := b; index := index s; embeddings := embeddings s;
     embeddingIndex := embeddingIndex s; useOllama := useOllama s; config := config s |}.

Definition with_index (m : JS.Map JS.value JS.json) (s : Memflix) : Memflix :=
  {| embedder := embedder s; index := m; embeddings := embeddings s;
     embeddingIndex := embeddingIndex s; useOllama := useOllama s; config := config s |}.

Definition with_embeddingDim (d : nat) (c : Config) : Config :=
  {| maxChunkSize := maxChunkSize c; embeddingDim := d; batchSize := batchSize c;
     ollamaURL := ollamaURL c |}.

Definition with_store (buffer : option vector) (offsets : JS.Map string nat) (dim : nat)
           (s : Memflix) : Memflix :=
  {| embedder := embedder s; index := index s; embeddings := buffer;
     embeddingIndex := offsets; useOllama := useOllama s;
     config := with_embeddingDim dim (config s) |}.

(** [storeEmbedding(chunkId, embedding)] *)
Definition storeEmbedding (chunkId : string) (embedding : vector) (s : Memflix) : Memflix :=
  let '(buffer, dim) :=
    match embeddings s with
    | None => ([], List.length embedding)
    | Some buffer => (buffer, embeddingDim (config s))
    end in
  let offset := List.length buffer in
  let newEmbeddings := buffer ++ map JS.fround embedding in
  with_store (Some newEmbeddings) (JS.map_set String.eqb chunkId offset (embeddingIndex s)) dim s.

(** [this.embeddingIndex.get(chunkId)]: the keys of that map are strings, so
    only a string can be found. *)
Definition offset_of (s : Memflix) (chunkId : JS.value) : option nat :=
  match chunkId with
  | Some (JS.JStr id) => JS.map_get String.eqb id (embeddingIndex s)
  | _ => None
  end.

(** [getEmbedding(chunkId)]; [None] is [null]. *)
Definition getEmbedding (s : Memflix) (chunkId : JS.value) : JS.completion (option vector) :=
  match offset_of s chunkId with
  | None => JS.Return None
  | Some offset =>
      match embeddings s with
      | None => JS.Throw (JS.TypeError "Cannot read properties of null (reading 'slice')")
      | Some buffer =>
          JS.Return (Some (JS.slice buffer (Z.of_nat offset)
                                    (Z.of_nat offset + Z.of_nat (embeddingDim (config s)))))
      end
  end.

(* ================================================================== *)
(** ** The outside world *)
(* ================================================================== *)

(** What [saveEmbeddings] writes next to the video.  [sc_index] holds the
    members of the [index] object of the file, as [Object.entries] lists
    them. *)
Record Sidecar : Type := {
  sc_embeddings : list JS.number;
  sc_index : list (string * nat);
  sc_embeddingDim : nat;
  sc_useOllama : bool
}.

(** Lines written to the console by the code modelled here. *)
Inductive Message : Type :=
| WarnParse (frameFile : string)          (* Failed to parse QR data from ... *)
| LogDecoded (decodedCount frames : nat). (* Decoded ... chunks from ... frames *)

(** An entry of [similarities] in [search], and an entry of its result. *)
Module Item.
Record t : Type := { chunkId : JS.value; similarity : JS.number; chunk : JS.json }.
End Item.

Module Hit.
Record t : Type := { text : JS.value; metadata : JS.value; similarity : JS.number }.
End Hit.

(** What [encodeToVideo] and [decodeFromVideo] return. *)
Module Encoded.
Record t : Type := { videoPath : string; embeddingPath : string; totalChunks : nat }.
End Encoded.

Module Decoded.
Record t : Type := { totalChunks : nat }.
End Decoded.

(** [items.map(f)] where [f] may throw: the first throw ends the call. *)
Fixpoint traverse {A B : Type} (f : A -> JS.completion B) (items : list A)
  : JS.completion (list B) :=
  match items with
  | [] => JS.Return []
  | x :: rest =>
      match f x with
      | JS.Throw e => JS.Throw e
      | JS.Return y =>
          match traverse f rest with
          | JS.Throw e => JS.Throw e
          | JS.Return ys => JS.Return (y :: ys)
          end
      end
  end.

(** The candidates of [search]: the entries of the index, in insertion
    order, that pass the filter when there is one. *)
Definition candidates (s : Memflix) (filter : option (JS.json -> bool))
  : list (JS.value * JS.json) :=
  match filter with
  | Some f => List.filter (fun entry => f (snd entry)) (JS.map_entries (index s))
  | None => JS.map_entries (index s)
  end.

(** The score of one candidate. *)
Definition score (s : Memflix) (queryVector : vector) (entry : JS.value * JS.json)
  : JS.completion Item.t :=
  match getEmbedding s (fst entry) with
  | JS.Throw e => JS.Throw e
  | JS.Return embedding =>
      JS.Return
        {| Item.chunkId := fst entry;
           Item.similarity :=
             match embedding with
             | Some e => cosineSimilarity queryVector e
             | None => JS.zero
             end;
           Item.chunk := snd entry |}
  end.

(** [similarities] in [search]. *)
Definition similarities (s : Memflix) (queryVector : vector)
           (filter : option (JS.json -> bool)) : JS.completion (list Item.t) :=
  traverse (score s queryVector) (candidates s filter).

(** The comparator given to [sort]: [(a, b) => b.similarity - a.similarity],
    and when it asks for [a] after [b]. *)
Definition comparator (a b : Item.t) : JS.number :=
  JS.sub (Item.similarity b) (Item.similarity a).
Definition after (a b : Item.t) : bool := JS.gt0 (comparator a b).

(** The object returned for one ranked item. *)
Definition hit (item : Item.t) : JS.completion Hit.t :=
  match JS.member (Item.chunk item) "text" with
  | JS.Throw e => JS.Throw e
  | JS.Return text =>
      match JS.member (Item.chunk item) "metadata" with
      | JS.Throw e => JS.Throw e
      | JS.Return metadata =>
          JS.Return {| Hit.text := text; Hit.metadata := metadata;
                       Hit.similarity := Item.similarity item |}
      end
  end.

(** [search] once the query vector is known. *)
Definition rank (s : Memflix) (queryVector : vector) (limit : Z)
           (filter : option (JS.json -> bool)) : JS.completion (list Hit.t) :=
  match similarities s queryVector filter with
  | JS.Throw e => JS.Throw e
  | JS.Return sims => traverse hit (JS.slice (JS.sort after sims) 0 limit)
  end.

(** What travels in [JSON.stringify] from a number to the [Float32Array]
    built from the parsed file: [NaN] and the infinities are written [null]
    and read back as 0, and the sign of a zero is not written. *)
Definition through_json (x : JS.number) : JS.number :=
  match x with
  | S754_finite _ _ _ => x
  | _ => JS.zero
  end.

Definition path_join (dir name : string) : string := (dir ++ "/" ++ name)%string.

(** [frame_${frameIndex.toString().padStart(6, '0')}.png] *)
Definition frame_name (frameIndex : nat) : string :=
  ("frame_" ++ JS.padStart (JS.toString frameIndex) 6 "0" ++ ".png")%string.

Section Pipeline.

(** A barcode image and a video file, as the external tools see them. *)
Variables Frame Video : Type.

Inductive File : Type :=
| SidecarFile (data : Sidecar)
| VideoFile (v : Video).

(** The external collaborators: the embedding provider, the hash, the
    JSON reader and writer, the barcode codec, the video tool and the parts
    of the file system that can refuse. *)
Record Env : Type := {
  ollama_tags : JS.completion unit;
  ollama_embed : string -> JS.completion vector;
  load_pipeline : JS.completion unit;
  local_embed : string -> JS.completion vector;
  md5_hex : string -> string;
  JSON_stringify : JS.json -> string;
  JSON_parse : string -> JS.completion JS.json;
  draw_qr : string -> JS.completion Frame;
  read_qr : Frame -> option string;
  mux : list (string * Frame) -> JS.completion Video;
  demux : Video -> JS.completion (list (string * Frame));
  tempDir : string;
  mkdir : string -> JS.completion unit;
  rm : string -> JS.completion unit;
  writeFile : string -> JS.completion unit
}.

(** What the calls share: the files outside the temporary directories
    ([disk]) and the console.  The temporary directory of a call is named
    after the clock and made by that call; the frame files written into it are
    kept as a value, here the list of the files of the frame directory, and
    are no part of [disk].  They are removed by [cleanup], which a call that
    throws does not reach: the frame files drawn or extracted until then stay
    in that directory. *)
Record World : Type := {
  disk : string -> option File;
  console : list Message
}.

Definition write (path : string) (f : File) (w : World) : World :=
  {| disk := fun p => if p =? path then Some f else disk w p;
     console := console w |}.

Definition print (m : Message) (w : World) : World :=
  {| disk := disk w; console := console w ++ [m] |}.

Record State : Type := {
  this : Memflix;
  world : World
}.

(** A method call: it reads and updates the instance and the world, and
    returns or throws; what was changed before a throw stays changed. *)
Definition M (A : Type) : Type := State -> JS.completion A * State.

Definition ret {A : Type} (a : A) : M A := fun st => (JS.Return a, st).
Definition throw {A : Type} (e : JS.exn) : M A := fun st => (JS.Throw e, st).
Definition bind {A B : Type} (m : M A) (k : A -> M B) : M B :=
  fun st =>
    match m st with
    | (JS.Return a, st') => k a st'
    | (JS.Throw e, st') => (JS.Throw e, st')
    end.
Definition lift {A : Type} (c : JS.completion A) : M A := fun st => (c, st).
Definition get_this : M Memflix := fun st => (JS.Return (this st), st).
Definition update_this (f : Memflix -> Memflix) : M unit :=
  fun st => (JS.Return tt, {| this := f (this st); world := world st |}).
Definition get_world : M World := fun st => (JS.Return (world st), st).
Definition update_world (f : World -> World) : M unit :=
  fun st => (JS.Return tt, {| this := this st; world := f (world st) |}).

Notation "x <- m ;; k" := (bind m (fun x => k))
  (at level 61, m at next level, right associativity).
Notation "m ;;; k" := (bind m (fun _ => k))
  (at level 61, right associativity).

Variable env : Env.

(** [initialize()] *)
Definition initialize : M unit :=
  s <- get_this ;;
  if useOllama s then
    match ollama_tags env with
    | JS.Return _ => ret tt
    | JS.Throw _ =>
        throw (JS.Error ("Ollama not accessible. Ensure it's running on "
                           ++ ollamaURL (config s)))
    end
  else if embedder s then ret tt
  else lift (load_pipeline env) ;;; update_this (with_embedder true).

(** [generateEmbedding(text)] *)
Definition generateEmbedding (text : string) : M vector :=
  s <- get_this ;;
  if useOllama s then lift (ollama_embed env text)
  else if embedder s then lift (local_embed env text)
  else throw (JS.TypeError "this.embedder is not a function").

(** [generateId(text)] *)
Definition generateId (text : string) : string :=
  substring 0 16 (md5_hex env text).

(** The loop of [processBatch], at position [i] of the batch, with the ids
    pushed so far. *)
Fixpoint processBatch_from (chunks : list string) (metadata : list (string * JS.json))
         (offset i : nat) (results : list string) : M (list string) :=
  match chunks with
  | [] => ret results
  | chunk :: rest =>
      let chunkId := generateId (chunk ++ JS.toString offset ++ JS.toString i) in
      let chunkData :=
        JS.JObj [("id", JS.JStr chunkId);
                 ("text", JS.JStr chunk);
                 ("metadata",
                  JS.JObj (JS.obj_set "index" (JS.JNum (JS.of_Z (Z.of_nat (offset + i))))
                                      metadata))] in
      update_this (fun s =>
        with_index (JS.map_set JS.same_value_zero (Some (JS.JStr chunkId)) chunkData (index s)) s) ;;;
      embedding <- generateEmbedding chunk ;;
      update_this (storeEmbedding chunkId embedding) ;;;
      processBatch_from rest metadata offset (S i) (results ++ [chunkId])
  end.

(** [processBatch(chunks, metadata, offset)] *)
Definition processBatch (chunks : list string) (metadata : list (string * JS.json))
           (offset : nat) : M (list string) :=
  processBatch_from chunks metadata offset 0 [].

(** The loop of [processText] over the batches, from position [i].  It is
    left only when [i] has passed the last chunk; [None] stands for a loop
    that is never left, which is what a batch size of zero gives. *)
Fixpoint processText_from (fuel : nat) (chunks : list string)
         (metadata : list (string * JS.json)) (i : nat) (results : list string)
         (st : State) : option (JS.completion (list string) * State) :=
  if (i <? List.length chunks)%nat then
    match fuel with
    | O => None
    | S fuel' =>
        let batch := JS.slice chunks (Z.of_nat i)
                              (Z.of_nat i + Z.of_nat (batchSize (config (this st)))) in
        match processBatch batch metadata i st with
        | (JS.Return batchResults, st') =>
            processText_from fuel' chunks metadata
                             (i + batchSize (config (this st'))) (results ++ batchResults) st'
        | (JS.Throw e, st') => Some (JS.Throw e, st')
        end
    end
  else Some (JS.Return results, st).

(** [processText(text, metadata)] *)
Definition processText (text : string) (metadata : list (string * JS.json))
           (st : State) : option (JS.completion (list string) * State) :=
  match initialize st with
  | (JS.Return _, st1) =>
      let chunks := chunkText text (maxChunkSize (config (this st1))) in
      processText_from (List.length chunks) chunks metadata 0 [] st1
  | (JS.Throw e, st1) => Some (JS.Throw e, st1)
  end.

(** [search(query, limit, filter)] *)
Definition search (query : string) (limit : Z) (filter : option (JS.json -> bool))
  : M (list Hit.t) :=
  initialize ;;;
  queryVector <- generateEmbedding query ;;
  s <- get_this ;;
  lift (rank s queryVector limit filter).

(** [createTempDir()] and [cleanup(dir)] *)
Definition createTempDir : M string :=
  lift (mkdir env (tempDir env)) ;;; ret (tempDir env).
Definition cleanup (dir : string) : M unit := lift (rm env dir).

(** [saveEmbeddings(path)] *)
Definition saveEmbeddings (path : string) : M unit :=
  s <- get_this ;;
  match embeddings s with
  | None => throw (JS.TypeError "object null is not iterable")
  | Some buffer =>
      let data :=
        {| sc_embeddings := map through_json buffer;
           sc_index := JS.own_entries (JS.fromEntries (JS.map_entries (embeddingIndex s)));
           sc_embeddingDim := embeddingDim (config s);
           sc_useOllama := useOllama s |} in
      lift (writeFile env path) ;;;
      update_world (write path (SidecarFile data))
  end.

(** [loadEmbeddings(path)] *)
Definition loadEmbeddings (path : string) : M unit :=
  w <- get_world ;;
  match disk w path with
  | None => throw (JS.Error "ENOENT: no such file or directory")
  | Some (VideoFile _) => throw (JS.SyntaxError "Unexpected token in JSON")
  | Some (SidecarFile data) =>
      update_this
        (with_store
           (Some (map JS.fround (sc_embeddings data)))
           (fold_left (fun m kv => JS.map_set String.eqb (fst kv) (snd kv) m)
                      (sc_index data) (JS.map_empty _ _))
           (sc_embeddingDim data))
  end.

(** The payload of the frame of one index entry. *)
Definition qrData_of (chunkId : JS.value) (chunkData : JS.json) : JS.completion string :=
  match JS.member chunkData "text" with
  | JS.Throw e => JS.Throw e
  | JS.Return text =>
      match JS.member chunkData "metadata" with
      | JS.Throw e => JS.Throw e
      | JS.Return metadata =>
          JS.Return
            (JSON_stringify env
               (JS.JObj (JS.defined_members
                           [("id", chunkId); ("text", text); ("metadata", metadata)])))
      end
  end.

(** The frame loop of [encodeToVideo], from [frameIndex]: the files written
    into the frame directory of the call, which is no part of [disk].  When a
    frame cannot be drawn the loop throws, and the files written before it
    stay in the temporary directory. *)
Fixpoint generate_frames (entries : list (JS.value * JS.json)) (frameIndex : nat)
  : JS.completion (list (string * Frame)) :=
  match entries with
  | [] => JS.Return []
  | (chunkId, chunkData) :: rest =>
      match qrData_of chunkId chunkData with
      | JS.Throw e => JS.Throw e
      | JS.Return qrData =>
          match draw_qr env qrData with
          | JS.Throw e => JS.Throw e
          | JS.Return frame =>
              match generate_frames rest (S frameIndex) with
              | JS.Throw e => JS.Throw e
              | JS.Return frames => JS.Return ((frame_name frameIndex, frame) :: frames)
              end
          end
      end
  end.

(** [encodeFramesToVideo(frameDir, outputPath)], on the files of [frameDir] *)
Definition encodeFramesToVideo (frames : list (string * Frame)) (outputPath : string)
  : M unit :=
  v <- lift (mux env frames) ;;
  update_world (write outputPath (VideoFile v)).

(** [encodeToVideo(outputPath)] *)
Definition encodeToVideo (outputPath : string) : M Encoded.t :=
  tempDir <- createTempDir ;;
  lift (mkdir env (path_join tempDir "frames")) ;;;
  let embeddingPath := JS.replace outputPath ".mp4" ".emb" in
  saveEmbeddings embeddingPath ;;;
  s <- get_this ;;
  frames <- lift (generate_frames (JS.map_entries (index s)) 0) ;;
  encodeFramesToVideo frames outputPath ;;;
  cleanup tempDir ;;;
  s' <- get_this ;;
  ret {| Encoded.videoPath := outputPath;
         Encoded.embeddingPath := embeddingPath;
         Encoded.totalChunks := JS.map_size (index s') |}.

(** [extractFramesFromVideo(videoPath, outputDir)]: the files it leaves in
    the frame directory. *)
Definition extractFramesFromVideo (videoPath : string) : M (list (string * Frame)) :=
  w <- get_world ;;
  match disk w videoPath with
  | Some (VideoFile v) => lift (demux env v)
  | _ => throw (JS.Error "ffmpeg exited with code 1")
  end.

(** [decodeQRFrame(framePath)] on a file of the frame directory; every
    failure inside is caught and gives [null]. *)
Definition decodeQRFrame (dir : list (string * Frame)) (frameFile : string)
  : option string :=
  match JS.assoc frameFile dir with
  | Some frame => read_qr env frame
  | None => None
  end.

(** One turn of the frame loop of [decodeFromVideo]. *)
Definition decode_frame (dir : list (string * Frame)) (frameFile : string)
           (decodedCount : nat) : M nat :=
  if negb (JS.endsWith frameFile ".png") then ret decodedCount
  else
    match decodeQRFrame dir frameFile with
    | None => ret decodedCount
    | Some qrData =>
        if JS.truthy qrData then
          match JSON_parse env qrData with
          | JS.Throw _ => update_world (print (WarnParse frameFile)) ;;; ret decodedCount
          | JS.Return parsed =>
              match JS.member parsed "id" with
              | JS.Throw _ => update_world (print (WarnParse frameFile)) ;;; ret decodedCount
              | JS.Return id =>
                  update_this (fun s =>
                    with_index (JS.map_set JS.same_value_zero id parsed (index s)) s) ;;;
                  ret (S decodedCount)
              end
          end
        else ret decodedCount
    end.

Fixpoint decode_frames (dir : list (string * Frame)) (frameFiles : list string)
         (decodedCount : nat) : M nat :=
  match frameFiles with
  | [] => ret decodedCount
  | frameFile :: rest =>
      decodedCount' <- decode_frame dir frameFile decodedCount ;;
      decode_frames dir rest decodedCount'
  end.

(** [decodeFromVideo(videoPath)] *)
Definition decodeFromVideo (videoPath : string) : M Decoded.t :=
  tempDir <- createTempDir ;;
  lift (mkdir env (path_join tempDir "frames")) ;;;
  let embeddingPath := JS.replace videoPath ".mp4" ".emb" in
  loadEmbeddings embeddingPath ;;;
  dir <- extractFramesFromVideo videoPath ;;
  let frameFiles := JS.sort (fun x y => String.ltb y x) (map fst dir) in
  update_this (with_index (JS.map_empty _ _)) ;;;
  decodedCount <- decode_frames dir frameFiles 0 ;;
  cleanup tempDir ;;;
  update_world (print (LogDecoded decodedCount (List.length frameFiles))) ;;;
  s <- get_this ;;
  ret {| Decoded.totalChunks := JS.map_size (index s) |}.

End Pipeline.

(* ================================================================== *)
(** ** What is recovered from frames, and well-formed instances *)
(* ================================================================== *)

Section Recovered.

Variables Frame Video : Type.
Variable env : Env Frame Video.

(** The chunk a frame file gives, when its barcode is readable and its
    payload parses and has a readable [id] member. *)
Definition recover_frame (dir : list (string * Frame)) (frameFile : string)
  : option (JS.value * JS.json) :=
  if negb (JS.endsWith frameFile ".png") then None
  else
    match decodeQRFrame env dir frameFile with
    | None => None
    | Some qrData =>
        if JS.truthy qrData then
          match JSON_parse env qrData with
          | JS.Throw _ => None
          | JS.Return parsed =>
              match JS.member parsed "id" with
              | JS.Throw _ => None
              | JS.Return id => Some (id, parsed)
              end
          end
        else None
    end.

Fixpoint recovered (dir : list (string * Frame)) (frameFiles : list string)
  : list (JS.value * JS.json) :=
  match frameFiles with
  | [] => []
  | frameFile :: rest =>
      match recover_frame dir frameFile with
      | Some entry => entry :: recovered dir rest
      | None => recovered dir rest
      end
  end.

(** The frame files in the order the decoder visits them. *)
Definition frameFiles_of (dir : list (string * Frame)) : list string :=
  JS.sort (fun x y => String.ltb y x) (map fst dir).

(** The index obtained by setting the given entries, in order. *)
Definition set_all (entries : list (JS.value * JS.json))
           (m : JS.Map JS.value JS.json) : JS.Map JS.value JS.json :=
  fold_left (fun m kv => JS.map_set JS.same_value_zero (fst kv) (snd kv) m) entries m.

(** The state a decode that goes through leaves behind. *)
Definition decoded_state (st : State Video) (data : Sidecar) (dir : list (string * Frame))
           (warnings : list Message) : State Video :=
  {| this :=
       with_index
         (set_all (recovered dir (frameFiles_of dir)) (JS.map_empty _ _))
         (with_store (Some (map JS.fround (sc_embeddings data)))
                     (fold_left (fun m kv => JS.map_set String.eqb (fst kv) (snd kv) m)
                                (sc_index data) (JS.map_empty _ _))
                     (sc_embeddingDim data) (this st));
     world :=
       {| disk := disk (world st);
          console :=
            console (world st) ++ warnings
              ++ [LogDecoded (List.length (recovered dir (frameFiles_of dir)))
                             (List.length (frameFiles_of dir))] |} |}.

End Recovered.

(** Keys that are pairwise different for the map. *)
Fixpoint distinct_keys (keys : list JS.value) : bool :=
  match keys with
  | [] => true
  | k :: rest =>
      forallb (fun k' => negb (JS.same_value_zero k k')) rest && distinct_keys rest
  end.

(** An instance as the methods leave it: offsets are recorded only once the
    buffer exists, and no chunk record is [null]. *)
Definition is_null (v : JS.json) : bool :=
  match v with JS.JNull => true | _ => false end.

Definition wf (s : Memflix) : Prop :=
  (embeddings s = None -> embeddingIndex s = []) /\
  Forall (fun entry => is_null (snd entry) = false) (index s).

(** The comparator is consistent on the given items: it never asks for two
    items to follow each other, and an item that has to follow another has to
    follow, or be followed by, any third one accordingly. *)
Definition consistent (items : list Item.t) : Prop :=
  (forall x y, In x items -> In y items -> after x y = true -> after y x = false) /\
  (forall x y z, In x items -> In y items -> In z items ->
                 after x y = true -> after x z = true \/ after z y = true).

(** Two items the comparator does not order. *)
Definition tie : Item.t -> Item.t -> bool := JS.unordered after.

(** [v.k] where [v] is known not to be [null]. *)
Definition prop (v : JS.json) (k : string) : JS.value :=
  match v with
  | JS.JObj fields => JS.assoc k fields
  | _ => JS.undefined
  end.

(** The object written in the frame of an index entry. *)
Definition payload (entry : JS.value * JS.json) : JS.json :=
  JS.JObj (JS.defined_members
             [("id", fst entry); ("text", prop (snd entry) "text");
              ("metadata", prop (snd entry) "metadata")]).

Section Lossless.

Variables Frame Video : Type.
Variable env : Env Frame Video.

(** The frames the decoder looks at, in the order it visits the files of the
    frame directory. *)
Definition visited (dir : list (string * Frame)) : list (option Frame) :=
  map (fun frameFile => JS.assoc frameFile dir)
      (List.filter (fun frameFile => JS.endsWith frameFile ".png") (frameFiles_of dir)).

(** The frame codec and the JSON reader and writer lose nothing of the
    given index entries: each payload is written to a non-empty string that
    parses back to it, and is drawn to a frame that reads back as that
    string. *)
Definition lossless_codec (entries : list (JS.value * JS.json)) : Prop :=
  forall entry, In entry entries ->
    JS.truthy (JSON_stringify env (payload entry)) = true /\
    JSON_parse env (JSON_stringify env (payload entry)) = JS.Return (payload entry) /\
    exists frame,
      draw_qr env (JSON_stringify env (payload entry)) = JS.Return frame /\
      read_qr env frame = Some (JSON_stringify env (payload entry)).

(** The video container loses nothing of the given frame files: they are
    packed into a video, and unpacking it gives a directory in which the
    decoder visits the same frames in the same order. *)
Definition lossless_container (frames : list (string * Frame)) : Prop :=
  exists v dir,
    mux env frames = JS.Return v /\
    demux env v = JS.Return dir /\
    visited dir = map (fun file => Some (snd file)) frames.

End Lossless.

(* ================================================================== *)
(** ** A small world to run the methods in *)
(* ================================================================== *)

Module Demo.

(** Frames are their payloads and a video is the list of its frames. *)
Definition Frame : Type := string.
Definition Video : Type := list string.

Definition one : JS.number := JS.of_Z 1.
Definition nought : JS.number := JS.of_Z 0.

Definition quote : string := String (ascii_of_nat 34) EmptyString.

(** A writer for the values used below; numbers are written by sign only. *)
Fixpoint stringify (j : JS.json) : string :=
  match j with
  | JS.JNull => "null"
  | JS.JBool true => "true"
  | JS.JBool false => "false"
  | JS.JNum x => if JS.is_zero x then "0" else "1"
  | JS.JStr s => (quote ++ s ++ quote)%string
  | JS.JArr items =>
      ("[" ++ (fix go (l : list JS.json) : string :=
                 match l with
                 | [] => ""
                 | x :: rest => (stringify x ++ "," ++ go rest)%string
                 end) items ++ "]")%string
  | JS.JObj fields =>
      ("{" ++ (fix go (l : list (string * JS.json)) : string :=
                 match l with
                 | [] => ""
                 | (k, v) :: rest =>
                     (quote ++ k ++ quote ++ ":" ++ stringify v ++ "," ++ go rest)%string
                 end) fields ++ "}")%string
  end.

Definition chunk_record (id text : string) : JS.json :=
  JS.JObj [("id", JS.JStr id); ("text", JS.JStr text);
           ("metadata", JS.JObj [("index", JS.JNum nought)])].

(** The values the reader knows. *)
Definition known : list JS.json :=
  [chunk_record "a" "alpha"; chunk_record "b" "beta"; chunk_record "c" "gamma"].

Definition parse (s : string) : JS.completion JS.json :=
  match find (fun j => stringify j =? s) known with
  | Some j => JS.Return j
  | None => JS.Throw (JS.SyntaxError "Unexpected token")
  end.

(** The embedder knows a few texts; any other text gets the zero vector. *)
Definition embed (text : string) : JS.completion vector :=
  JS.Return
    (if text =? "alpha" then [one; nought]
     else if text =? "beta" then [nought; one]
     else if text =? "gamma" then [one; nought]
     else if text =? "east" then [one; nought]
     else [nought; nought]).

(** The video tool numbers the frames it extracts from 1. *)
Definition extract (v : Video) : list (string * Frame) :=
  combine (map frame_name (seq 1 (List.length v))) v.

Definition env : Env Frame Video :=
  {| ollama_tags := JS.Throw (JS.Error "connect ECONNREFUSED");
     ollama_embed := fun _ => JS.Throw (JS.Error "connect ECONNREFUSED");
     load_pipeline := JS.Return tt;
     local_embed := embed;
     md5_hex := fun text => (text ++ "0000000000000000")%string;
     JSON_stringify := stringify;
     JSON_parse := parse;
     draw_qr := fun qrData => JS.Return qrData;
     read_qr := fun frame => Some frame;
     mux := fun frames => JS.Return (map snd frames);
     demux := fun v => JS.Return (extract v);
     tempDir := "temp/0";
     mkdir := fun _ => JS.Return tt;
     rm := fun _ => JS.Return tt;
     writeFile := fun _ => JS.Return tt |}.

Definition fresh : Memflix := new_Memflix default_options.

Definition nothing : World Video := {| disk := fun _ => None; console := [] |}.

Definition start (s : Memflix) : State Video := {| this := s; world := nothing |}.

(** What [processBatch] does for one chunk, with the id and the vector
    given. *)
Definition add_chunk (id text : string) (embedding : vector) (s : Memflix) : Memflix :=
  storeEmbedding id embedding
    (with_index
       (JS.map_set JS.same_value_zero (Some (JS.JStr id)) (chunk_record id text) (index s))
       s).

(** Vectors [[1,0]], [[0,1]], [[1,0]] stored under [a], [b], [c]. *)
Definition abc : Memflix :=
  add_chunk "c" "gamma" [one; nought]
    (add_chunk "b" "beta" [nought; one]
       (add_chunk "a" "alpha" [one; nought] fresh)).

(** Vectors [[1,1]], [[0,0]], [[1,0]] stored under [a], [b], [c]. *)
Definition with_zero_vector : Memflix :=
  add_chunk "c" "gamma" [one; nought]
    (add_chunk "b" "beta" [nought; nought]
       (add_chunk "a" "alpha" [one; one] fresh)).

(** A store whose first vector has 300 components, and a vector of 384. *)
Definition v300 : vector := repeat one 300.
Definition v384 : vector := repeat one 384.
Definition s300 : Memflix := storeEmbedding "a" v300 fresh.

(** A video in which the frame of chunk [a] occurs twice, with its sidecar
    file. *)
Definition twice : World Video :=
  write "twice.mp4"
        (VideoFile [stringify (chunk_record "a" "alpha"); stringify (chunk_record "a" "alpha")])
        (write "twice.emb"
               (SidecarFile Video
                  {| sc_embeddings := [one; nought]; sc_index := [("a", 0)];
                     sc_embeddingDim := 2; sc_useOllama := false |})
               nothing).

(** An environment whose video tool fails. *)
Definition broken_video : Env Frame Video :=
  {| ollama_tags := ollama_tags env;
     ollama_embed := ollama_embed env;
     load_pipeline := load_pipeline env;
     local_embed := local_embed env;
     md5_hex := md5_hex env;
     JSON_stringify := JSON_stringify env;
     JSON_parse := JSON_parse env;
     draw_qr := draw_qr env;
     read_qr := read_qr env;
     mux := mux env;
     demux := fun _ => JS.Throw (JS.Error "ffmpeg exited with code 1");
     tempDir := tempDir env;
     mkdir := mkdir env;
     rm := rm env;
     writeFile := writeFile env |}.

(** An entry of [similarities] and an entry of a search result for the
    chunks above. *)
Definition item (id text : string) (similarity : JS.number) : Item.t :=
  {| Item.chunkId := Some (JS.JStr id); Item.similarity := similarity;
     Item.chunk := chunk_record id text |}.

Definition found (text : string) (similarity : JS.number) : Hit.t :=
  {| Hit.text := Some (JS.JStr text);
     Hit.metadata := Some (JS.JObj [("index", JS.JNum nought)]);
     Hit.similarity := similarity |}.

(** The instance once the local model is loaded. *)
Definition ready (s : Memflix) : State Video := start (with_embedder true s).

(** An instance holding [a], [b], [c] in front of the video above. *)
Definition rerun : State Video := {| this := abc; world := twice |}.

End Demo.

(* ================================================================== *)
(** ** Words for further properties *)
(* ================================================================== *)

(** A string of white space only. *)
Fixpoint blank (s : string) : bool :=
  match s with
  | EmptyString => true
  | String c s' => JS.is_white_space c && blank s'
  end.

(** A text that holds nothing but white space and sentence terminators. *)
Fixpoint without_sentence (text : string) : bool :=
  match text with
  | EmptyString => true
  | String c text' =>
      (JS.is_white_space c || JS.is_terminator c) && without_sentence text'
  end.

(** The chunk made of a group of sentences: joined by a period and a space,
    then trimmed. *)
Definition chunk_of (group : list string) : string :=
  JS.trim (String.concat ". " group).

(** The buffer of the vector store, empty when it is [null]. *)
Definition buffer_of (s : Memflix) : vector :=
  match embeddings s with Some buffer => buffer | None => [] end.

(** A chunk id that has a record in the index, and one that has a vector in
    the store. *)
Definition has_record (s : Memflix) (chunkId : string) : bool :=
  match JS.map_get JS.same_value_zero (Some (JS.JStr chunkId)) (index s) with
  | Some _ => true
  | None => false
  end.

Definition has_vector (s : Memflix) (chunkId : string) : bool :=
  match offset_of s (Some (JS.JStr chunkId)) with
  | Some _ => true
  | None => false
  end.

Definition complete (s : Memflix) (chunkId : string) : bool :=
  has_record s chunkId && has_vector s chunkId.

(** The flush test of [chunkText] on the running buffer and the next
    sentence (the buffer being non-empty). *)
Definition over (maxSize : Z) (buffer sentence : string) : bool :=
  (Z.of_nat (String.length buffer + String.length sentence) >? maxSize)%Z.

(** A group every sentence of which, after the first, passed the flush test
    when it was added to the sentences before it. *)
Fixpoint fits_from (maxSize : Z) (buffer : string) (rest : list string) : bool :=
  match rest with
  | [] => true
  | sentence :: rest' =>
      negb (over maxSize buffer sentence)
      && fits_from maxSize (buffer ++ ". " ++ sentence) rest'
  end.

Definition fits (maxSize : Z) (group : list string) : bool :=
  match group with
  | [] => true
  | sentence :: rest => fits_from maxSize sentence rest
  end.

(** Groups each of which was closed because the first sentence of the next
    one failed the flush test. *)
Fixpoint packed (maxSize : Z) (groups : list (list string)) : bool :=
  match groups with
  | [] => true
  | group :: rest =>
      match rest with
      | [] => true
      | next :: _ =>
          over maxSize (String.concat ". " group) (hd "" next) && packed maxSize rest
      end
  end.

(** What the packing loop of [chunkText] maintains: the chunks pushed are
    the closed groups, the buffer is the open group joined, and every group
    was filled as far as the flush test allowed. *)
Definition packing (maxSize : Z) (groups : list (list string)) (cur : list string) : Prop :=
  Forall (fun g => g <> [] /\ Forall (fun s => blank s = false) g) groups /\
  Forall (fun s => blank s = false) cur /\
  Forall (fun g => fits maxSize g = true) groups /\
  fits maxSize cur = true /\
  packed maxSize (groups ++ [cur]) = true /\
  (cur = [] -> groups = []).

(** The states reached from a new instance by calls of the methods of the
    public interface, whatever their outcome. *)
Inductive produced (Frame Video : Type) (env : Env Frame Video) : State Video -> Prop :=
| produced_new (options : Options) (w : World Video) :
    produced env {| this := new_Memflix options; world := w |}
| produced_initialize (st : State Video) :
    produced env st -> produced env (snd (initialize env st))
| produced_processText (st : State Video) (text : string)
                       (metadata : list (string * JS.json))
                       (r : JS.completion (list string) * State Video) :
    produced env st -> processText env text metadata st = Some r -> produced env (snd r)
| produced_search (st : State Video) (query : string) (limit : Z)
                  (filter : option (JS.json -> bool)) :
    produced env st -> produced env (snd (search env query limit filter st))
| produced_encodeToVideo (st : State Video) (outputPath : string) :
    produced env st -> produced env (snd (encodeToVideo env outputPath st))
| produced_decodeFromVideo (st : State Video) (videoPath : string) :
    produced env st -> produced env (snd (decodeFromVideo env videoPath st)).

(** An environment whose barcode writer refuses every payload. *)
Definition no_room : Env Demo.Frame Demo.Video :=
  {| ollama_tags := ollama_tags Demo.env;
     ollama_embed := ollama_embed Demo.env;
     load_pipeline := load_pipeline Demo.env;
     local_embed := local_embed Demo.env;
     md5_hex := md5_hex Demo.env;
     JSON_stringify := JSON_stringify Demo.env;
     JSON_parse := JSON_parse Demo.env;
     draw_qr := fun _ => JS.Throw (JS.Error "The amount of data is too big to be stored in a QR Code");
     read_qr := read_qr Demo.env;
     mux := mux Demo.env;
     demux := demux Demo.env;
     tempDir := tempDir Demo.env;
     mkdir := mkdir Demo.env;
     rm := rm Demo.env;
     writeFile := writeFile Demo.env |}.

(** The record [processBatch] writes under [chunkId] for the chunk at
    [position] of the text. *)
Definition record_of (chunkId chunk : string) (metadata : list (string * JS.json))
           (position : nat) : JS.json :=
  JS.JObj [("id", JS.JStr chunkId);
           ("text", JS.JStr chunk);
           ("metadata",
            JS.JObj (JS.obj_set "index" (JS.JNum (JS.of_Z (Z.of_nat position))) metadata))].

(** An id under which the index holds the record of one of the given
    chunks. *)
Definition written (chunks : list string) (metadata : list (string * JS.json))
           (s : Memflix) (chunkId : string) : Prop :=
  exists chunk position,
    nth_error chunks position = Some chunk /\
    JS.map_get JS.same_value_zero (Some (JS.JStr chunkId)) (index s)
    = Some (record_of chunkId chunk metadata position).

(** [processPDF(pdfPath, metadata)]; [pdf_parse] stands for reading the file
    and parsing it: it gives the text of the document and its number of
    pages, or fails. *)
Definition processPDF (Frame Video : Type) (env : Env Frame Video)
           (pdf_parse : string -> JS.completion (string * JS.number))
           (pdfPath : string) (metadata : list (string * JS.json)) (st : State Video)
  : option (JS.completion (list string) * State Video) :=
  match pdf_parse pdfPath with
  | JS.Throw e => Some (JS.Throw e, st)
  | JS.Return (text, numpages) =>
      processText env text
        (JS.obj_set "pages" (JS.JNum numpages)
           (JS.obj_set "type" (JS.JStr "pdf")
              (JS.obj_set "source" (JS.JStr pdfPath) metadata)))
        st
  end.

(** [text.replace(/<[^>]*>/g, ' ')] in [processEPUB]: every tag, from a
    less-than sign to the first greater-than sign after it, becomes a space;
    a less-than sign with no greater-than sign after it stays. *)
Fixpoint has_gt (s : string) : bool :=
  match s with
  | EmptyString => false
  | String c s' => (c =? ">")%char || has_gt s'
  end.

Fixpoint strip_from (in_tag : bool) (s : string) : string :=
  match s with
  | EmptyString => EmptyString
  | String c s' =>
      if in_tag then
        if (c =? ">")%char then strip_from false s' else strip_from true s'
      else if (c =? "<")%char && has_gt s' then String " " (strip_from true s')
      else String c (strip_from false s')
  end.

Definition strip_tags (s : string) : string := strip_from false s.

(** [text.replace(/\s+/g, ' ')]: every run of white space becomes one
    space. *)
Fixpoint collapse_from (in_run : bool) (s : string) : string :=
  match s with
  | EmptyString => EmptyString
  | String c s' =>
      if JS.is_white_space c then
        if in_run then collapse_from true s' else String " " (collapse_from true s')
      else String c (collapse_from false s')
  end.

Definition collapse_white_space (s : string) : string := collapse_from false s.

(** The text [processEPUB] keeps of a chapter. *)
Definition chapter_text (text : string) : string :=
  collapse_white_space (strip_tags text).

(** A string without a tag, and a string in which white space is single
    spaces only. *)
Fixpoint tag_free (s : string) : bool :=
  match s with
  | EmptyString => true
  | String c s' => negb ((c =? "<")%char && has_gt s') && tag_free s'
  end.

Definition starts_with_white_space (s : string) : bool :=
  match s with
  | EmptyString => false
  | String c _ => JS.is_white_space c
  end.

Fixpoint single_spaced (s : string) : bool :=
  match s with
  | EmptyString => true
  | String c s' =>
      (if JS.is_white_space c then (c =? " ")%char && negb (starts_with_white_space s')
       else true)
      && single_spaced s'
  end.

(** An environment in which the local model cannot be loaded. *)
Definition offline : Env Demo.Frame Demo.Video :=
  {| ollama_tags := ollama_tags Demo.env;
     ollama_embed := ollama_embed Demo.env;
     load_pipeline := JS.Throw (JS.Error "fetch failed");
     local_embed := local_embed Demo.env;
     md5_hex := md5_hex Demo.env;
     JSON_stringify := JSON_stringify Demo.env;
     JSON_parse := JSON_parse Demo.env;
     draw_qr := draw_qr Demo.env;
     read_qr := read_qr Demo.env;
     mux := mux Demo.env;
     demux := demux Demo.env;
     tempDir := tempDir Demo.env;
     mkdir := mkdir Demo.env;
     rm := rm Demo.env;
     writeFile := writeFile Demo.env |}.

(** An environment whose local model fails on one text. *)
Definition fails_on_beta : Env Demo.Frame Demo.Video :=
  {| ollama_tags := ollama_tags Demo.env;
     ollama_embed := ollama_embed Demo.env;
     load_pipeline := load_pipeline Demo.env;
     local_embed :=
       fun text =>
         if text =? "beta" then JS.Throw (JS.Error "Tensor allocation failed")
         else Demo.embed text;
     md5_hex := md5_hex Demo.env;
     JSON_stringify := JSON_stringify Demo.env;
     JSON_parse := JSON_parse Demo.env;
     draw_qr := draw_qr Demo.env;
     read_qr := read_qr Demo.env;
     mux := mux Demo.env;
     demux := demux Demo.env;
     tempDir := tempDir Demo.env;
     mkdir := mkdir Demo.env;
     rm := rm Demo.env;
     writeFile := writeFile Demo.env |}.

(** A store holding vectors under the ids [b], [10] and [9], stored in that
    order. *)
Definition b_10_9 : Memflix :=
  storeEmbedding "9" [Demo.one; Demo.one]
    (storeEmbedding "10" [Demo.nought; Demo.one]
       (storeEmbedding "b" [Demo.one; Demo.nought] Demo.fresh)).

(** A path inside a directory. *)
Definition inside (dir path : string) : bool := String.prefix (dir ++ "/") path.

(* ================================================================== *)
(** * Properties *)
(* ================================================================== *)

(** ** Cosine similarity *)

Lemma mul_with_zero (x y : JS.number) :
  JS.is_zero x || JS.is_zero y = true ->
  JS.is_zero (JS.mul x y) || JS.is_nan (JS.mul x y) = true.
Proof.
  destruct x, y; simpl; intros H; try reflexivity; discriminate H.
Qed.

Lemma div_by_zero_or_nan (x y : JS.number) :
  JS.is_zero y || JS.is_nan y = true ->
  JS.is_zero (JS.div x y) = false /\
  JS.is_nan (JS.div x y) || JS.is_infinite (JS.div x y) = true.
Proof.
  destruct x, y; simpl; intros H; try (split; reflexivity); discriminate H.
Qed.

Lemma div_zero_by_zero_or_nan (x y : JS.number) :
  JS.is_zero x = true -> JS.is_zero y || JS.is_nan y = true ->
  JS.is_nan (JS.div x y) = true.
Proof.
  destruct x, y; simpl; intros Hx H; try reflexivity; discriminate.
Qed.

Lemma cosineSimilarity_unfold (a b : vector) :
  cosineSimilarity a b = JS.div (dotProduct a b) (JS.mul (magnitude a) (magnitude b)).
Proof. reflexivity. Qed.

(** C1, as the code has it: when either magnitude is 0 the quotient has a
    zero or [NaN] divisor, so [cosineSimilarity] never returns 0 there; it
    returns [NaN] or an infinity, and [NaN] whenever the dot product is 0. *)
Theorem cosineSimilarity_zero_magnitude (a b : vector) :
  JS.is_zero (magnitude a) || JS.is_zero (magnitude b) = true ->
  JS.is_zero (cosineSimilarity a b) = false /\
  JS.is_nan (cosineSimilarity a b) || JS.is_infinite (cosineSimilarity a b) = true /\
  (JS.is_zero (dotProduct a b) = true -> JS.is_nan (cosineSimilarity a b) = true).
Proof.
  intros H. rewrite cosineSimilarity_unfold.
  pose proof (mul_with_zero _ _ H) as Hden.
  destruct (div_by_zero_or_nan (dotProduct a b) _ Hden) as [Hz Hn].
  repeat split; try assumption.
  intros Hdot. now apply div_zero_by_zero_or_nan.
Qed.

Lemma cosineSimilarity_zero_magnitude_witness :
  JS.is_zero (cosineSimilarity [Demo.nought; Demo.nought] [Demo.one; Demo.nought]) = false.
Proof.
  apply (cosineSimilarity_zero_magnitude [Demo.nought; Demo.nought] [Demo.one; Demo.nought]).
  vm_compute. reflexivity.
Defined.

(** C1 as stated fails: two vectors of equal length, the first of magnitude
    0, and the result is [NaN], not 0. *)
Lemma cosineSimilarity_zero_vector_is_NaN :
  List.length [Demo.nought; Demo.nought] = List.length [Demo.one; Demo.nought] /\
  magnitude [Demo.nought; Demo.nought] = JS.zero /\
  cosineSimilarity [Demo.nought; Demo.nought] [Demo.one; Demo.nought] = JS.NaN /\
  cosineSimilarity [Demo.nought; Demo.nought] [Demo.one; Demo.nought] <> JS.zero.
Proof.
  repeat split; try (vm_compute; reflexivity).
  vm_compute. discriminate.
Qed.

(** ** Chunker *)

(** C2 fails on two short sentences: each fits, their lengths add up to the
    bound, and the chunk joining them with a period and a space is two
    longer. *)
Theorem chunkText_joined_chunk_exceeds_maxSize :
  sentences_of "One two. Three four." = ["One two"; " Three four"] /\
  chunkText "One two. Three four." 18 = ["One two.  Three four"] /\
  String.length "One two" = 7 /\ String.length " Three four" = 11 /\
  String.length "One two.  Three four" = 20.
Proof. repeat split; vm_compute; reflexivity. Qed.

Lemma length_append (s1 s2 : string) :
  String.length (s1 ++ s2) = String.length s1 + String.length s2.
Proof. induction s1 as [|c s1 IH]; simpl; [reflexivity|now rewrite IH]. Qed.

Lemma trim_start_length (s : string) : String.length (JS.trim_start s) <= String.length s.
Proof.
  induction s as [|c s IH]; simpl; [lia|].
  destruct (JS.is_white_space c); simpl; lia.
Qed.

Lemma trim_end_length (s : string) : String.length (JS.trim_end s) <= String.length s.
Proof.
  induction s as [|c s IH]; simpl; [lia|].
  destruct (JS.trim_end s); [destruct (JS.is_white_space c)|]; simpl in *; lia.
Qed.

Lemma trim_length (s : string) : String.length (JS.trim s) <= String.length s.
Proof.
  unfold JS.trim. pose proof (trim_end_length (JS.trim_start s)).
  pose proof (trim_start_length s). lia.
Qed.

Lemma truthy_false (s : string) : JS.truthy s = false -> s = "".
Proof.
  unfold JS.truthy. intros H. apply negb_false_iff in H. now apply String.eqb_eq.
Qed.

Section ChunkBound.

Variable maxSize : Z.
Variable sentences : list string.

(** A chunk is within two of the bound, or is one sentence, trimmed; the
    running buffer is empty, within two of the bound, or one sentence. *)
Local Abbreviation good_chunk :=
  (fun chunk : string =>
     (Z.of_nat (String.length chunk) <= maxSize + 2)%Z \/
     exists sentence, In sentence sentences /\ chunk = JS.trim sentence).
Local Abbreviation good_buffer :=
  (fun buffer : string =>
     buffer = "" \/ (Z.of_nat (String.length buffer) <= maxSize + 2)%Z \/ In buffer sentences).

Lemma good_buffer_flushed (buffer : string) :
  good_buffer buffer -> JS.truthy buffer = true -> good_chunk (JS.trim buffer).
Proof.
  intros [->|[H|H]] Ht.
  - discriminate Ht.
  - left. pose proof (trim_length buffer). lia.
  - right. now exists buffer.
Qed.

Lemma chunk_step_good (chunks : list string) (buffer sentence : string) :
  Forall good_chunk chunks -> good_buffer buffer -> In sentence sentences ->
  Forall good_chunk (fst (chunk_step maxSize (chunks, buffer) sentence)) /\
  good_buffer (snd (chunk_step maxSize (chunks, buffer) sentence)).
Proof.
  intros Hc Hb Hs. unfold chunk_step.
  destruct (JS.truthy buffer) eqn:Ht.
  - destruct (Z.of_nat (String.length buffer + String.length sentence) >? maxSize)%Z eqn:Hgt;
      cbn [andb fst snd].
    + split; [|now right; right].
      apply Forall_app. split; [exact Hc|].
      constructor; [|constructor]. now apply good_buffer_flushed.
    + split; [exact Hc|]. right. left.
      rewrite !length_append. cbn [String.length].
      rewrite Z.gtb_ltb in Hgt. apply Z.ltb_ge in Hgt. lia.
  - rewrite andb_false_r. cbn [fst snd]. split; [exact Hc|].
    rewrite (truthy_false _ Ht). now right; right.
Qed.

Lemma fold_chunk_step_good (rest : list string) :
  forall (chunks : list string) (buffer : string),
    (forall sentence, In sentence rest -> In sentence sentences) ->
    Forall good_chunk chunks -> good_buffer buffer ->
    Forall good_chunk (fst (fold_left (chunk_step maxSize) rest (chunks, buffer))) /\
    good_buffer (snd (fold_left (chunk_step maxSize) rest (chunks, buffer))).
Proof.
  induction rest as [|sentence rest IH]; intros chunks buffer Hin Hc Hb.
  - now split.
  - cbn [fold_left].
    destruct (chunk_step_good sentence Hc Hb (Hin sentence (or_introl eq_refl))) as [Hc' Hb'].
    destruct (chunk_step maxSize (chunks, buffer) sentence) as [chunks' buffer'].
    apply IH; auto. intros s Hs. apply Hin. now right.
Qed.

End ChunkBound.

(** X27.  How far C2 is missed: a chunk is at most two code units above
    [maxSize], the separator the flush test leaves out, unless it is a single
    sentence, trimmed. *)
Lemma chunkText_bound (text : string) (maxSize : Z) (chunk : string) :
  In chunk (chunkText text maxSize) ->
  (Z.of_nat (String.length chunk) <= maxSize + 2)%Z \/
  exists sentence, In sentence (sentences_of text) /\ chunk = JS.trim sentence.
Proof.
  unfold chunkText.
  destruct (@fold_chunk_step_good maxSize (sentences_of text) (sentences_of text) [] "")
    as [Hc Hb]; auto.
  destruct (fold_left (chunk_step maxSize) (sentences_of text) ([], "")) as [chunks buffer].
  cbn [fst snd] in Hc, Hb.
  rewrite Forall_forall in Hc.
  destruct (JS.truthy buffer) eqn:Ht; intros Hin.
  - apply in_app_or in Hin. destruct Hin as [Hin|[<-|[]]]; [now apply Hc|].
    now apply (@good_buffer_flushed maxSize (sentences_of text) buffer Hb).
  - now apply Hc.
Qed.

(** ** Vector store *)

(** C3, as the code has it: once the buffer exists, [storeEmbedding] appends
    whatever vector it is given, of any length, records its offset and
    leaves the established dimension as it is. *)
Theorem storeEmbedding_appends (s : Memflix) (chunkId : string) (embedding buffer : vector) :
  embeddings s = Some buffer ->
  embeddings (storeEmbedding chunkId embedding s) = Some (buffer ++ map JS.fround embedding) /\
  embeddingIndex (storeEmbedding chunkId embedding s)
    = JS.map_set String.eqb chunkId (List.length buffer) (embeddingIndex s) /\
  embeddingDim (config (storeEmbedding chunkId embedding s)) = embeddingDim (config s) /\
  index (storeEmbedding chunkId embedding s) = index s.
Proof.
  intros H. unfold storeEmbedding. rewrite H. simpl. repeat split.
Qed.

Lemma storeEmbedding_appends_witness :
  embeddingDim (config (storeEmbedding "b" Demo.v384 Demo.s300)) = 300.
Proof.
  assert (H : embeddings Demo.s300 = Some (map JS.fround Demo.v300))
    by (vm_compute; reflexivity).
  destruct (@storeEmbedding_appends Demo.s300 "b" Demo.v384 _ H) as (_ & _ & Hdim & _).
  rewrite Hdim. vm_compute. reflexivity.
Defined.

(** C3 as stated fails: after a vector of length 300, one of length 384 is
    stored without any error, and both the buffer and the offsets change. *)
Lemma storeEmbedding_other_length_is_stored :
  embeddingDim (config Demo.s300) = 300 /\
  option_map (@List.length _) (embeddings Demo.s300) = Some 300 /\
  embeddingIndex Demo.s300 = [("a", 0)] /\
  List.length Demo.v384 = 384 /\
  option_map (@List.length _) (embeddings (storeEmbedding "b" Demo.v384 Demo.s300)) = Some 684 /\
  embeddingIndex (storeEmbedding "b" Demo.v384 Demo.s300) = [("a", 0); ("b", 300)] /\
  embeddings (storeEmbedding "b" Demo.v384 Demo.s300) <> embeddings Demo.s300 /\
  embeddingIndex (storeEmbedding "b" Demo.v384 Demo.s300) <> embeddingIndex Demo.s300.
Proof.
  repeat split; try (vm_compute; reflexivity).
  - intros H. apply (f_equal (option_map (@List.length _))) in H.
    vm_compute in H. discriminate H.
  - vm_compute. discriminate.
Qed.

(** ** The run time: sorting, slicing and traversals *)

Section SortFacts.

Variable A : Type.
Variable before : A -> A -> bool.

(** [before x y] plays the part of [after]: the comparator asks for [x] to be
    placed after [y]. *)

Lemma insert_perm (x : A) (l : list A) : Permutation (JS.insert before x l) (x :: l).
Proof.
  induction l as [|y l IH]; simpl.
  - apply Permutation_refl.
  - destruct (before x y).
    + eapply perm_trans; [apply perm_skip, IH | apply perm_swap].
    + apply Permutation_refl.
Qed.

Lemma sort_perm (l : list A) : Permutation (JS.sort before l) l.
Proof.
  induction l as [|x l IH]; simpl.
  - apply perm_nil.
  - eapply perm_trans; [apply insert_perm | apply perm_skip, IH].
Qed.

Lemma sort_length (l : list A) : List.length (JS.sort before l) = List.length l.
Proof. apply Permutation_length, sort_perm. Qed.

(** The items on which the comparator is consistent. *)
Variable P : A -> Prop.
Hypothesis asym : forall x y, P x -> P y -> before x y = true -> before y x = false.
Hypothesis negtrans :
  forall x y z, P x -> P y -> P z ->
                before x y = true -> before x z = true \/ before z y = true.

Local Abbreviation fine := (fun x y : A => before x y = false).

Lemma insert_sorted (x : A) (l : list A) :
  P x -> Forall P l ->
  StronglySorted fine l -> StronglySorted fine (JS.insert before x l).
Proof.
  intros Px Pl Hs. induction Hs as [|y l Hs IH Hy]; simpl.
  - constructor; constructor.
  - inversion Pl as [|? ? Py Pl']; subst.
    destruct (before x y) eqn:Hxy.
    + constructor; [now apply IH|].
      apply Forall_forall. intros z Hz.
      apply (Permutation_in _ (insert_perm x l)) in Hz. destruct Hz as [<-|Hz].
      * now apply asym.
      * rewrite Forall_forall in Hy. now apply Hy.
    + constructor; [now constructor|].
      constructor; [exact Hxy|].
      apply Forall_forall. intros z Hz.
      destruct (before x z) eqn:Hxz; [|reflexivity].
      rewrite Forall_forall in Hy, Pl'.
      destruct (negtrans Px (Pl' z Hz) Py Hxz) as [H|H].
      * congruence.
      * specialize (Hy z Hz). simpl in Hy. congruence.
Qed.

Lemma sort_sorted (l : list A) : Forall P l -> StronglySorted fine (JS.sort before l).
Proof.
  induction l as [|x l IH]; simpl; intros Pl.
  - constructor.
  - inversion Pl; subst. apply insert_sorted; auto.
    apply Forall_forall. intros z Hz.
    apply (Permutation_in _ (sort_perm l)) in Hz.
    rewrite Forall_forall in H2. now apply H2.
Qed.

Local Abbreviation level := (JS.unordered before).

Lemma insert_stable (z x : A) (l : list A) :
  P z -> P x -> Forall P l ->
  filter (level z) (JS.insert before x l) = filter (level z) (x :: l).
Proof.
  intros Pz Px Pl. induction l as [|y l IH].
  - reflexivity.
  - inversion Pl as [|? ? Py Pl']; subst. specialize (IH Pl').
    cbn [JS.insert]. destruct (before x y) eqn:Hxy; [|reflexivity].
    cbn [filter] in *. rewrite IH.
    destruct (level z x) eqn:Hzx, (level z y) eqn:Hzy; try reflexivity.
    exfalso. unfold JS.unordered in Hzx, Hzy.
    apply andb_true_iff in Hzx, Hzy.
    destruct Hzx as [_ Hxz], Hzy as [Hzy _].
    apply negb_true_iff in Hxz, Hzy.
    destruct (negtrans Px Py Pz Hxy); congruence.
Qed.

Lemma sort_stable (z : A) (l : list A) :
  P z -> Forall P l -> filter (level z) (JS.sort before l) = filter (level z) l.
Proof.
  intros Pz. induction l as [|x l IH]; intros Pl.
  - reflexivity.
  - inversion Pl as [|? ? Px Pl']; subst. cbn [JS.sort fold_right].
    rewrite insert_stable; auto.
    + cbn [filter]. fold (JS.sort before l). rewrite (IH Pl'). reflexivity.
    + apply Forall_forall. intros y Hy.
      apply (Permutation_in _ (sort_perm l)) in Hy.
      rewrite Forall_forall in Pl'. now apply Pl'.
Qed.

End SortFacts.

Lemma slice_from_0 (A : Type) (l : list A) (limit : Z) :
  JS.slice l 0 limit = firstn (JS.rel_index (List.length l) limit) l.
Proof.
  unfold JS.slice. change (JS.rel_index (List.length l) 0) with (Nat.min 0 (List.length l)).
  simpl. now rewrite Nat.sub_0_r.
Qed.

Lemma rel_index_le (len : nat) (k : Z) : JS.rel_index len k <= len.
Proof. unfold JS.rel_index. destruct (k <? 0)%Z eqn:E; lia. Qed.

Section TraverseFacts.

Variables A B : Type.
Variable f : A -> JS.completion B.

Lemma traverse_total (l : list A) :
  (forall x, In x l -> exists y, f x = JS.Return y) ->
  exists ys, traverse f l = JS.Return ys.
Proof.
  induction l as [|x l IH]; simpl; intros H.
  - now exists [].
  - destruct (H x (or_introl eq_refl)) as [y ->].
    destruct IH as [ys ->]; [intros; apply H; now right|].
    now exists (y :: ys).
Qed.

Lemma traverse_Forall2 (l : list A) (ys : list B) :
  traverse f l = JS.Return ys -> Forall2 (fun x y => f x = JS.Return y) l ys.
Proof.
  revert ys. induction l as [|x l IH]; simpl; intros ys H.
  - injection H as <-. constructor.
  - destruct (f x) eqn:Hx; [|discriminate].
    destruct (traverse f l) eqn:Hl; [|discriminate].
    injection H as <-. constructor; auto.
Qed.

Lemma traverse_length (l : list A) (ys : list B) :
  traverse f l = JS.Return ys -> List.length ys = List.length l.
Proof.
  intros H. apply traverse_Forall2 in H. symmetry. eapply Forall2_length, H.
Qed.

Lemma traverse_firstn (n : nat) (l : list A) (ys : list B) :
  traverse f l = JS.Return ys -> traverse f (firstn n l) = JS.Return (firstn n ys).
Proof.
  revert n ys. induction l as [|x l IH]; simpl; intros n ys H.
  - injection H as <-. now destruct n.
  - destruct (f x) eqn:Hx; [|discriminate].
    destruct (traverse f l) eqn:Hl; [|discriminate].
    injection H as <-. destruct n; simpl; [reflexivity|].
    rewrite Hx. now rewrite (IH n _ eq_refl).
Qed.

End TraverseFacts.

(** ** Numbers: the order behind the comparator *)

Section NumberOrder.

Local Open Scope Z_scope.

Lemma emin_val : emin JS.prec JS.emax = -1074.
Proof. reflexivity. Qed.

Lemma fexp_ge (k : Z) : -1074 <= fexp JS.prec JS.emax k.
Proof. unfold fexp. rewrite emin_val. lia. Qed.

Lemma shr_1_lower (mrs : shr_record) (k : Z) :
  2 * k <= shr_m mrs -> k <= shr_m (shr_1 mrs).
Proof.
  destruct mrs as [m r s]. cbn [shr_m shr_1].
  destruct m as [|[p|p|]|[p|p|]]; cbn [shr_m]; lia.
Qed.

Lemma iter_shr_1_lower (p : positive) :
  forall (mrs : shr_record) (k : Z),
    2 ^ Zpos p * k <= shr_m mrs -> k <= shr_m (iter_pos shr_1 p mrs).
Proof.
  induction p as [p IH|p IH|]; intros mrs k H; simpl.
  - apply IH, IH, shr_1_lower.
    replace (Z.pos p~1) with (Z.pos p + Z.pos p + 1) in H by lia.
    rewrite !Z.pow_add_r, Z.pow_1_r in H by lia. lia.
  - apply IH, IH.
    replace (Z.pos p~0) with (Z.pos p + Z.pos p) in H by lia.
    rewrite Z.pow_add_r in H by lia. lia.
  - apply shr_1_lower. now rewrite Z.pow_1_r in H.
Qed.

Lemma digits2_lower (m : positive) : 2 ^ (Zpos (digits2_pos m) - 1) <= Zpos m.
Proof.
  induction m as [m IH|m IH|]; simpl digits2_pos.
  - rewrite Pos2Z.inj_succ. replace (Z.succ (Zpos (digits2_pos m)) - 1)
      with (Z.succ (Zpos (digits2_pos m) - 1)) by lia.
    rewrite Z.pow_succ_r by lia. lia.
  - rewrite Pos2Z.inj_succ. replace (Z.succ (Zpos (digits2_pos m)) - 1)
      with (Z.succ (Zpos (digits2_pos m) - 1)) by lia.
    rewrite Z.pow_succ_r by lia. lia.
  - simpl. lia.
Qed.

Lemma shr_record_of_loc_m (m : Z) (l : location) : shr_m (shr_record_of_loc m l) = m.
Proof. destruct l as [|[]]; reflexivity. Qed.

Lemma shr_fexp_exponent (m e : Z) (l : location) :
  -1074 <= snd (shr_fexp JS.prec JS.emax m e l).
Proof.
  unfold shr_fexp, shr.
  pose proof (fexp_ge (Zdigits2 m + e)).
  destruct (fexp JS.prec JS.emax (Zdigits2 m + e) - e) eqn:E; simpl; lia.
Qed.

Lemma shr_fexp_positive (m : positive) (e : Z) (l : location) :
  -1074 <= e -> 0 < shr_m (fst (shr_fexp JS.prec JS.emax (Zpos m) e l)).
Proof.
  intros He. unfold shr_fexp, shr.
  destruct (fexp JS.prec JS.emax (Zdigits2 (Zpos m) + e) - e) as [|q|q] eqn:E; simpl fst;
    try (rewrite shr_record_of_loc_m; lia).
  assert (1 <= shr_m (iter_pos shr_1 q (shr_record_of_loc (Zpos m) l))); [|lia].
  apply iter_shr_1_lower. rewrite shr_record_of_loc_m, Z.mul_1_r.
  eapply Z.le_trans; [|apply digits2_lower].
  apply Z.pow_le_mono_r; [lia|].
  unfold fexp, Zdigits2 in E. rewrite emin_val in E. unfold JS.prec in E. lia.
Qed.

Lemma round_nearest_even_ge (m : Z) (l : location) : m <= round_nearest_even m l.
Proof. destruct l as [|[]]; simpl; try lia. destruct (Z.even m); lia. Qed.

Lemma binary_round_aux_exponent (s : bool) (m e : Z) (l : location) (s' : bool)
      (m' : positive) (e' : Z) :
  binary_round_aux JS.prec JS.emax s m e l = S754_finite s' m' e' -> -1074 <= e'.
Proof.
  unfold binary_round_aux.
  destruct (shr_fexp JS.prec JS.emax m e l) as [mrs1 e1].
  pose proof (shr_fexp_exponent (round_nearest_even (shr_m mrs1) (loc_of_shr_record mrs1))
                e1 loc_Exact) as H.
  destruct (shr_fexp JS.prec JS.emax _ e1 loc_Exact) as [mrs2 e2]. simpl in H.
  destruct (shr_m mrs2); try discriminate.
  destruct (e2 <=? JS.emax - JS.prec); [|discriminate].
  intros Heq. injection Heq as _ _ <-. exact H.
Qed.

Lemma binary_round_aux_keeps_sign (s : bool) (m : positive) (e : Z) (l : location) :
  -1074 <= e ->
  (exists m' e', binary_round_aux JS.prec JS.emax s (Zpos m) e l = S754_finite s m' e') \/
  binary_round_aux JS.prec JS.emax s (Zpos m) e l = S754_infinity s.
Proof.
  intros He. unfold binary_round_aux.
  pose proof (@shr_fexp_positive m e l He) as Hpos.
  pose proof (shr_fexp_exponent (Zpos m) e l) as Hexp.
  destruct (shr_fexp JS.prec JS.emax (Zpos m) e l) as [mrs1 e1]. simpl in Hpos, Hexp.
  pose proof (round_nearest_even_ge (shr_m mrs1) (loc_of_shr_record mrs1)) as Hr.
  destruct (round_nearest_even (shr_m mrs1) (loc_of_shr_record mrs1)) as [|m1|m1]; try lia.
  pose proof (@shr_fexp_positive m1 e1 loc_Exact Hexp) as Hpos2.
  destruct (shr_fexp JS.prec JS.emax (Zpos m1) e1 loc_Exact) as [mrs2 e2]. simpl in Hpos2.
  destruct (shr_m mrs2) as [|m2|m2]; try lia.
  destruct (e2 <=? JS.emax - JS.prec); eauto.
Qed.

Lemma iter_xO_val (d : positive) (m : positive) :
  Zpos (Pos.iter xO m d) = Zpos m * 2 ^ Zpos d.
Proof.
  induction d as [|d IH] using Pos.peano_ind.
  - simpl. lia.
  - rewrite Pos.iter_succ, Pos2Z.inj_succ, Z.pow_succ_r by lia.
    rewrite Pos2Z.inj_xO, IH. lia.
Qed.

Lemma shl_align_val (m : positive) (e e' : Z) :
  e' <= e -> Zpos (fst (shl_align m e e')) = Zpos m * 2 ^ (e - e').
Proof.
  intros H. unfold shl_align.
  destruct (e' - e) as [|d|d] eqn:E; simpl fst.
  - replace (e - e') with 0 by lia. simpl. lia.
  - lia.
  - rewrite iter_xO_val. f_equal. f_equal. lia.
Qed.

Lemma shl_align_exponent (m : positive) (e e' : Z) :
  -1074 <= e -> -1074 <= e' -> -1074 <= snd (shl_align m e e').
Proof.
  intros H H'. unfold shl_align. destruct (e' - e); simpl; lia.
Qed.

Lemma binary_round_keeps_sign (s : bool) (m : positive) (e : Z) :
  -1074 <= e ->
  (exists m' e', binary_round JS.prec JS.emax s m e = S754_finite s m' e') \/
  binary_round JS.prec JS.emax s m e = S754_infinity s.
Proof.
  intros He. unfold binary_round.
  pose proof (@shl_align_exponent m e (fexp JS.prec JS.emax (Zpos (digits2_pos m) + e)) He
                (fexp_ge _)) as H.
  destruct (shl_align m e (fexp JS.prec JS.emax (Zpos (digits2_pos m) + e))) as [mz ez].
  now apply binary_round_aux_keeps_sign.
Qed.

Lemma gt0_normalize (D e : Z) :
  -1074 <= e -> JS.gt0 (binary_normalize JS.prec JS.emax D e false) = (0 <? D).
Proof.
  intros He. unfold binary_normalize. destruct D as [|p|p].
  - reflexivity.
  - destruct (@binary_round_keeps_sign false p e He) as [(m' & e' & ->)| ->]; reflexivity.
  - destruct (@binary_round_keeps_sign true p e He) as [(m' & e' & ->)| ->]; reflexivity.
Qed.

Lemma sub_finite_sign (sx sy : bool) (mx my : positive) (ex ey : Z) :
  -1074 <= ex -> -1074 <= ey ->
  JS.gt0 (JS.sub (S754_finite sy my ey) (S754_finite sx mx ex))
  = (JS.scaled sx mx ex <? JS.scaled sy my ey).
Proof.
  intros Hx Hy. unfold JS.sub. cbn [SFsub].
  rewrite gt0_normalize by lia.
  pose proof (@shl_align_val mx ex (Z.min ey ex) ltac:(lia)) as Vx.
  pose proof (@shl_align_val my ey (Z.min ey ex) ltac:(lia)) as Vy.
  set (ez := Z.min ey ex) in *.
  set (ax := fst (shl_align mx ex ez)) in *.
  set (ay := fst (shl_align my ey ez)) in *.
  unfold JS.scaled.
  replace (ex + 1074) with ((ex - ez) + (ez + 1074)) by lia.
  replace (ey + 1074) with ((ey - ez) + (ez + 1074)) by lia.
  rewrite (Z.pow_add_r 2 (ex - ez)), (Z.pow_add_r 2 (ey - ez)) by lia.
  assert (Hp : 0 < 2 ^ (ez + 1074)) by (apply Z.pow_pos_nonneg; lia).
  assert (Ex : cond_Zopp sx (Zpos mx) * (2 ^ (ex - ez) * 2 ^ (ez + 1074))
               = cond_Zopp sx (Zpos ax) * 2 ^ (ez + 1074)).
  { unfold cond_Zopp. destruct sx; rewrite Vx; ring. }
  assert (Ey : cond_Zopp sy (Zpos my) * (2 ^ (ey - ez) * 2 ^ (ez + 1074))
               = cond_Zopp sy (Zpos ay) * 2 ^ (ez + 1074)).
  { unfold cond_Zopp. destruct sy; rewrite Vy; ring. }
  rewrite Ex, Ey.
  generalize (cond_Zopp sx (Zpos ax)) (cond_Zopp sy (Zpos ay)) (2 ^ (ez + 1074)) Hp.
  intros a b c Hc.
  destruct (0 <? b - a) eqn:E1, (a * c <? b * c) eqn:E2; try reflexivity.
  - apply Z.ltb_lt in E1. apply Z.ltb_ge in E2. nia.
  - apply Z.ltb_ge in E1. apply Z.ltb_lt in E2. nia.
Qed.

Lemma scaled_sign (s : bool) (m : positive) (e : Z) :
  -1074 <= e ->
  (0 <? JS.scaled s m e) = negb s /\ (JS.scaled s m e <? 0) = s.
Proof.
  intros He. unfold JS.scaled.
  assert (Hp : 0 < 2 ^ (e + 1074)) by (apply Z.pow_pos_nonneg; lia).
  destruct s; cbn [cond_Zopp negb]; split.
  - apply Z.ltb_ge. nia.
  - apply Z.ltb_lt. nia.
  - apply Z.ltb_lt. nia.
  - apply Z.ltb_ge. nia.
Qed.

(** The comparator of [search] asks for [a] after [b] exactly when the score
    of [b] lies above the score of [a]. *)
Lemma gt0_sub (x y : JS.number) :
  JS.ranged x = true -> JS.ranged y = true ->
  JS.gt0 (JS.sub y x) = JS.below (JS.place x) (JS.place y).
Proof.
  destruct x as [sx|sx| |sx mx ex], y as [sy|sy| |sy my ey]; cbn [JS.ranged];
    intros Hx Hy; try discriminate;
    try (destruct sx; destruct sy; reflexivity);
    try (destruct sx; reflexivity); try (destruct sy; reflexivity).
  - apply Z.leb_le in Hy. destruct (scaled_sign sy my Hy) as [H _].
    destruct sx; unfold JS.below; cbn; rewrite H; now destruct sy.
  - apply Z.leb_le in Hx. destruct (scaled_sign sx mx Hx) as [_ H].
    destruct sy; unfold JS.below; cbn; rewrite H; now destruct sx.
  - apply Z.leb_le in Hx, Hy. rewrite sub_finite_sign by assumption. reflexivity.
Qed.

Lemma below_asym (p q : Z * Z) : JS.below p q = true -> JS.below q p = false.
Proof.
  unfold JS.below. destruct p as [a b], q as [c d]; cbn [fst snd].
  destruct (Z.ltb_spec a c), (Z.eqb_spec a c), (Z.ltb_spec b d),
    (Z.ltb_spec c a), (Z.eqb_spec c a), (Z.ltb_spec d b); cbn; intros; try reflexivity;
    try discriminate; lia.
Qed.

Lemma below_negtrans (p q r : Z * Z) :
  JS.below p q = true -> JS.below p r = true \/ JS.below r q = true.
Proof.
  unfold JS.below. destruct p as [a b], q as [c d], r as [e f]; cbn [fst snd].
  destruct (Z.ltb_spec a c), (Z.eqb_spec a c), (Z.ltb_spec b d),
    (Z.ltb_spec a e), (Z.eqb_spec a e), (Z.ltb_spec b f),
    (Z.ltb_spec e c), (Z.eqb_spec e c), (Z.ltb_spec f d); cbn; intros;
    try discriminate; try (left; reflexivity); try (right; reflexivity); lia.
Qed.

Lemma div_ranged (x y : JS.number) :
  JS.is_nan (JS.div x y) = false -> JS.ranged (JS.div x y) = true.
Proof.
  destruct (JS.div x y) as [s|s| |s m e] eqn:E; try reflexivity; try discriminate.
  intros _. cbn [JS.ranged]. apply Z.leb_le.
  unfold JS.div in E.
  destruct x as [sx|sx| |sx mx ex], y as [sy|sy| |sy my ey]; try discriminate E.
  cbn [SFdiv] in E.
  destruct (SFdiv_core_binary JS.prec JS.emax (Z.pos mx) ex (Z.pos my) ey) as [[mz ez] lz].
  eapply binary_round_aux_exponent, E.
Qed.

End NumberOrder.

(** ** Search *)

Lemma candidates_incl (s : Memflix) (filter : option (JS.json -> bool)) (e : JS.value * JS.json) :
  In e (candidates s filter) -> In e (index s).
Proof.
  unfold candidates, JS.map_entries. destruct filter as [f|]; [|auto].
  intros H. apply filter_In in H. tauto.
Qed.

Lemma getEmbedding_wf (s : Memflix) (chunkId : JS.value) :
  wf s -> exists r, getEmbedding s chunkId = JS.Return r.
Proof.
  intros [Hstore _]. unfold getEmbedding.
  destruct (offset_of s chunkId) as [offset|] eqn:Hoff; [|eauto].
  destruct (embeddings s) as [buffer|]; [eauto|].
  exfalso. unfold offset_of in Hoff. rewrite (Hstore eq_refl) in Hoff.
  destruct chunkId as [[]|]; discriminate Hoff.
Qed.

Lemma score_wf (s : Memflix) (queryVector : vector) (e : JS.value * JS.json) :
  wf s -> exists item, score s queryVector e = JS.Return item /\ Item.chunk item = snd e.
Proof.
  intros H. unfold score. destruct (getEmbedding_wf (fst e) H) as [r ->]. eauto.
Qed.

Lemma similarities_wf (s : Memflix) (queryVector : vector) (filter : option (JS.json -> bool)) :
  wf s ->
  exists sims,
    similarities s queryVector filter = JS.Return sims /\
    List.length sims = List.length (candidates s filter) /\
    Forall (fun item => is_null (Item.chunk item) = false) sims.
Proof.
  intros H. unfold similarities.
  destruct (traverse_total (score s queryVector) (candidates s filter)) as [sims Hs].
  { intros e _. destruct (score_wf queryVector e H) as [item [Hi _]]. eauto. }
  exists sims. split; [exact Hs|]. split; [eapply traverse_length, Hs|].
  apply traverse_Forall2 in Hs. destruct H as [_ Hidx].
  rewrite Forall_forall in Hidx.
  assert (Hc : Forall (fun e => is_null (snd e) = false) (candidates s filter)).
  { apply Forall_forall. intros e He. apply Hidx. eapply candidates_incl, He. }
  clear Hidx. induction Hs as [|e item l sims' He Hs IH]; constructor.
  - inversion Hc; subst. unfold score in He.
    destruct (getEmbedding s (fst e)); [|discriminate]. injection He as <-. assumption.
  - apply IH. now inversion Hc.
Qed.

Lemma hit_total (item : Item.t) :
  is_null (Item.chunk item) = false -> exists h, hit item = JS.Return h.
Proof.
  unfold hit. destruct (Item.chunk item); simpl; intros H; try discriminate H; eauto.
Qed.

Lemma rank_with_embedder (b : bool) (s : Memflix) (queryVector : vector) (limit : Z)
      (filter : option (JS.json -> bool)) :
  rank (with_embedder b s) queryVector limit filter = rank s queryVector limit filter.
Proof. reflexivity. Qed.

Section SearchFacts.

Variables Frame Video : Type.
Variable env : Env Frame Video.

Lemma initialize_cases (st st1 : State Video) (c : JS.completion unit) :
  initialize env st = (c, st1) ->
  st1 = st \/ st1 = {| this := with_embedder true (this st); world := world st |}.
Proof.
  unfold initialize, bind, get_this, ret, throw, lift, update_this.
  destruct (useOllama (this st)).
  - destruct (ollama_tags env); intros H; injection H as _ <-; now left.
  - destruct (embedder (this st)).
    + intros H; injection H as _ <-; now left.
    + destruct (load_pipeline env); intros H; injection H as _ <-; [now right|now left].
Qed.

Lemma generateEmbedding_state (st st2 : State Video) (text : string)
      (c : JS.completion vector) :
  generateEmbedding env text st = (c, st2) -> st2 = st.
Proof.
  unfold generateEmbedding, bind, get_this, throw, lift.
  destruct (useOllama (this st)); [|destruct (embedder (this st))];
    intros H; injection H as _ <-; reflexivity.
Qed.

Lemma search_eq (st st1 st2 : State Video) (query : string) (queryVector : vector)
      (limit : Z) (filter : option (JS.json -> bool)) :
  initialize env st = (JS.Return tt, st1) ->
  generateEmbedding env query st1 = (JS.Return queryVector, st2) ->
  search env query limit filter st = (rank (this st) queryVector limit filter, st2).
Proof.
  intros Hinit Hemb. unfold search, bind. rewrite Hinit, Hemb.
  unfold get_this, lift. f_equal.
  rewrite (generateEmbedding_state _ _ Hemb).
  destruct (initialize_cases _ Hinit) as [-> | ->]; [reflexivity|].
  apply rank_with_embedder.
Qed.

End SearchFacts.

Lemma rank_wf (s : Memflix) (queryVector : vector) (filter : option (JS.json -> bool)) :
  wf s ->
  exists sims all_hits,
    similarities s queryVector filter = JS.Return sims /\
    traverse hit (JS.sort after sims) = JS.Return all_hits /\
    List.length all_hits = List.length (candidates s filter) /\
    forall limit,
      rank s queryVector limit filter
      = JS.Return (firstn (JS.rel_index (List.length all_hits) limit) all_hits).
Proof.
  intros H. destruct (similarities_wf queryVector filter H) as (sims & Hs & Hlen & Hnull).
  destruct (traverse_total hit (JS.sort after sims)) as [all_hits Hall].
  { intros item Hin. apply hit_total.
    apply (Permutation_in _ (sort_perm after sims)) in Hin.
    rewrite Forall_forall in Hnull. now apply Hnull. }
  exists sims, all_hits. repeat split; try assumption.
  - rewrite (traverse_length _ _ Hall), sort_length. exact Hlen.
  - intros limit. unfold rank. rewrite Hs, slice_from_0.
    rewrite (traverse_length _ _ Hall).
    now apply traverse_firstn.
Qed.

Lemma after_below (x y : Item.t) :
  JS.ranged (Item.similarity x) = true -> JS.ranged (Item.similarity y) = true ->
  after x y = JS.below (JS.place (Item.similarity x)) (JS.place (Item.similarity y)).
Proof. intros Hx Hy. unfold after, comparator. now apply gt0_sub. Qed.

Lemma consistent_ranged (items : list Item.t) :
  Forall (fun item => JS.ranged (Item.similarity item) = true) items -> consistent items.
Proof.
  intros H. rewrite Forall_forall in H. split.
  - intros x y Hx Hy. rewrite !after_below by auto. apply below_asym.
  - intros x y z Hx Hy Hz. rewrite !after_below by auto. apply below_negtrans.
Qed.

Lemma similarities_ranged (s : Memflix) (queryVector : vector)
      (filter : option (JS.json -> bool)) (sims : list Item.t) :
  similarities s queryVector filter = JS.Return sims ->
  Forall (fun item => JS.is_nan (Item.similarity item) = false) sims ->
  Forall (fun item => JS.ranged (Item.similarity item) = true) sims.
Proof.
  unfold similarities. intros Hs. apply traverse_Forall2 in Hs.
  induction Hs as [|entry item entries sims Hscore _ IH]; intros Hn; constructor.
  - inversion Hn as [|? ? Hitem _]; subst. unfold score in Hscore.
    destruct (getEmbedding s (fst entry)) as [[embedding|]|]; try discriminate Hscore;
      injection Hscore as <-; cbn [Item.similarity] in *.
    + rewrite cosineSimilarity_unfold in *. now apply div_ranged.
    + reflexivity.
  - apply IH. now inversion Hn.
Qed.

Lemma StronglySorted_weaken (A : Type) (R R' : A -> A -> Prop) (l : list A) :
  (forall x y, In x l -> In y l -> R x y -> R' x y) ->
  StronglySorted R l -> StronglySorted R' l.
Proof.
  intros H Hs. induction Hs as [|x l Hs IH Hx]; constructor.
  - apply IH. intros a b Ha Hb. apply H; now right.
  - rewrite Forall_forall in *. intros y Hy. apply H; [now left|now right|now apply Hx].
Qed.

(** C4, as the code has it.  When no candidate has the score [NaN],
    [search] returns the first [limit] of the candidates ranked in descending
    order of score (no later one has a score above the score of an earlier
    one), with candidates the comparator does not order, those of equal
    score, left in insertion order.  For [[1,0]], [[0,1]], [[1,0]] stored
    under [a], [b], [c] the query [[1,0]] with limit 2 returns [a] then [c],
    with scores 1, and not [b], whose score is 0. *)
Theorem search_ranking :
  (forall (Frame Video : Type) (env : Env Frame Video) (st st1 st2 : State Video)
          (query : string) (queryVector : vector) (limit : Z)
          (filter : option (JS.json -> bool)),
      wf (this st) ->
      initialize env st = (JS.Return tt, st1) ->
      generateEmbedding env query st1 = (JS.Return queryVector, st2) ->
      exists sims ranked hits,
        similarities (this st) queryVector filter = JS.Return sims /\
        search env query limit filter st = (JS.Return hits, st2) /\
        traverse hit (JS.slice ranked 0 limit) = JS.Return hits /\
        Permutation ranked sims /\
        (Forall (fun item => JS.is_nan (Item.similarity item) = false) sims ->
         StronglySorted
           (fun x y => JS.below (JS.place (Item.similarity x))
                                (JS.place (Item.similarity y)) = false) ranked /\
         forall z, In z sims -> List.filter (tie z) ranked = List.filter (tie z) sims)) /\
  similarities Demo.abc [Demo.one; Demo.nought] None
  = JS.Return [Demo.item "a" "alpha" Demo.one; Demo.item "b" "beta" JS.zero;
               Demo.item "c" "gamma" Demo.one] /\
  fst (search Demo.env "east" 2 None (Demo.start Demo.abc))
  = JS.Return [Demo.found "alpha" Demo.one; Demo.found "gamma" Demo.one].
Proof.
  split; [|split; vm_compute; reflexivity].
  intros Frame Video env st st1 st2 query queryVector limit filter Hwf Hinit Hemb.
  destruct (rank_wf queryVector filter Hwf) as (sims & all_hits & Hs & Hall & _ & Hrank).
  exists sims, (JS.sort after sims),
         (firstn (JS.rel_index (List.length all_hits) limit) all_hits).
  split; [exact Hs|]. split.
  { rewrite (@search_eq _ _ env _ _ _ _ _ limit filter Hinit Hemb). now rewrite Hrank. }
  split.
  { rewrite slice_from_0, <- (traverse_length _ _ Hall). now apply traverse_firstn. }
  split; [apply sort_perm|].
  intros Hnan.
  pose proof (similarities_ranged _ _ _ Hs Hnan) as Hranged.
  destruct (consistent_ranged Hranged) as [Hasym Hneg].
  rewrite Forall_forall in Hranged. split.
  - apply StronglySorted_weaken with (R := fun x y => after x y = false).
    + intros x y Hx Hy Hxy.
      apply (Permutation_in _ (sort_perm after sims)) in Hx, Hy.
      now rewrite <- after_below by auto.
    + apply (@sort_sorted _ after (fun x => In x sims) Hasym Hneg).
      now apply Forall_forall.
  - intros z Hz. apply (@sort_stable _ after (fun x => In x sims) Hneg); auto.
    now apply Forall_forall.
Qed.

Lemma wf_abc : wf Demo.abc.
Proof.
  split.
  - intros H. vm_compute in H. discriminate H.
  - repeat constructor.
Defined.

Lemma search_ranking_witness :
  exists ranked hits,
    search Demo.env "east" 2 None (Demo.start Demo.abc) = (JS.Return hits, Demo.ready Demo.abc) /\
    traverse hit (JS.slice ranked 0 2) = JS.Return hits /\
    StronglySorted
      (fun x y => JS.below (JS.place (Item.similarity x))
                           (JS.place (Item.similarity y)) = false) ranked.
Proof.
  destruct search_ranking as [H _].
  destruct (H _ _ Demo.env (Demo.start Demo.abc) (Demo.ready Demo.abc) (Demo.ready Demo.abc)
              "east" [Demo.one; Demo.nought] 2%Z None wf_abc eq_refl eq_refl)
    as (sims & ranked & hits & Hs & Hsearch & Hhits & _ & Hsorted).
  exists ranked, hits. split; [exact Hsearch|]. split; [exact Hhits|].
  apply Hsorted.
  vm_compute in Hs. injection Hs as <-. repeat constructor.
Defined.

(** C4 as stated fails when a score is [NaN]: with [[1,1]], [[0,0]], [[1,0]]
    stored under [a], [b], [c] and the query [[1,0]], chunk [c] is ranked
    last although its score, 1, is above the score of [a], which is ranked
    first. *)
Lemma search_not_descending_with_NaN :
  fst (search Demo.env "east" 3 None (Demo.start Demo.with_zero_vector))
  = JS.Return [Demo.found "alpha" (cosineSimilarity [Demo.one; Demo.nought] [Demo.one; Demo.one]);
               Demo.found "beta" JS.NaN;
               Demo.found "gamma" Demo.one] /\
  SFltb (cosineSimilarity [Demo.one; Demo.nought] [Demo.one; Demo.one]) Demo.one = true.
Proof.
  split; vm_compute; reflexivity.
Qed.

Lemma hit_prop (item : Item.t) (h : Hit.t) :
  hit item = JS.Return h ->
  Hit.text h = prop (Item.chunk item) "text" /\
  Hit.metadata h = prop (Item.chunk item) "metadata" /\
  Hit.similarity h = Item.similarity item.
Proof.
  unfold hit. destruct (Item.chunk item); cbn [JS.member prop]; intros H;
    try discriminate H; injection H as <-; repeat split.
Qed.






(** ** Decoding *)

Ltac unfold_M :=
  unfold bind, ret, throw, lift, get_this, get_world, update_this, update_world in *.

Lemma with_index_same (s : Memflix) : with_index (index s) s = s.
Proof. now destruct s. Qed.

Lemma world_same (Video : Type) (w : World Video) :
  {| disk := disk w; console := console w ++ [] |} = w.
Proof. destruct w; simpl. now rewrite app_nil_r. Qed.

Section DecodeFacts.

Variables Frame Video : Type.
Variable env : Env Frame Video.

Lemma decode_frame_spec (dir : list (string * Frame)) (frameFile : string) (n : nat)
      (s : Memflix) (w : World Video) :
  exists warnings,
    decode_frame env dir frameFile n {| this := s; world := w |}
    = (JS.Return (n + List.length (recovered env dir [frameFile])),
       {| this := with_index (set_all (recovered env dir [frameFile]) (index s)) s;
          world := {| disk := disk w; console := console w ++ warnings |} |}).
Proof.
  unfold decode_frame, recovered, recover_frame.
  destruct (negb (JS.endsWith frameFile ".png")).
  { exists []. unfold_M. simpl. now rewrite Nat.add_0_r, with_index_same, world_same. }
  destruct (decodeQRFrame env dir frameFile) as [qrData|].
  2:{ exists []. unfold_M. simpl. now rewrite Nat.add_0_r, with_index_same, world_same. }
  destruct (JS.truthy qrData).
  2:{ exists []. unfold_M. simpl. now rewrite Nat.add_0_r, with_index_same, world_same. }
  destruct (JSON_parse env qrData) as [parsed|e].
  2:{ exists [WarnParse frameFile]. unfold_M. simpl.
      now rewrite Nat.add_0_r, with_index_same. }
  destruct (JS.member parsed "id") as [id|e].
  2:{ exists [WarnParse frameFile]. unfold_M. simpl.
      now rewrite Nat.add_0_r, with_index_same. }
  exists []. unfold_M. simpl. now rewrite Nat.add_1_r, world_same.
Qed.

Lemma recovered_cons (dir : list (string * Frame)) (frameFile : string) (rest : list string) :
  recovered env dir (frameFile :: rest)
  = recovered env dir [frameFile] ++ recovered env dir rest.
Proof. simpl. now destruct (recover_frame env dir frameFile). Qed.

Lemma set_all_app (l1 l2 : list (JS.value * JS.json)) (m : JS.Map JS.value JS.json) :
  set_all (l1 ++ l2) m = set_all l2 (set_all l1 m).
Proof. unfold set_all. apply fold_left_app. Qed.

Lemma decode_frames_spec (dir : list (string * Frame)) (frameFiles : list string) :
  forall (n : nat) (s : Memflix) (w : World Video),
  exists warnings,
    decode_frames env dir frameFiles n {| this := s; world := w |}
    = (JS.Return (n + List.length (recovered env dir frameFiles)),
       {| this := with_index (set_all (recovered env dir frameFiles) (index s)) s;
          world := {| disk := disk w; console := console w ++ warnings |} |}).
Proof.
  induction frameFiles as [|frameFile rest IH]; intros n s w.
  - exists []. simpl. unfold ret. now rewrite Nat.add_0_r, with_index_same, world_same.
  - cbn [decode_frames]. unfold bind at 1.
    destruct (decode_frame_spec dir frameFile n s w) as [w1 ->].
    edestruct IH as [w2 ->].
    exists (w1 ++ w2).
    rewrite (recovered_cons dir frameFile rest), set_all_app, length_app, Nat.add_assoc, app_assoc.
    destruct s; reflexivity.
Qed.

(** The store a sidecar file is loaded into. *)
Lemma loadEmbeddings_cases (path : string) (st : State Video) :
  match disk (world st) path with
  | Some (SidecarFile _ data) =>
      loadEmbeddings path st
      = (JS.Return tt,
         {| this := with_store (Some (map JS.fround (sc_embeddings data)))
                      (fold_left (fun m kv => JS.map_set String.eqb (fst kv) (snd kv) m)
                                 (sc_index data) (JS.map_empty _ _))
                      (sc_embeddingDim data) (this st);
            world := world st |})
  | _ => exists e, loadEmbeddings path st = (JS.Throw e, st)
  end.
Proof.
  unfold loadEmbeddings. unfold_M.
  destruct (disk (world st) path) as [[data|v]|]; eauto.
Qed.

Lemma decodeFromVideo_success (st : State Video) (videoPath : string)
      (data : Sidecar) (v : Video) (dir : list (string * Frame)) :
  mkdir env (tempDir env) = JS.Return tt ->
  mkdir env (path_join (tempDir env) "frames") = JS.Return tt ->
  disk (world st) (JS.replace videoPath ".mp4" ".emb") = Some (SidecarFile Video data) ->
  disk (world st) videoPath = Some (VideoFile v) ->
  demux env v = JS.Return dir ->
  rm env (tempDir env) = JS.Return tt ->
  exists warnings,
    decodeFromVideo env videoPath st
    = (JS.Return
         {| Decoded.totalChunks :=
              JS.map_size (set_all (recovered env dir (frameFiles_of dir)) (JS.map_empty _ _)) |},
       decoded_state env st data dir warnings).
Proof.
  intros Htmp Hdir Hside Hvideo Hdemux Hrm.
  pose proof (loadEmbeddings_cases (JS.replace videoPath ".mp4" ".emb") st) as Hload.
  rewrite Hside in Hload.
  unfold decodeFromVideo, createTempDir, cleanup, extractFramesFromVideo.
  unfold bind at 1. unfold bind at 1. unfold lift at 1. rewrite Htmp.
  unfold ret at 1. unfold bind at 1. unfold lift at 1. rewrite Hdir.
  unfold bind at 1. rewrite Hload.
  unfold bind at 1. unfold bind at 1. unfold get_world at 1. cbn [world].
  rewrite Hvideo. unfold lift at 1. rewrite Hdemux.
  unfold bind at 1. unfold update_this at 1. cbn [this world].
  unfold bind at 1.
  fold (frameFiles_of dir).
  edestruct (decode_frames_spec dir (frameFiles_of dir) 0) as [warnings ->].
  exists warnings. unfold_M. rewrite Hrm. cbn. unfold decoded_state.
  rewrite app_assoc. reflexivity.
Qed.

Lemma decodeFromVideo_inv (st st' : State Video) (videoPath : string) (r : Decoded.t) :
  decodeFromVideo env videoPath st = (JS.Return r, st') ->
  exists data v dir,
    mkdir env (tempDir env) = JS.Return tt /\
    mkdir env (path_join (tempDir env) "frames") = JS.Return tt /\
    disk (world st) (JS.replace videoPath ".mp4" ".emb") = Some (SidecarFile Video data) /\
    disk (world st) videoPath = Some (VideoFile v) /\
    demux env v = JS.Return dir /\
    rm env (tempDir env) = JS.Return tt.
Proof.
  pose proof (loadEmbeddings_cases (JS.replace videoPath ".mp4" ".emb") st) as Hload.
  unfold decodeFromVideo, createTempDir, cleanup, extractFramesFromVideo.
  unfold bind at 1. unfold bind at 1. unfold lift at 1.
  destruct (mkdir env (tempDir env)) as [[]|]; [|discriminate].
  unfold ret at 1. unfold bind at 1. unfold lift at 1.
  destruct (mkdir env (path_join (tempDir env) "frames")) as [[]|]; [|discriminate].
  unfold bind at 1.
  destruct (disk (world st) (JS.replace videoPath ".mp4" ".emb")) as [[data|v0]|].
  2,3: destruct Hload as [e ->]; discriminate.
  rewrite Hload.
  unfold bind at 1. unfold bind at 1. unfold get_world at 1. cbn [world].
  destruct (disk (world st) videoPath) as [[data0|v]|]; try discriminate.
  unfold lift at 1. destruct (demux env v) as [dir|] eqn:Hdemux; [|discriminate].
  unfold bind at 1. unfold update_this at 1. cbn [this world].
  unfold bind at 1.
  edestruct (decode_frames_spec dir (JS.sort (fun x y => (y <? x)%string) (map fst dir)) 0)
    as [warnings ->].
  unfold bind at 1. unfold lift at 1.
  destruct (rm env (tempDir env)) as [[]|]; [|discriminate].
  intros _. exists data, v, dir. repeat split. exact Hdemux.
Qed.

End DecodeFacts.

(** *** The index built by setting entries one after the other *)

Lemma map_set_keys (k : JS.value) (v : JS.json) (m : JS.Map JS.value JS.json) (k' : JS.value) :
  In k' (map fst (JS.map_set JS.same_value_zero k v m)) -> In k' (map fst m) \/ k' = k.
Proof.
  induction m as [|[k0 v0] m IH]; simpl.
  - intros [<-|[]]. now right.
  - destruct (JS.same_value_zero k0 k); simpl.
    + intros [<-|H]; auto.
    + intros [<-|H]; auto. destruct (IH H); auto.
Qed.

Lemma map_set_values (k : JS.value) (v : JS.json) (m : JS.Map JS.value JS.json) (v' : JS.json) :
  In v' (map snd (JS.map_set JS.same_value_zero k v m)) -> In v' (map snd m) \/ v' = v.
Proof.
  induction m as [|[k0 v0] m IH]; simpl.
  - intros [<-|[]]. now right.
  - destruct (JS.same_value_zero k0 k); simpl.
    + intros [<-|H]; auto.
    + intros [<-|H]; auto. destruct (IH H); auto.
Qed.

Lemma map_set_size (k : JS.value) (v : JS.json) (m : JS.Map JS.value JS.json) :
  JS.map_size m <= JS.map_size (JS.map_set JS.same_value_zero k v m) <= S (JS.map_size m).
Proof.
  unfold JS.map_size. induction m as [|[k0 v0] m IH]; simpl.
  - lia.
  - destruct (JS.same_value_zero k0 k); simpl; lia.
Qed.

Lemma map_set_new (k : JS.value) (v : JS.json) (m : JS.Map JS.value JS.json) :
  forallb (fun k0 => negb (JS.same_value_zero k0 k)) (map fst m) = true ->
  JS.map_set JS.same_value_zero k v m = m ++ [(k, v)].
Proof.
  induction m as [|[k0 v0] m IH]; simpl; intros H.
  - reflexivity.
  - apply andb_true_iff in H. destruct H as [H0 H].
    apply negb_true_iff in H0. rewrite H0. now rewrite IH.
Qed.

Lemma set_all_keys (entries : list (JS.value * JS.json)) :
  forall (m : JS.Map JS.value JS.json) (k : JS.value),
    In k (map fst (set_all entries m)) -> In k (map fst m) \/ In k (map fst entries).
Proof.
  induction entries as [|[k0 v0] entries IH]; simpl; intros m k H.
  - now left.
  - destruct (IH _ _ H) as [H1|H1]; [|auto].
    destruct (map_set_keys _ _ _ _ H1); auto.
Qed.

Lemma set_all_values (entries : list (JS.value * JS.json)) :
  forall (m : JS.Map JS.value JS.json) (v : JS.json),
    In v (map snd (set_all entries m)) -> In v (map snd m) \/ In v (map snd entries).
Proof.
  induction entries as [|[k0 v0] entries IH]; simpl; intros m v H.
  - now left.
  - destruct (IH _ _ H) as [H1|H1]; [|auto].
    destruct (map_set_values _ _ _ _ H1); auto.
Qed.

Lemma set_all_size (entries : list (JS.value * JS.json)) :
  forall m : JS.Map JS.value JS.json,
    JS.map_size (set_all entries m) <= JS.map_size m + List.length entries.
Proof.
  induction entries as [|[k0 v0] entries IH]; simpl; intros m.
  - lia.
  - specialize (IH (JS.map_set JS.same_value_zero k0 v0 m)).
    pose proof (map_set_size k0 v0 m). lia.
Qed.

Lemma forallb_app_true (A : Type) (p : A -> bool) (l1 l2 : list A) :
  forallb p l1 = true -> forallb p l2 = true -> forallb p (l1 ++ l2) = true.
Proof. intros H1 H2. rewrite forallb_app, H1, H2. reflexivity. Qed.

Lemma set_all_distinct (entries : list (JS.value * JS.json)) :
  forall m : JS.Map JS.value JS.json,
    distinct_keys (map fst entries) = true ->
    (forall k, In k (map fst entries) ->
               forallb (fun k0 => negb (JS.same_value_zero k0 k)) (map fst m) = true) ->
    set_all entries m = m ++ entries.
Proof.
  induction entries as [|[k0 v0] entries IH]; simpl; intros m Hd Hm.
  - now rewrite app_nil_r.
  - apply andb_true_iff in Hd. destruct Hd as [Hk0 Hd].
    unfold set_all in *. simpl.
    rewrite map_set_new by (apply Hm; now left).
    rewrite IH; [now rewrite <- app_assoc|exact Hd|].
    intros k Hk. rewrite map_app. apply forallb_app_true.
    + apply Hm. now right.
    + simpl. rewrite forallb_forall in Hk0. now rewrite (Hk0 k Hk).
Qed.

(** C7.  A decode that succeeds leaves an index built from the frames of
    the video alone, and a vector store read from the sidecar file alone:
    nothing of the index or of the store held before enters the result, and
    every id and every record in the new index was carried by a frame. *)
Theorem decode_replaces :
  forall (Frame Video : Type) (env : Env Frame Video) (st st' : State Video)
         (videoPath : string) (r : Decoded.t),
    decodeFromVideo env videoPath st = (JS.Return r, st') ->
    exists data v dir,
      disk (world st) (JS.replace videoPath ".mp4" ".emb") = Some (SidecarFile Video data) /\
      disk (world st) videoPath = Some (VideoFile v) /\
      demux env v = JS.Return dir /\
      index (this st')
      = set_all (recovered env dir (frameFiles_of dir)) (JS.map_empty _ _) /\
      embeddings (this st') = Some (map JS.fround (sc_embeddings data)) /\
      embeddingIndex (this st')
      = fold_left (fun m kv => JS.map_set String.eqb (fst kv) (snd kv) m)
                  (sc_index data) (JS.map_empty _ _) /\
      embeddingDim (config (this st')) = sc_embeddingDim data /\
      (forall k, In k (JS.map_keys (index (this st'))) ->
                 In k (map fst (recovered env dir (frameFiles_of dir)))) /\
      (forall c, In c (map snd (index (this st'))) ->
                 In c (map snd (recovered env dir (frameFiles_of dir)))).
Proof.
  intros Frame Video env st st' videoPath r H.
  destruct (decodeFromVideo_inv _ _ _ H) as (data & v & dir & Htmp & Hdir & Hs & Hv & Hd & Hrm).
  destruct (decodeFromVideo_success env st videoPath Htmp Hdir Hs Hv Hd Hrm) as [warnings Heq].
  rewrite Heq in H. injection H as _ <-.
  exists data, v, dir. repeat split; try assumption.
  - intros k Hk. unfold JS.map_keys in Hk. cbn in Hk.
    destruct (set_all_keys _ _ _ Hk) as [[]|]; assumption.
  - intros c Hc. cbn in Hc.
    destruct (set_all_values _ _ _ Hc) as [[]|]; assumption.
Qed.

Lemma decode_replaces_witness :
  index (this (snd (decodeFromVideo Demo.env "twice.mp4" Demo.rerun)))
  = [(Some (JS.JStr "a"), Demo.chunk_record "a" "alpha")].
Proof.
  destruct (@decode_replaces _ _ Demo.env Demo.rerun
              (snd (decodeFromVideo Demo.env "twice.mp4" Demo.rerun)) "twice.mp4"
              {| Decoded.totalChunks := 1 |})
    as (data & v & dir & _ & Hv & Hd & Hindex & _).
  - vm_compute. reflexivity.
  - rewrite Hindex. vm_compute in Hv. injection Hv as <-.
    vm_compute in Hd. injection Hd as <-. vm_compute. reflexivity.
Defined.

(** C9, as the code has it.  A decode that succeeds returns the size of the
    rebuilt index.  The number of frames decoded is written to the console;
    the number returned is never above it, and equals it when the ids
    carried by the decoded frames are pairwise different. *)
Theorem decode_totalChunks :
  forall (Frame Video : Type) (env : Env Frame Video) (st st' : State Video)
         (videoPath : string) (r : Decoded.t),
    decodeFromVideo env videoPath st = (JS.Return r, st') ->
    exists v dir warnings,
      disk (world st) videoPath = Some (VideoFile v) /\
      demux env v = JS.Return dir /\
      console (world st')
      = console (world st) ++ warnings
          ++ [LogDecoded (List.length (recovered env dir (frameFiles_of dir)))
                         (List.length (frameFiles_of dir))] /\
      Decoded.totalChunks r = JS.map_size (index (this st')) /\
      Decoded.totalChunks r <= List.length (recovered env dir (frameFiles_of dir)) /\
      (distinct_keys (map fst (recovered env dir (frameFiles_of dir))) = true ->
       Decoded.totalChunks r = List.length (recovered env dir (frameFiles_of dir))).
Proof.
  intros Frame Video env st st' videoPath r H.
  destruct (decodeFromVideo_inv _ _ _ H) as (data & v & dir & Htmp & Hdir & Hs & Hv & Hd & Hrm).
  destruct (decodeFromVideo_success env st videoPath Htmp Hdir Hs Hv Hd Hrm) as [warnings Heq].
  rewrite Heq in H. injection H as <- <-.
  exists v, dir, warnings. repeat split; try assumption.
  - cbn. apply (set_all_size (recovered env dir (frameFiles_of dir)) (JS.map_empty _ _)).
  - intros Hdist. cbn. rewrite set_all_distinct; [reflexivity|exact Hdist|reflexivity].
Qed.

Lemma decode_totalChunks_witness :
  exists r st', decodeFromVideo Demo.env "twice.mp4" Demo.rerun = (JS.Return r, st') /\
                Decoded.totalChunks r = JS.map_size (index (this st')).
Proof.
  exists {| Decoded.totalChunks := 1 |},
         (snd (decodeFromVideo Demo.env "twice.mp4" Demo.rerun)).
  assert (H : decodeFromVideo Demo.env "twice.mp4" Demo.rerun
              = (JS.Return {| Decoded.totalChunks := 1 |},
                 snd (decodeFromVideo Demo.env "twice.mp4" Demo.rerun)))
    by (vm_compute; reflexivity).
  split; [exact H|].
  destruct (decode_totalChunks Demo.env Demo.rerun "twice.mp4" H)
    as (v & dir & warnings & _ & _ & _ & Hsize & _).
  exact Hsize.
Defined.

(** C9 as stated fails on a video in which the frame of one chunk occurs
    twice: both frames are read and parsed, two decoded chunks are counted
    and logged, and the number returned is 1. *)
Lemma decode_counts_duplicate_frames_once :
  fst (decodeFromVideo Demo.env "twice.mp4" Demo.rerun)
  = JS.Return {| Decoded.totalChunks := 1 |} /\
  List.length (recovered Demo.env (Demo.extract [Demo.stringify (Demo.chunk_record "a" "alpha");
                                                  Demo.stringify (Demo.chunk_record "a" "alpha")])
                         (frameFiles_of (Demo.extract
                                           [Demo.stringify (Demo.chunk_record "a" "alpha");
                                            Demo.stringify (Demo.chunk_record "a" "alpha")])))
  = 2 /\
  console (world (snd (decodeFromVideo Demo.env "twice.mp4" Demo.rerun))) = [LogDecoded 2 2].
Proof. repeat split; vm_compute; reflexivity. Qed.

(** C10.  When the sidecar file cannot be loaded, or when it is loaded and
    the frames cannot be extracted, [decodeFromVideo] ends with that error
    and the index is the one held before the call. *)
Theorem decode_failure_keeps_index :
  forall (Frame Video : Type) (env : Env Frame Video) (st : State Video) (videoPath : string),
    mkdir env (tempDir env) = JS.Return tt ->
    mkdir env (path_join (tempDir env) "frames") = JS.Return tt ->
    (forall e st1,
        loadEmbeddings (JS.replace videoPath ".mp4" ".emb") st = (JS.Throw e, st1) ->
        exists st', decodeFromVideo env videoPath st = (JS.Throw e, st') /\
                    index (this st') = index (this st)) /\
    (forall e st1 st2,
        loadEmbeddings (JS.replace videoPath ".mp4" ".emb") st = (JS.Return tt, st1) ->
        extractFramesFromVideo env videoPath st1 = (JS.Throw e, st2) ->
        exists st', decodeFromVideo env videoPath st = (JS.Throw e, st') /\
                    index (this st') = index (this st)).
Proof.
  intros Frame Video env st videoPath Htmp Hdir.
  pose proof (loadEmbeddings_cases (JS.replace videoPath ".mp4" ".emb") st) as Hload.
  split.
  - intros e st1 H. exists st1. split.
    + unfold decodeFromVideo, createTempDir.
      unfold bind at 1. unfold bind at 1. unfold lift at 1. rewrite Htmp.
      unfold ret at 1. unfold bind at 1. unfold lift at 1. rewrite Hdir.
      unfold bind at 1. now rewrite H.
    + destruct (disk (world st) (JS.replace videoPath ".mp4" ".emb")) as [[data|v]|].
      * rewrite Hload in H. discriminate H.
      * destruct Hload as [e' Hload]. rewrite Hload in H. now injection H as _ <-.
      * destruct Hload as [e' Hload]. rewrite Hload in H. now injection H as _ <-.
  - intros e st1 st2 H Hx. exists st2. split.
    + unfold decodeFromVideo, createTempDir.
      unfold bind at 1. unfold bind at 1. unfold lift at 1. rewrite Htmp.
      unfold ret at 1. unfold bind at 1. unfold lift at 1. rewrite Hdir.
      unfold bind at 1. rewrite H. unfold bind at 1. now rewrite Hx.
    + assert (Hst2 : st2 = st1).
      { revert Hx. unfold extractFramesFromVideo. unfold_M.
        destruct (disk (world st1) videoPath) as [[data|v]|];
          intros Hx; now injection Hx as _ <-. }
      subst st2.
      destruct (disk (world st) (JS.replace videoPath ".mp4" ".emb")) as [[data|v]|].
      * rewrite Hload in H. now injection H as <-.
      * destruct Hload as [e' Hload]. rewrite Hload in H. discriminate H.
      * destruct Hload as [e' Hload]. rewrite Hload in H. discriminate H.
Qed.

Lemma decode_failure_keeps_index_witness :
  (exists st', decodeFromVideo Demo.env "absent.mp4" Demo.rerun
               = (JS.Throw (JS.Error "ENOENT: no such file or directory"), st') /\
               index (this st') = index Demo.abc) /\
  (exists st', decodeFromVideo Demo.broken_video "twice.mp4" Demo.rerun
               = (JS.Throw (JS.Error "ffmpeg exited with code 1"), st') /\
               index (this st') = index Demo.abc).
Proof.
  split.
  - destruct (@decode_failure_keeps_index _ _ Demo.env Demo.rerun "absent.mp4"
                eq_refl eq_refl) as [H _].
    apply (H _ Demo.rerun). vm_compute. reflexivity.
  - destruct (@decode_failure_keeps_index _ _ Demo.broken_video Demo.rerun "twice.mp4"
                eq_refl eq_refl) as [_ H].
    apply (H _ (snd (loadEmbeddings "twice.emb" Demo.rerun))
             (snd (loadEmbeddings "twice.emb" Demo.rerun))).
    + vm_compute. reflexivity.
    + vm_compute. reflexivity.
Defined.

(** ** Empty input, and encoding *)

Lemma chunkText_empty (maxSize : Z) : chunkText "" maxSize = [].
Proof. reflexivity. Qed.

Lemma initialize_store (Frame Video : Type) (env : Env Frame Video) (st st1 : State Video)
      (c : JS.completion unit) :
  initialize env st = (c, st1) ->
  index (this st1) = index (this st) /\
  embeddings (this st1) = embeddings (this st) /\
  embeddingIndex (this st1) = embeddingIndex (this st) /\
  config (this st1) = config (this st) /\
  world st1 = world st.
Proof.
  intros H. destruct (initialize_cases _ _ H) as [-> | ->]; repeat split.
Qed.

Lemma encodeToVideo_without_buffer (Frame Video : Type) (env : Env Frame Video)
      (st : State Video) (outputPath : string) :
  mkdir env (tempDir env) = JS.Return tt ->
  mkdir env (path_join (tempDir env) "frames") = JS.Return tt ->
  embeddings (this st) = None ->
  encodeToVideo env outputPath st
  = (JS.Throw (JS.TypeError "object null is not iterable"), st).
Proof.
  intros Htmp Hdir Hnone.
  unfold encodeToVideo, createTempDir, saveEmbeddings.
  unfold bind at 1. unfold bind at 1. unfold lift at 1. rewrite Htmp.
  unfold ret at 1. unfold bind at 1. unfold lift at 1. rewrite Hdir.
  unfold bind at 1. unfold bind at 1. unfold get_this at 1.
  rewrite Hnone. reflexivity.
Qed.

(** C8.  [processText("")] returns no chunk id and leaves the index and the
    vector store as they were.  On a new instance the index is then empty
    and no vector has ever been stored, and [encodeToVideo] throws a
    [TypeError] when it saves the vectors, before any frame or video is
    made. *)
Theorem empty_input_then_encode_throws :
  (forall (Frame Video : Type) (env : Env Frame Video) (st st1 : State Video)
          (metadata : list (string * JS.json)),
      initialize env st = (JS.Return tt, st1) ->
      processText env "" metadata st = Some (JS.Return [], st1) /\
      index (this st1) = index (this st) /\
      embeddings (this st1) = embeddings (this st) /\
      embeddingIndex (this st1) = embeddingIndex (this st) /\
      embeddingDim (config (this st1)) = embeddingDim (config (this st))) /\
  (forall (Frame Video : Type) (env : Env Frame Video) (options : Options)
          (w : World Video) (st1 : State Video) (metadata : list (string * JS.json))
          (outputPath : string),
      initialize env {| this := new_Memflix options; world := w |} = (JS.Return tt, st1) ->
      mkdir env (tempDir env) = JS.Return tt ->
      mkdir env (path_join (tempDir env) "frames") = JS.Return tt ->
      processText env "" metadata {| this := new_Memflix options; world := w |}
      = Some (JS.Return [], st1) /\
      JS.map_size (index (this st1)) = 0 /\
      encodeToVideo env outputPath st1
      = (JS.Throw (JS.TypeError "object null is not iterable"), st1)).
Proof.
  assert (Hp : forall (Frame Video : Type) (env : Env Frame Video) (st st1 : State Video)
                      (metadata : list (string * JS.json)),
             initialize env st = (JS.Return tt, st1) ->
             processText env "" metadata st = Some (JS.Return [], st1)).
  { intros Frame Video env st st1 metadata Hinit.
    unfold processText. rewrite Hinit, chunkText_empty. reflexivity. }
  split.
  - intros Frame Video env st st1 metadata Hinit.
    destruct (initialize_store _ _ Hinit) as (Hi & He & Hx & Hc & _).
    split; [now apply Hp|]. now rewrite Hi, He, Hx, Hc.
  - intros Frame Video env options w st1 metadata outputPath Hinit Htmp Hdir.
    destruct (initialize_store _ _ Hinit) as (Hi & He & _).
    split; [now apply Hp|]. split; [now rewrite Hi|].
    apply encodeToVideo_without_buffer; assumption.
Qed.

Lemma empty_input_then_encode_throws_witness :
  processText Demo.env "" [] (Demo.start Demo.fresh) = Some (JS.Return [], Demo.ready Demo.fresh) /\
  encodeToVideo Demo.env "empty.mp4" (Demo.ready Demo.fresh)
  = (JS.Throw (JS.TypeError "object null is not iterable"), Demo.ready Demo.fresh).
Proof.
  destruct empty_input_then_encode_throws as [_ H].
  destruct (H _ _ Demo.env default_options Demo.nothing (Demo.ready Demo.fresh) []
              "empty.mp4" eq_refl eq_refl eq_refl) as (Hp & _ & He).
  split; [exact Hp|exact He].
Defined.

(** C6 fails on the empty chunk set of a new instance: encoding throws, no
    sidecar file and no video are written, and decoding the path that was to
    hold the video fails in turn. *)
Theorem encode_decode_of_nothing_fails :
  encodeToVideo Demo.env "empty.mp4" (Demo.start Demo.fresh)
  = (JS.Throw (JS.TypeError "object null is not iterable"), Demo.start Demo.fresh) /\
  disk (world (snd (encodeToVideo Demo.env "empty.mp4" (Demo.start Demo.fresh)))) "empty.mp4"
  = None /\
  fst (decodeFromVideo Demo.env "empty.mp4"
         (snd (encodeToVideo Demo.env "empty.mp4" (Demo.start Demo.fresh))))
  = JS.Throw (JS.Error "ENOENT: no such file or directory").
Proof. repeat split. Qed.

(** ** Encoding and decoding again *)

Lemma member_not_null (v : JS.json) (k : string) :
  is_null v = false -> JS.member v k = JS.Return (prop v k).
Proof. destruct v; simpl; intros H; try reflexivity; discriminate H. Qed.

Lemma payload_id (entry : JS.value * JS.json) :
  JS.member (payload entry) "id" = JS.Return (fst entry).
Proof.
  unfold payload. destruct (fst entry) as [id|];
    destruct (prop (snd entry) "text"), (prop (snd entry) "metadata"); reflexivity.
Qed.

Lemma payload_members (entry : JS.value * JS.json) :
  prop (payload entry) "id" = fst entry /\
  prop (payload entry) "text" = prop (snd entry) "text" /\
  prop (payload entry) "metadata" = prop (snd entry) "metadata".
Proof.
  unfold payload. destruct (fst entry) as [id|];
    destruct (prop (snd entry) "text"), (prop (snd entry) "metadata"); repeat split.
Qed.

Section RoundTrip.

Variables Frame Video : Type.
Variable env : Env Frame Video.

Lemma qrData_of_payload (chunkId : JS.value) (chunkData : JS.json) :
  is_null chunkData = false ->
  qrData_of env chunkId chunkData
  = JS.Return (JSON_stringify env (payload (chunkId, chunkData))).
Proof.
  intros H. unfold qrData_of. now rewrite !member_not_null by exact H.
Qed.

Lemma generate_frames_lossless (entries : list (JS.value * JS.json)) :
  Forall (fun entry => is_null (snd entry) = false) entries ->
  lossless_codec env entries ->
  forall frameIndex,
  exists frames,
    generate_frames env entries frameIndex = JS.Return frames /\
    Forall2 (fun entry file =>
               read_qr env (snd file) = Some (JSON_stringify env (payload entry)))
            entries frames.
Proof.
  induction entries as [|[chunkId chunkData] entries IH]; intros Hnull Hcodec frameIndex.
  - exists []. split; [reflexivity|constructor].
  - inversion Hnull as [|? ? Hn Hnull']; subst. simpl in Hn.
    destruct (Hcodec (chunkId, chunkData) (or_introl eq_refl))
      as (_ & _ & frame & Hdraw & Hread).
    destruct (IH Hnull' (fun e He => Hcodec e (or_intror He)) (S frameIndex))
      as (frames & Hgen & Hall).
    exists ((frame_name frameIndex, frame) :: frames). split.
    + cbn [generate_frames]. rewrite (@qrData_of_payload chunkId chunkData Hn), Hdraw, Hgen. reflexivity.
    + constructor; assumption.
Qed.

Lemma recovered_lossless (dir : list (string * Frame)) (frameFiles : list string) :
  forall (frames : list (string * Frame)) (entries : list (JS.value * JS.json)),
    map (fun frameFile => JS.assoc frameFile dir)
        (List.filter (fun frameFile => JS.endsWith frameFile ".png") frameFiles)
    = map (fun file => Some (snd file)) frames ->
    Forall2 (fun entry file =>
               read_qr env (snd file) = Some (JSON_stringify env (payload entry)))
            entries frames ->
    lossless_codec env entries ->
    recovered env dir frameFiles = map (fun entry => (fst entry, payload entry)) entries.
Proof.
  induction frameFiles as [|frameFile rest IH]; intros frames entries Hvisit Hread Hcodec.
  - destruct frames; [|discriminate Hvisit]. inversion Hread; subst. reflexivity.
  - cbn [recovered List.filter] in *. unfold recover_frame.
    destruct (JS.endsWith frameFile ".png") eqn:Hpng; cbn [negb].
    + destruct frames as [|file frames]; [discriminate Hvisit|].
      cbn [map] in Hvisit. injection Hvisit as Hfile Hvisit.
      inversion Hread as [|entry ? entries' ? Hr Hread']; subst.
      destruct (Hcodec entry (or_introl eq_refl)) as (Htruthy & Hparse & _).
      unfold decodeQRFrame. rewrite Hfile, Hr, Htruthy, Hparse, payload_id.
      cbn [map]. f_equal.
      apply (IH frames entries' Hvisit Hread').
      intros e He. apply Hcodec. now right.
    + apply (IH frames entries Hvisit Hread Hcodec).
Qed.

Lemma disk_write_same (path : string) (f : File Video) (w : World Video) :
  disk (write path f w) path = Some f.
Proof. simpl. now rewrite String.eqb_refl. Qed.

Lemma disk_write_other (path path' : string) (f : File Video) (w : World Video) :
  (path' =? path) = false -> disk (write path f w) path' = disk w path'.
Proof. simpl. now intros ->. Qed.

(** What [encodeToVideo] returns and writes when nothing outside fails. *)
Lemma encodeToVideo_success (st : State Video) (outputPath : string) (buffer : vector)
      (frames : list (string * Frame)) (v : Video) :
  mkdir env (tempDir env) = JS.Return tt ->
  mkdir env (path_join (tempDir env) "frames") = JS.Return tt ->
  embeddings (this st) = Some buffer ->
  writeFile env (JS.replace outputPath ".mp4" ".emb") = JS.Return tt ->
  generate_frames env (JS.map_entries (index (this st))) 0 = JS.Return frames ->
  mux env frames = JS.Return v ->
  rm env (tempDir env) = JS.Return tt ->
  encodeToVideo env outputPath st
  = (JS.Return {| Encoded.videoPath := outputPath;
                  Encoded.embeddingPath := JS.replace outputPath ".mp4" ".emb";
                  Encoded.totalChunks := JS.map_size (index (this st)) |},
     {| this := this st;
        world :=
          write outputPath (VideoFile v)
            (write (JS.replace outputPath ".mp4" ".emb")
               (SidecarFile Video
                  {| sc_embeddings := map through_json buffer;
                     sc_index := JS.own_entries (JS.fromEntries (JS.map_entries (embeddingIndex (this st))));
                     sc_embeddingDim := embeddingDim (config (this st));
                     sc_useOllama := useOllama (this st) |})
               (world st)) |}).
Proof.
  intros Htmp Hdir Hbuf Hwrite Hgen Hmux Hrm.
  unfold encodeToVideo, createTempDir, saveEmbeddings, encodeFramesToVideo, cleanup.
  unfold bind at 1. unfold bind at 1. unfold lift at 1. rewrite Htmp.
  unfold ret at 1. unfold bind at 1. unfold lift at 1. rewrite Hdir.
  unfold bind at 1. unfold bind at 1. unfold get_this at 1. rewrite Hbuf.
  unfold bind at 1. unfold lift at 1. rewrite Hwrite.
  unfold update_world at 1.
  unfold bind at 1. unfold get_this at 1. cbn [this world].
  unfold bind at 1. unfold lift at 1. rewrite Hgen.
  unfold bind at 1. unfold bind at 1. unfold lift at 1. rewrite Hmux.
  unfold update_world at 1. cbn [this world].
  unfold bind at 1. unfold lift at 1. rewrite Hrm.
  reflexivity.
Qed.

End RoundTrip.

(** X29.  The round trip the claim C6 describes, for an instance whose
    vector buffer exists: with a frame codec, a JSON reader and writer and a video
    container that lose nothing, and a sidecar path that is not the path of
    the video, [encodeToVideo] followed by [decodeFromVideo] succeeds and
    leaves an index with the same ids in the same order, each with the text
    and the metadata it had; every frame is decoded. *)
Lemma encode_decode_roundtrip :
  forall (Frame Video : Type) (env : Env Frame Video) (st : State Video)
         (outputPath : string) (buffer : vector),
    embeddings (this st) = Some buffer ->
    Forall (fun entry => is_null (snd entry) = false) (index (this st)) ->
    distinct_keys (JS.map_keys (index (this st))) = true ->
    (JS.replace outputPath ".mp4" ".emb" =? outputPath) = false ->
    mkdir env (tempDir env) = JS.Return tt ->
    mkdir env (path_join (tempDir env) "frames") = JS.Return tt ->
    writeFile env (JS.replace outputPath ".mp4" ".emb") = JS.Return tt ->
    rm env (tempDir env) = JS.Return tt ->
    lossless_codec env (index (this st)) ->
    (forall frames,
        generate_frames env (JS.map_entries (index (this st))) 0 = JS.Return frames ->
        lossless_container env frames) ->
    exists enc st1 dec st2,
      encodeToVideo env outputPath st = (JS.Return enc, st1) /\
      decodeFromVideo env outputPath st1 = (JS.Return dec, st2) /\
      index (this st2) = map (fun entry => (fst entry, payload entry)) (index (this st)) /\
      map (fun entry => (fst entry, prop (snd entry) "text", prop (snd entry) "metadata"))
          (index (this st2))
      = map (fun entry => (fst entry, prop (snd entry) "text", prop (snd entry) "metadata"))
            (index (this st)) /\
      Encoded.totalChunks enc = JS.map_size (index (this st)) /\
      Decoded.totalChunks dec = JS.map_size (index (this st)) /\
      exists warnings seen,
        console (world st2)
        = console (world st) ++ warnings ++ [LogDecoded (JS.map_size (index (this st))) seen].
Proof.
  intros Frame Video env st outputPath buffer Hbuf Hnull Hkeys Hpath
         Htmp Hdir Hwrite Hrm Hcodec Hcont.
  destruct (generate_frames_lossless Hnull Hcodec 0) as (frames & Hgen & Hread).
  destruct (Hcont frames Hgen) as (v & dir & Hmux & Hdemux & Hvisit).
  pose proof (encodeToVideo_success env st outputPath Htmp Hdir Hbuf Hwrite Hgen Hmux Hrm)
    as Henc.
  set (data := {| sc_embeddings := map through_json buffer;
                  sc_index := JS.own_entries (JS.fromEntries (JS.map_entries (embeddingIndex (this st))));
                  sc_embeddingDim := embeddingDim (config (this st));
                  sc_useOllama := useOllama (this st) |}) in Henc.
  set (st1 := {| this := this st;
                 world := write outputPath (VideoFile v)
                            (write (JS.replace outputPath ".mp4" ".emb")
                                   (SidecarFile Video data) (world st)) |}) in Henc.
  assert (Hside : disk (world st1) (JS.replace outputPath ".mp4" ".emb")
                  = Some (SidecarFile Video data)).
  { unfold st1. cbn [world]. rewrite disk_write_other by exact Hpath. apply disk_write_same. }
  assert (Hvideo : disk (world st1) outputPath = Some (VideoFile v)).
  { unfold st1. cbn [world]. apply disk_write_same. }
  destruct (decodeFromVideo_success env st1 outputPath Htmp Hdir Hside Hvideo Hdemux Hrm)
    as [warnings Hdec].
  assert (Hrec : recovered env dir (frameFiles_of dir)
                 = map (fun entry => (fst entry, payload entry)) (index (this st))).
  { apply recovered_lossless with (frames := frames); assumption. }
  assert (Hidx : set_all (recovered env dir (frameFiles_of dir)) (JS.map_empty _ _)
                 = map (fun entry => (fst entry, payload entry)) (index (this st))).
  { rewrite Hrec. rewrite set_all_distinct; [reflexivity| |reflexivity].
    rewrite map_map. exact Hkeys. }
  rewrite Hidx in Hdec.
  eexists. exists st1. eexists. eexists.
  split; [exact Henc|]. split; [exact Hdec|].
  cbn [decoded_state this world index with_index console Decoded.totalChunks
       Encoded.totalChunks].
  rewrite Hidx. split; [reflexivity|]. split.
  { rewrite map_map. apply map_ext. intros entry. cbn [fst snd].
    destruct (payload_members entry) as (_ & -> & ->). reflexivity. }
  split; [reflexivity|]. split.
  { unfold JS.map_size. now rewrite length_map. }
  exists warnings, (List.length (frameFiles_of dir)).
  rewrite Hrec, length_map. reflexivity.
Qed.

Lemma lossless_codec_demo : lossless_codec Demo.env (index Demo.abc).
Proof.
  intros entry Hin. simpl in Hin.
  destruct Hin as [<-|[<-|[<-|[]]]];
    (split; [vm_compute; reflexivity|]; split; [vm_compute; reflexivity|];
     eexists; split; vm_compute; reflexivity).
Defined.

Lemma lossless_container_demo :
  forall frames,
    generate_frames Demo.env (JS.map_entries (index Demo.abc)) 0 = JS.Return frames ->
    lossless_container Demo.env frames.
Proof.
  intros frames H. vm_compute in H. injection H as <-.
  eexists. eexists. split; [reflexivity|]. split; [reflexivity|].
  vm_compute. reflexivity.
Defined.

Lemma encode_decode_roundtrip_witness :
  exists enc st1 dec st2,
    encodeToVideo Demo.env "k.mp4" (Demo.start Demo.abc) = (JS.Return enc, st1) /\
    decodeFromVideo Demo.env "k.mp4" st1 = (JS.Return dec, st2) /\
    map (fun entry => (fst entry, prop (snd entry) "text", prop (snd entry) "metadata"))
        (index (this st2))
    = map (fun entry => (fst entry, prop (snd entry) "text", prop (snd entry) "metadata"))
          (index Demo.abc).
Proof.
  destruct (@encode_decode_roundtrip _ _ Demo.env (Demo.start Demo.abc) "k.mp4"
              (map JS.fround [Demo.one; Demo.nought; Demo.nought; Demo.one;
                              Demo.one; Demo.nought]))
    as (enc & st1 & dec & st2 & Henc & Hdec & _ & Hsame & _).
  - vm_compute. reflexivity.
  - repeat constructor.
  - vm_compute. reflexivity.
  - vm_compute. reflexivity.
  - reflexivity.
  - reflexivity.
  - reflexivity.
  - reflexivity.
  - exact lossless_codec_demo.
  - exact lossless_container_demo.
  - exists enc, st1, dec, st2. repeat split; assumption.
Defined.

(** ** Instances the methods produce are well formed, and [processText] ends *)

Lemma wf_new_Memflix (options : Options) : wf (new_Memflix options).
Proof. split; [reflexivity|constructor]. Qed.

Lemma wf_with_embedder (b : bool) (s : Memflix) : wf s -> wf (with_embedder b s).
Proof. intros H. exact H. Qed.

Lemma wf_storeEmbedding (chunkId : string) (embedding : vector) (s : Memflix) :
  wf s -> wf (storeEmbedding chunkId embedding s).
Proof.
  intros [_ Hidx]. unfold storeEmbedding.
  destruct (embeddings s); (split; [discriminate|exact Hidx]).
Qed.

Lemma map_set_not_null (k : JS.value) (v : JS.json) (m : JS.Map JS.value JS.json) :
  is_null v = false ->
  Forall (fun entry => is_null (snd entry) = false) m ->
  Forall (fun entry => is_null (snd entry) = false) (JS.map_set JS.same_value_zero k v m).
Proof.
  intros Hv. induction 1 as [|[k0 v0] m H0 Hm IH]; simpl.
  - now repeat constructor.
  - destruct (JS.same_value_zero k0 k); constructor; assumption.
Qed.

Lemma wf_set_chunk (k : JS.value) (v : JS.json) (s : Memflix) :
  is_null v = false -> wf s ->
  wf (with_index (JS.map_set JS.same_value_zero k v (index s)) s).
Proof.
  intros Hv [Hstore Hidx]. split; [exact Hstore|]. now apply map_set_not_null.
Qed.

Lemma set_all_not_null (entries : list (JS.value * JS.json)) :
  forall m : JS.Map JS.value JS.json,
    Forall (fun entry => is_null (snd entry) = false) entries ->
    Forall (fun entry => is_null (snd entry) = false) m ->
    Forall (fun entry => is_null (snd entry) = false) (set_all entries m).
Proof.
  induction entries as [|[k v] entries IH]; intros m He Hm; [exact Hm|].
  inversion He; subst. unfold set_all in *. simpl. apply IH; [assumption|].
  now apply map_set_not_null.
Qed.

Section Produced.

Variables Frame Video : Type.
Variable env : Env Frame Video.

(** A property of the instance that storing a chunk record and storing a
    vector keep is kept by [processBatch] and by [processText]. *)
Variable Q : Memflix -> Prop.
Hypothesis Q_set_chunk :
  forall s k v, is_null v = false -> Q s ->
                Q (with_index (JS.map_set JS.same_value_zero k v (index s)) s).
Hypothesis Q_storeEmbedding : forall s chunkId embedding, Q s -> Q (storeEmbedding chunkId embedding s).
Hypothesis Q_with_embedder : forall s, Q s -> Q (with_embedder true s).

Lemma processBatch_from_keeps (chunks : list string) (metadata : list (string * JS.json))
      (offset : nat) :
  forall (i : nat) (results : list string) (st : State Video),
    Q (this st) ->
    Q (this (snd (processBatch_from env chunks metadata offset i results st))).
Proof.
  induction chunks as [|chunk rest IH]; intros i results st HQ.
  - exact HQ.
  - cbn [processBatch_from]. unfold bind at 1. unfold update_this at 1.
    unfold bind at 1.
    match goal with
    | |- context [generateEmbedding env chunk ?st0] =>
        destruct (generateEmbedding env chunk st0) as [[embedding|e] st2] eqn:Hemb;
        pose proof (generateEmbedding_state _ _ _ Hemb) as ->
    end.
    + unfold bind at 1. unfold update_this at 1. apply IH. cbn [this].
      apply Q_storeEmbedding. now apply Q_set_chunk.
    + cbn [snd this]. now apply Q_set_chunk.
Qed.

Lemma processText_from_keeps (fuel : nat) (chunks : list string)
      (metadata : list (string * JS.json)) :
  forall (i : nat) (results : list string) (st : State Video) r,
    Q (this st) ->
    processText_from env fuel chunks metadata i results st = Some r ->
    Q (this (snd r)).
Proof.
  induction fuel as [|fuel IH]; intros i results st r HQ; cbn [processText_from];
    destruct (i <? List.length chunks)%nat; try discriminate;
    try (intros H; injection H as <-; exact HQ).
  pose proof (@processBatch_from_keeps
                (JS.slice chunks (Z.of_nat i)
                          (Z.of_nat i + Z.of_nat (batchSize (config (this st)))))
                metadata i 0 [] st HQ) as Hb.
  unfold processBatch.
  destruct (processBatch_from env _ metadata i 0 [] st) as [[batchResults|e] st'].
  - apply IH. exact Hb.
  - intros H. injection H as <-. exact Hb.
Qed.

Lemma processText_keeps (text : string) (metadata : list (string * JS.json))
      (st : State Video) r :
  Q (this st) -> processText env text metadata st = Some r -> Q (this (snd r)).
Proof.
  intros HQ. unfold processText.
  destruct (initialize env st) as [[u|e] st1] eqn:Hinit.
  - apply processText_from_keeps.
    destruct (initialize_cases _ _ Hinit) as [-> | ->]; [exact HQ|now apply Q_with_embedder].
  - intros H. injection H as <-.
    destruct (initialize_cases _ _ Hinit) as [-> | ->]; [exact HQ|now apply Q_with_embedder].
Qed.

End Produced.

Lemma processText_wf (Frame Video : Type) (env : Env Frame Video) (text : string)
      (metadata : list (string * JS.json)) (st : State Video) r :
  wf (this st) -> processText env text metadata st = Some r -> wf (this (snd r)).
Proof.
  apply processText_keeps.
  - intros s k v Hv Hs. now apply wf_set_chunk.
  - intros s chunkId embedding Hs. now apply wf_storeEmbedding.
  - intros s Hs. exact Hs.
Qed.

Lemma recovered_not_null (Frame Video : Type) (env : Env Frame Video)
      (dir : list (string * Frame)) (frameFiles : list string) :
  Forall (fun entry => is_null (snd entry) = false) (recovered env dir frameFiles).
Proof.
  induction frameFiles as [|frameFile rest IH]; cbn [recovered]; [constructor|].
  destruct (recover_frame env dir frameFile) as [[id parsed]|] eqn:H; [|exact IH].
  constructor; [|exact IH]. cbn [snd].
  unfold recover_frame in H.
  destruct (negb (JS.endsWith frameFile ".png")); [discriminate|].
  destruct (decodeQRFrame env dir frameFile) as [qrData|]; [|discriminate].
  destruct (JS.truthy qrData); [|discriminate].
  destruct (JSON_parse env qrData) as [j|]; [|discriminate].
  destruct j; simpl in H; try discriminate; now injection H as _ <-.
Qed.

Lemma decodeFromVideo_wf (Frame Video : Type) (env : Env Frame Video) (videoPath : string)
      (st st' : State Video) (r : Decoded.t) :
  decodeFromVideo env videoPath st = (JS.Return r, st') -> wf (this st').
Proof.
  intros H.
  destruct (decodeFromVideo_inv _ _ _ H) as (data & v & dir & Htmp & Hdir & Hs & Hv & Hd & Hrm).
  destruct (decodeFromVideo_success env st videoPath Htmp Hdir Hs Hv Hd Hrm) as [warnings Heq].
  rewrite Heq in H. injection H as _ <-.
  split; [discriminate|]. cbn.
  apply set_all_not_null; [apply recovered_not_null|constructor].
Qed.

(** Whatever the outcome, [decodeFromVideo], [encodeToVideo] and [search]
    leave a well-formed instance well formed. *)
Lemma decodeFromVideo_keeps_wf (Frame Video : Type) (env : Env Frame Video)
      (videoPath : string) (st : State Video) :
  wf (this st) -> wf (this (snd (decodeFromVideo env videoPath st))).
Proof.
  intros Hwf.
  pose proof (loadEmbeddings_cases (JS.replace videoPath ".mp4" ".emb") st) as Hload.
  unfold decodeFromVideo, createTempDir, cleanup, extractFramesFromVideo.
  unfold bind at 1. unfold bind at 1. unfold lift at 1.
  destruct (mkdir env (tempDir env)) as [[]|]; [|exact Hwf].
  unfold ret at 1. unfold bind at 1. unfold lift at 1.
  destruct (mkdir env (path_join (tempDir env) "frames")) as [[]|]; [|exact Hwf].
  unfold bind at 1.
  destruct (disk (world st) (JS.replace videoPath ".mp4" ".emb")) as [[data|v0]|].
  2,3: destruct Hload as [e ->]; exact Hwf.
  rewrite Hload.
  assert (Hloaded : forall m,
             Forall (fun entry => is_null (snd entry) = false) m ->
             wf (with_index m
                   (with_store (Some (map JS.fround (sc_embeddings data)))
                      (fold_left (fun m kv => JS.map_set String.eqb (fst kv) (snd kv) m)
                                 (sc_index data) (JS.map_empty _ _))
                      (sc_embeddingDim data) (this st)))).
  { intros m Hm. split; [discriminate|exact Hm]. }
  unfold bind at 1. unfold bind at 1. unfold get_world at 1. cbn [world].
  destruct (disk (world st) videoPath) as [[data0|v]|];
    try (cbn [snd this]; split; [discriminate|apply Hwf]).
  unfold lift at 1. destruct (demux env v) as [dir|];
    [|cbn [snd this]; split; [discriminate|apply Hwf]].
  unfold bind at 1. unfold update_this at 1. cbn [this world].
  unfold bind at 1.
  edestruct (decode_frames_spec env dir (JS.sort (fun x y => (y <? x)%string) (map fst dir)) 0)
    as [warnings ->].
  unfold bind at 1. unfold lift at 1.
  destruct (rm env (tempDir env)) as [[]|]; cbn [snd this fst];
    apply Hloaded; (apply set_all_not_null; [apply recovered_not_null|constructor]).
Qed.

Lemma encodeToVideo_keeps_this (Frame Video : Type) (env : Env Frame Video)
      (outputPath : string) (st : State Video) :
  this (snd (encodeToVideo env outputPath st)) = this st.
Proof.
  unfold encodeToVideo, createTempDir, saveEmbeddings, encodeFramesToVideo, cleanup.
  unfold bind at 1. unfold bind at 1. unfold lift at 1.
  destruct (mkdir env (tempDir env)) as [[]|]; [|reflexivity].
  unfold ret at 1. unfold bind at 1. unfold lift at 1.
  destruct (mkdir env (path_join (tempDir env) "frames")) as [[]|]; [|reflexivity].
  unfold bind at 1. unfold bind at 1. unfold get_this at 1.
  destruct (embeddings (this st)) as [buffer|]; [|reflexivity].
  unfold bind at 1. unfold lift at 1.
  destruct (writeFile env (JS.replace outputPath ".mp4" ".emb")) as [[]|]; [|reflexivity].
  unfold update_world at 1.
  unfold bind at 1. unfold get_this at 1. cbn [this world].
  unfold bind at 1. unfold lift at 1.
  destruct (generate_frames env (JS.map_entries (index (this st))) 0) as [frames|];
    [|reflexivity].
  unfold bind at 1. unfold bind at 1. unfold lift at 1.
  destruct (mux env frames) as [v|]; [|reflexivity].
  unfold update_world at 1. cbn [this world].
  unfold bind at 1. unfold lift at 1.
  destruct (rm env (tempDir env)) as [[]|]; reflexivity.
Qed.

Lemma search_keeps_wf (Frame Video : Type) (env : Env Frame Video) (query : string)
      (limit : Z) (filter : option (JS.json -> bool)) (st : State Video) :
  wf (this st) -> wf (this (snd (search env query limit filter st))).
Proof.
  intros Hwf. unfold search. unfold bind at 1.
  destruct (initialize env st) as [[u|e] st1] eqn:Hinit;
    destruct (initialize_cases _ _ Hinit) as [-> | ->]; cbn [snd this]; try exact Hwf.
  - unfold bind at 1.
    destruct (generateEmbedding env query st) as [[qv|e] st2] eqn:Hemb;
      rewrite (generateEmbedding_state _ _ _ Hemb); exact Hwf.
  - unfold bind at 1.
    match goal with
    | |- context [generateEmbedding env query ?st0] =>
        destruct (generateEmbedding env query st0) as [[qv|e] st2] eqn:Hemb;
        rewrite (generateEmbedding_state _ _ _ Hemb); exact Hwf
    end.
Qed.

Lemma storeEmbedding_batchSize (chunkId : string) (embedding : vector) (s : Memflix) :
  batchSize (config (storeEmbedding chunkId embedding s)) = batchSize (config s).
Proof. unfold storeEmbedding. now destruct (embeddings s). Qed.

(** With a batch size of at least one, the batch loop of [processText] is
    left: the call returns or throws. *)
Lemma processText_from_ends (Frame Video : Type) (env : Env Frame Video)
      (chunks : list string) (metadata : list (string * JS.json)) (b : nat) :
  0 < b ->
  forall (fuel i : nat) (results : list string) (st : State Video),
    batchSize (config (this st)) = b ->
    List.length chunks <= i + fuel ->
    exists r, processText_from env fuel chunks metadata i results st = Some r.
Proof.
  intros Hb. induction fuel as [|fuel IH]; intros i results st Hst Hlen; cbn [processText_from].
  - destruct (i <? List.length chunks)%nat eqn:E; [|eauto].
    apply Nat.ltb_lt in E. lia.
  - destruct (i <? List.length chunks)%nat eqn:E; [|eauto].
    pose proof (@processBatch_from_keeps _ _ env (fun s => batchSize (config s) = b)
                  (fun s k v _ H => H)
                  (fun s chunkId embedding H =>
                     eq_trans (storeEmbedding_batchSize chunkId embedding s) H)
                  (JS.slice chunks (Z.of_nat i) (Z.of_nat i + Z.of_nat (batchSize (config (this st)))))
                  metadata i 0 [] st Hst) as Hkeep.
    unfold processBatch.
    destruct (processBatch_from env _ metadata i 0 [] st) as [[batchResults|e] st']; [|eauto].
    cbn [snd] in Hkeep. apply IH; [exact Hkeep|]. rewrite Hkeep. lia.
Qed.

(** X28.  With a batch size of at least one, [processText] ends: the call
    returns or throws, within as many turns of the batch loop as the text has
    chunks. *)
Lemma processText_ends (Frame Video : Type) (env : Env Frame Video) (text : string)
      (metadata : list (string * JS.json)) (st : State Video) :
  0 < batchSize (config (this st)) ->
  exists r, processText env text metadata st = Some r.
Proof.
  intros Hb. unfold processText.
  destruct (initialize env st) as [[u|e] st1] eqn:Hinit; [|eauto].
  destruct (initialize_store _ _ Hinit) as (_ & _ & _ & Hc & _).
  eapply processText_from_ends; [exact Hb| |lia]. now rewrite Hc.
Qed.

(* ================================================================== *)
(** * Further properties *)
(* ================================================================== *)

(** ** Chunker: what the chunks are made of *)

Lemma append_assoc (a b c : string) : ((a ++ b) ++ c = a ++ (b ++ c))%string.
Proof. induction a as [|x a IH]; simpl; [reflexivity|now rewrite IH]. Qed.

Lemma append_empty_r (a : string) : (a ++ "" = a)%string.
Proof. induction a as [|x a IH]; simpl; [reflexivity|now rewrite IH]. Qed.

Lemma truthy_true (s : string) : JS.truthy s = true <-> s <> "".
Proof.
  unfold JS.truthy. rewrite negb_true_iff. apply String.eqb_neq.
Qed.

Lemma concat_snoc (sep : string) (group : list string) (s : string) :
  group <> [] ->
  String.concat sep (group ++ [s]) = (String.concat sep group ++ sep ++ s)%string.
Proof.
  induction group as [|h [|h' t] IH]; intros Hne; [congruence|reflexivity|].
  change (String.concat sep ((h :: h' :: t) ++ [s]))
    with (h ++ sep ++ String.concat sep ((h' :: t) ++ [s]))%string.
  rewrite IH by discriminate.
  change (String.concat sep (h :: h' :: t))
    with (h ++ sep ++ String.concat sep (h' :: t))%string.
  now rewrite !append_assoc.
Qed.

Lemma concat_not_empty (sep : string) (group : list string) :
  Forall (fun s => s <> "") group -> String.concat sep group = "" -> group = [].
Proof.
  destruct group as [|h [|h' t]]; intros H E; [reflexivity| |];
    inversion H as [|? ? Hh _]; subst; exfalso.
  - now apply Hh.
  - destruct h; [now apply Hh|discriminate E].
Qed.

Lemma blank_trim_end (s : string) : blank (JS.trim_end s) = blank s.
Proof.
  induction s as [|c s IH]; cbn [JS.trim_end blank]; [reflexivity|].
  destruct (JS.trim_end s) as [|x t] eqn:E.
  - rewrite <- IH. cbn [blank]. rewrite andb_true_r.
    destruct (JS.is_white_space c) eqn:Ec; cbn [blank]; [reflexivity|].
    now rewrite Ec.
  - rewrite <- IH. reflexivity.
Qed.

Lemma trim_end_blank (s : string) : JS.trim_end s = "" <-> blank s = true.
Proof.
  split.
  - intros E. rewrite <- blank_trim_end, E. reflexivity.
  - induction s as [|c s IH]; cbn [JS.trim_end blank]; [reflexivity|].
    intros H. apply andb_true_iff in H. destruct H as [Hc Hs].
    now rewrite (IH Hs), Hc.
Qed.

Lemma trim_start_blank (s : string) : blank (JS.trim_start s) = blank s.
Proof.
  induction s as [|c s IH]; cbn [JS.trim_start blank]; [reflexivity|].
  destruct (JS.is_white_space c) eqn:E; cbn [blank andb]; [exact IH|now rewrite E].
Qed.

Lemma blank_trim (s : string) : blank (JS.trim s) = blank s.
Proof. unfold JS.trim. now rewrite blank_trim_end, trim_start_blank. Qed.

Lemma trim_blank (s : string) : JS.trim s = "" <-> blank s = true.
Proof. unfold JS.trim. now rewrite trim_end_blank, trim_start_blank. Qed.

Lemma blank_append (a b : string) : blank (a ++ b) = blank a && blank b.
Proof.
  induction a as [|c a IH]; cbn [append blank]; [reflexivity|].
  now rewrite IH, andb_assoc.
Qed.

Lemma sentences_not_blank (text sentence : string) :
  In sentence (sentences_of text) -> blank sentence = false.
Proof.
  unfold sentences_of. intros H. apply filter_In in H. destruct H as [_ H].
  apply truthy_true in H. destruct (blank sentence) eqn:E; [|reflexivity].
  exfalso. apply H. now apply trim_blank.
Qed.

Lemma not_blank_not_empty (s : string) : blank s = false -> s <> "".
Proof. intros H ->. discriminate H. Qed.

Lemma concat_not_blank (sep : string) (group : list string) :
  group <> [] -> Forall (fun s => blank s = false) group ->
  blank (String.concat sep group) = false.
Proof.
  destruct group as [|h [|h' t]]; intros Hne H; [congruence| |];
    inversion H as [|? ? Hh _]; subst; [exact Hh|].
  change (String.concat sep (h :: h' :: t))
    with (h ++ sep ++ String.concat sep (h' :: t))%string.
  now rewrite blank_append, Hh.
Qed.

Lemma concat_cons (sep s : string) (rest : list string) :
  rest <> [] ->
  String.concat sep (s :: rest) = (s ++ sep ++ String.concat sep rest)%string.
Proof. destruct rest; [congruence|reflexivity]. Qed.

Section ChunkGroups.

Variable maxSize : Z.

Lemma fits_from_snoc (rest : list string) :
  forall (buffer sentence : string),
    fits_from maxSize buffer (rest ++ [sentence])
    = fits_from maxSize buffer rest
      && negb (over maxSize (String.concat ". " (buffer :: rest)) sentence).
Proof.
  induction rest as [|r rest IH]; intros buffer sentence; cbn [app fits_from].
  - cbn [String.concat]. now rewrite andb_true_r.
  - rewrite IH, andb_assoc. do 3 f_equal.
    rewrite (concat_cons ". " buffer (rest := r :: rest)) by discriminate.
    destruct rest as [|r' rest].
    + reflexivity.
    + rewrite !(concat_cons ". " _ (rest := r' :: rest)) by discriminate.
      now rewrite !append_assoc.
Qed.

Lemma fits_snoc (group : list string) (sentence : string) :
  group <> [] -> fits maxSize group = true ->
  over maxSize (String.concat ". " group) sentence = false ->
  fits maxSize (group ++ [sentence]) = true.
Proof.
  destruct group as [|s rest]; [congruence|]. intros _ Hfits Hover.
  cbn [app fits] in *. now rewrite fits_from_snoc, Hfits, Hover.
Qed.

Lemma packed_snoc (groups : list (list string)) :
  forall group next : list string,
    packed maxSize (groups ++ [group]) = true ->
    over maxSize (String.concat ". " group) (hd "" next) = true ->
    packed maxSize ((groups ++ [group]) ++ [next]) = true.
Proof.
  induction groups as [|g groups IH]; intros group next Hp Hover.
  - cbn [app packed hd]. now rewrite Hover.
  - cbn [app] in *. cbn [packed] in *.
    destruct (groups ++ [group]) as [|g' rest] eqn:E; [now destruct groups|].
    cbn [app]. apply andb_true_iff in Hp. destruct Hp as [Hg Hp].
    rewrite Hg. cbn [andb]. rewrite <- E in *. change (g' :: rest ++ [next])
      with ((g' :: rest) ++ [next]). rewrite <- E. now apply IH.
Qed.

Lemma packed_last (groups : list (list string)) :
  forall group group' : list string,
    packed maxSize (groups ++ [group]) = true ->
    hd "" group' = hd "" group ->
    packed maxSize (groups ++ [group']) = true.
Proof.
  induction groups as [|g groups IH]; intros group group' Hp Hhd; [reflexivity|].
  cbn [app packed] in *.
  destruct groups as [|g1 groups].
  - cbn [app] in *. rewrite Hhd. exact Hp.
  - cbn [app] in Hp |- *. apply andb_true_iff in Hp. destruct Hp as [Hg Hp].
    cbn [hd] in *. rewrite Hg. cbn [andb].
    exact (IH group group' Hp Hhd).
Qed.

Lemma chunk_step_groups (groups : list (list string)) (cur : list string) (sentence : string) :
  packing maxSize groups cur -> blank sentence = false ->
  exists groups' cur',
    chunk_step maxSize (map chunk_of groups, String.concat ". " cur) sentence
    = (map chunk_of groups', String.concat ". " cur') /\
    packing maxSize groups' cur' /\
    (List.concat groups' ++ cur' = (List.concat groups ++ cur) ++ [sentence])%list.
Proof.
  intros (Hgroups & Hcur & Hfits & Hfit & Hpacked & Hstart) Hs. unfold chunk_step.
  fold (over maxSize (String.concat ". " cur) sentence).
  destruct (JS.truthy (String.concat ". " cur)) eqn:Ht.
  - assert (Hne : cur <> []) by (intros ->; discriminate Ht).
    destruct (over maxSize (String.concat ". " cur) sentence) eqn:Hover; cbn [andb].
    + exists (groups ++ [cur]), [sentence]. split; [now rewrite map_app|]. split.
      * repeat split.
        -- apply Forall_app. split; [exact Hgroups|]. now repeat constructor.
        -- now repeat constructor.
        -- apply Forall_app. split; [exact Hfits|]. now repeat constructor.
        -- now apply packed_snoc.
        -- discriminate.
      * rewrite concat_app. simpl. now rewrite app_nil_r.
    + exists groups, (cur ++ [sentence]). split; [now rewrite concat_snoc|]. split.
      * repeat split.
        -- exact Hgroups.
        -- apply Forall_app. split; [exact Hcur|now repeat constructor].
        -- exact Hfits.
        -- now apply fits_snoc.
        -- apply packed_last with (group := cur); [exact Hpacked|]. now destruct cur.
        -- now destruct cur.
      * now rewrite app_assoc.
  - rewrite andb_false_r.
    assert (Hc : cur = []).
    { apply concat_not_empty with (sep := ". ").
      - eapply Forall_impl; [|exact Hcur]. intros s. apply not_blank_not_empty.
      - now apply truthy_false. }
    subst cur. rewrite (Hstart eq_refl) in *.
    exists [], [sentence]. split; [reflexivity|]. split.
    + repeat split; try discriminate; now repeat constructor.
    + reflexivity.
Qed.

Lemma fold_chunk_step_groups (rest : list string) :
  forall (groups : list (list string)) (cur : list string),
    Forall (fun s => blank s = false) rest ->
    packing maxSize groups cur ->
    exists groups' cur',
      fold_left (chunk_step maxSize) rest (map chunk_of groups, String.concat ". " cur)
      = (map chunk_of groups', String.concat ". " cur') /\
      packing maxSize groups' cur' /\
      (List.concat groups' ++ cur' = (List.concat groups ++ cur) ++ rest)%list.
Proof.
  induction rest as [|sentence rest IH]; intros groups cur Hrest Hinv.
  - exists groups, cur. now rewrite app_nil_r.
  - inversion Hrest as [|? ? Hs Hrest']; subst. cbn [fold_left].
    destruct (chunk_step_groups sentence Hinv Hs) as (groups1 & cur1 & -> & Hinv1 & Hsplit).
    destruct (IH groups1 cur1 Hrest' Hinv1) as (groups2 & cur2 & Hfold & Hinv2 & Hsplit2).
    exists groups2, cur2. split; [exact Hfold|]. split; [exact Hinv2|].
    rewrite Hsplit2, Hsplit, <- app_assoc. reflexivity.
Qed.

(** [chunkText] in terms of groups of sentences. *)
Lemma chunkText_groups (text : string) :
  exists groups,
    chunkText text maxSize = map chunk_of groups /\
    Forall (fun g => g <> [] /\ Forall (fun s => blank s = false) g) groups /\
    List.concat groups = sentences_of text /\
    Forall (fun g => fits maxSize g = true) groups /\
    packed maxSize groups = true.
Proof.
  unfold chunkText.
  destruct (@fold_chunk_step_groups (sentences_of text) [] [])
    as (groups & cur & Hfold & (Hg & Hc & Hfits & Hfit & Hpacked & Hstart) & Hsplit).
  - apply Forall_forall. intros s. apply sentences_not_blank.
  - repeat split; constructor.
  - cbn [map String.concat] in Hfold. rewrite Hfold. cbn [List.concat app] in Hsplit.
    destruct (JS.truthy (String.concat ". " cur)) eqn:Ht.
    + assert (Hne : cur <> []) by (intros ->; discriminate Ht).
      exists (groups ++ [cur]). repeat split.
      * now rewrite map_app.
      * apply Forall_app. split; [exact Hg|]. now repeat constructor.
      * rewrite concat_app. simpl. now rewrite app_nil_r.
      * apply Forall_app. split; [exact Hfits|]. now repeat constructor.
      * exact Hpacked.
    + assert (Hcur : cur = []).
      { apply concat_not_empty with (sep := ". ").
        - eapply Forall_impl; [|exact Hc]. intros s. apply not_blank_not_empty.
        - now apply truthy_false. }
      subst cur. rewrite (Hstart eq_refl) in *. exists [].
      rewrite app_nil_r in Hsplit. now repeat split.
Qed.

End ChunkGroups.

(** X1.  [chunkText] loses and reorders nothing: it cuts the list of
    sentences of the text into consecutive non-empty groups, and each chunk
    is the sentences of one group joined by a period and a space, then
    trimmed. *)
Theorem chunkText_partition (text : string) (maxSize : Z) :
  exists groups : list (list string),
    List.concat groups = sentences_of text /\
    Forall (fun group => group <> []) groups /\
    chunkText text maxSize = map chunk_of groups.
Proof.
  destruct (chunkText_groups maxSize text) as (groups & Hchunks & Hg & Hsplit & _).
  exists groups. repeat split; try assumption.
  eapply Forall_impl; [|exact Hg]. now intros g [H _].
Qed.

(** X2.  No chunk is empty or made of white space only. *)
Theorem chunkText_chunks_not_blank (text : string) (maxSize : Z) (chunk : string) :
  In chunk (chunkText text maxSize) -> chunk <> "" /\ blank chunk = false.
Proof.
  destruct (chunkText_groups maxSize text) as (groups & -> & Hg & _).
  intros Hin. apply in_map_iff in Hin. destruct Hin as (g & <- & Hin).
  rewrite Forall_forall in Hg. destruct (Hg g Hin) as [Hne Hink].
  assert (H : blank (chunk_of g) = false).
  { unfold chunk_of. rewrite blank_trim. now apply concat_not_blank. }
  split; [now apply not_blank_not_empty|exact H].
Qed.

Lemma split_from_blank (s : string) :
  forall in_run, forallb blank (JS.split_from in_run s) = without_sentence s.
Proof.
  induction s as [|c s IH]; intros in_run; cbn [JS.split_from without_sentence].
  - reflexivity.
  - destruct (JS.is_terminator c) eqn:Ec.
    + rewrite orb_true_r. cbn [andb].
      destruct in_run; [apply IH|]. cbn [forallb blank andb]. apply IH.
    + rewrite orb_false_r, <- (IH false).
      destruct (JS.split_from false s) as [|piece pieces]; cbn [forallb blank].
      * now rewrite !andb_true_r.
      * now rewrite andb_assoc.
Qed.

Lemma blank_not_truthy (s : string) : negb (JS.truthy (JS.trim s)) = blank s.
Proof.
  destruct (blank s) eqn:E.
  - apply trim_blank in E. now rewrite E.
  - apply negb_false_iff, truthy_true. intros H. apply trim_blank in H. congruence.
Qed.

Lemma sentences_of_nil (text : string) :
  sentences_of text = [] <-> without_sentence text = true.
Proof.
  unfold sentences_of, JS.split_terminators. rewrite <- (split_from_blank text false).
  induction (JS.split_from false text) as [|piece pieces IH]; cbn [filter forallb].
  - tauto.
  - rewrite <- blank_not_truthy.
    destruct (JS.truthy (JS.trim piece)); cbn [negb andb]; [|exact IH].
    split; discriminate.
Qed.

(** X3.  [chunkText] returns no chunk exactly for a text in which every
    character is white space or one of the sentence terminators. *)
Theorem chunkText_nil_iff (text : string) (maxSize : Z) :
  chunkText text maxSize = [] <-> without_sentence text = true.
Proof.
  rewrite <- sentences_of_nil. split.
  - destruct (chunkText_groups maxSize text) as (groups & -> & _ & <- & _).
    destruct groups; [reflexivity|discriminate].
  - unfold chunkText. intros ->. reflexivity.
Qed.

(** ** Vector store: reading back what was stored *)

Lemma map_get_set_same (V : Type) (k : string) (v : V) (m : JS.Map string V) :
  JS.map_get String.eqb k (JS.map_set String.eqb k v m) = Some v.
Proof.
  induction m as [|[k0 v0] m IH]; cbn [JS.map_set JS.map_get].
  - now rewrite String.eqb_refl.
  - destruct (String.eqb k0 k) eqn:E; cbn [JS.map_get]; rewrite E; [reflexivity|exact IH].
Qed.

Lemma map_get_set_other (V : Type) (k k' : string) (v : V) (m : JS.Map string V) :
  k' <> k ->
  JS.map_get String.eqb k' (JS.map_set String.eqb k v m) = JS.map_get String.eqb k' m.
Proof.
  intros Hne. induction m as [|[k0 v0] m IH]; cbn [JS.map_set JS.map_get].
  - apply String.eqb_neq in Hne. rewrite String.eqb_sym in Hne. now rewrite Hne.
  - destruct (String.eqb k0 k) eqn:E; cbn [JS.map_get].
    + apply String.eqb_eq in E. subst k0.
      assert (H : String.eqb k k' = false) by (apply String.eqb_neq; congruence).
      now rewrite H.
    + destruct (String.eqb k0 k'); [reflexivity|exact IH].
Qed.

(** [l.slice(offset, offset + d)] is the window of [d] elements at [offset],
    cut at the end of [l]. *)
Lemma slice_window (A : Type) (l : list A) (offset d : nat) :
  JS.slice l (Z.of_nat offset) (Z.of_nat offset + Z.of_nat d) = firstn d (skipn offset l).
Proof.
  unfold JS.slice, JS.rel_index.
  destruct (Z.of_nat offset <? 0)%Z eqn:E1; [apply Z.ltb_lt in E1; lia|].
  destruct (Z.of_nat offset + Z.of_nat d <? 0)%Z eqn:E2; [apply Z.ltb_lt in E2; lia|].
  rewrite Nat2Z.id, <- Nat2Z.inj_add, Nat2Z.id.
  destruct (Nat.le_gt_cases offset (List.length l)) as [Hle|Hgt].
  - rewrite (Nat.min_l offset) by exact Hle.
    destruct (Nat.le_gt_cases (offset + d) (List.length l)) as [Hle'|Hgt'].
    + rewrite Nat.min_l by exact Hle'. f_equal. lia.
    + rewrite Nat.min_r by lia.
      rewrite (firstn_all2 (n := d)) by (rewrite length_skipn; lia).
      apply firstn_all2. rewrite length_skipn. lia.
  - rewrite (Nat.min_r offset) by lia. rewrite Nat.min_r by lia.
    rewrite !skipn_all2 by lia. now rewrite !firstn_nil.
Qed.

Lemma getEmbedding_window (s : Memflix) (chunkId : JS.value) (offset : nat) (buffer : vector) :
  embeddings s = Some buffer -> offset_of s chunkId = Some offset ->
  getEmbedding s chunkId
  = JS.Return (Some (firstn (embeddingDim (config s)) (skipn offset buffer))).
Proof.
  intros Hb Ho. unfold getEmbedding. now rewrite Ho, Hb, slice_window.
Qed.

Lemma skipn_length_app (A : Type) (l l' : list A) : skipn (List.length l) (l ++ l') = l'.
Proof. induction l as [|x l IH]; [reflexivity|exact IH]. Qed.

(** What [storeEmbedding] leaves: the buffer before the call followed by the
    rounded vector, whose offset is the length of that buffer. *)
Lemma storeEmbedding_store (chunkId : string) (embedding : vector) (s : Memflix) :
  embeddings (storeEmbedding chunkId embedding s)
  = Some (buffer_of s ++ map JS.fround embedding) /\
  offset_of (storeEmbedding chunkId embedding s) (Some (JS.JStr chunkId))
  = Some (List.length (buffer_of s)) /\
  forall other, other <> chunkId ->
    offset_of (storeEmbedding chunkId embedding s) (Some (JS.JStr other))
    = offset_of s (Some (JS.JStr other)).
Proof.
  unfold storeEmbedding, buffer_of, offset_of.
  destruct (embeddings s) as [buffer|]; cbn [with_store embeddings embeddingIndex];
    (split; [reflexivity|split; [apply map_get_set_same|]]);
    intros other Hne; now apply map_get_set_other.
Qed.

(** X4.  A vector read back right after it was stored under a fresh buffer,
    or with the established dimension, is the vector rounded to binary32,
    component by component. *)
Theorem getEmbedding_storeEmbedding (chunkId : string) (embedding : vector) (s : Memflix) :
  embeddings s = None \/ List.length embedding = embeddingDim (config s) ->
  getEmbedding (storeEmbedding chunkId embedding s) (Some (JS.JStr chunkId))
  = JS.Return (Some (map JS.fround embedding)).
Proof.
  intros H.
  destruct (storeEmbedding_store chunkId embedding s) as (Hb & Ho & _).
  rewrite (getEmbedding_window _ _ Hb Ho), skipn_length_app.
  rewrite firstn_all2; [reflexivity|].
  rewrite length_map. unfold storeEmbedding.
  destruct (embeddings s) as [buffer|]; cbn [with_store config with_embeddingDim embeddingDim].
  - destruct H as [H|H]; [discriminate H|]. now rewrite H.
  - reflexivity.
Qed.

Lemma getEmbedding_storeEmbedding_witness :
  getEmbedding (storeEmbedding "a" [Demo.one; Demo.nought] Demo.fresh) (Some (JS.JStr "a"))
  = JS.Return (Some (map JS.fround [Demo.one; Demo.nought])).
Proof. apply getEmbedding_storeEmbedding. left. reflexivity. Defined.

(** X5.  There is no boundary between stored vectors: after a second vector
    is stored under another id, reading the first one gives the first
    [embeddingDim] components of the two rounded vectors put end to end.  A
    vector shorter than the dimension is read back filled up with the
    beginning of its successor. *)
Theorem getEmbedding_reads_into_next (id1 id2 : string) (v1 v2 : vector) (s : Memflix) :
  id1 <> id2 ->
  getEmbedding (storeEmbedding id2 v2 (storeEmbedding id1 v1 s)) (Some (JS.JStr id1))
  = JS.Return
      (Some (firstn (embeddingDim (config (storeEmbedding id1 v1 s)))
                    (map JS.fround v1 ++ map JS.fround v2))).
Proof.
  intros Hne.
  destruct (storeEmbedding_store id1 v1 s) as (Hb1 & Ho1 & _).
  destruct (storeEmbedding_store id2 v2 (storeEmbedding id1 v1 s)) as (Hb2 & _ & Hother).
  unfold buffer_of in Hb2. rewrite Hb1 in Hb2.
  rewrite <- (Hother id1 Hne) in Ho1.
  rewrite (getEmbedding_window _ _ Hb2 Ho1).
  rewrite <- app_assoc, skipn_length_app.
  f_equal. unfold storeEmbedding at 1. rewrite Hb1. reflexivity.
Qed.

Lemma getEmbedding_reads_into_next_witness :
  getEmbedding (storeEmbedding "c" [Demo.nought; Demo.one]
                  (storeEmbedding "b" [Demo.one]
                     (storeEmbedding "a" [Demo.one; Demo.nought] Demo.fresh)))
               (Some (JS.JStr "b"))
  = JS.Return (Some (firstn 2 (map JS.fround [Demo.one] ++ map JS.fround [Demo.nought; Demo.one]))).
Proof.
  apply (@getEmbedding_reads_into_next "b" "c" [Demo.one] [Demo.nought; Demo.one]
           (storeEmbedding "a" [Demo.one; Demo.nought] Demo.fresh)).
  discriminate.
Defined.

(** X6.  Storing a vector leaves every vector already in the store as it
    reads: for another id whose window lies inside the buffer, [getEmbedding]
    gives the same answer after the call as before it. *)
Theorem storeEmbedding_keeps_others (chunkId other : string) (embedding : vector)
        (s : Memflix) (offset : nat) (buffer : vector) :
  other <> chunkId ->
  embeddings s = Some buffer ->
  offset_of s (Some (JS.JStr other)) = Some offset ->
  offset + embeddingDim (config s) <= List.length buffer ->
  getEmbedding (storeEmbedding chunkId embedding s) (Some (JS.JStr other))
  = getEmbedding s (Some (JS.JStr other)).
Proof.
  intros Hne Hb Ho Hin.
  destruct (storeEmbedding_store chunkId embedding s) as (Hb' & _ & Hother).
  unfold buffer_of in Hb'. rewrite Hb in Hb'.
  specialize (Hother other Hne). rewrite Ho in Hother.
  rewrite (getEmbedding_window _ _ Hb' Hother), (getEmbedding_window _ _ Hb Ho).
  assert (Hd : embeddingDim (config (storeEmbedding chunkId embedding s))
               = embeddingDim (config s)).
  { unfold storeEmbedding. now rewrite Hb. }
  rewrite Hd. do 2 f_equal.
  rewrite skipn_app.
  replace (offset - List.length buffer) with 0 by lia.
  cbn [skipn]. rewrite firstn_app.
  replace (embeddingDim (config s) - List.length (skipn offset buffer)) with 0
    by (rewrite length_skipn; lia).
  cbn [firstn]. now rewrite app_nil_r.
Qed.

Lemma storeEmbedding_keeps_others_witness :
  getEmbedding (storeEmbedding "d" [Demo.one; Demo.one] Demo.abc) (Some (JS.JStr "b"))
  = getEmbedding Demo.abc (Some (JS.JStr "b")).
Proof.
  apply (@storeEmbedding_keeps_others "d" "b" [Demo.one; Demo.one] Demo.abc 2
           (map JS.fround [Demo.one; Demo.nought; Demo.nought; Demo.one; Demo.one; Demo.nought])).
  - discriminate.
  - vm_compute. reflexivity.
  - vm_compute. reflexivity.
  - vm_compute. lia.
Defined.

(** ** Cosine similarity: symmetry, and vectors of different lengths *)

Lemma mul_comm (x y : JS.number) : JS.mul x y = JS.mul y x.
Proof.
  unfold JS.mul, SFmul.
  destruct x as [sx|sx| |sx mx ex], y as [sy|sy| |sy my ey];
    try reflexivity; try (now rewrite xorb_comm).
  now rewrite xorb_comm, Pos.mul_comm, Z.add_comm.
Qed.

Lemma mul_NaN_r (x : JS.number) : JS.mul x JS.NaN = JS.NaN.
Proof. now destruct x. Qed.

Lemma add_NaN_l (x : JS.number) : JS.add JS.NaN x = JS.NaN.
Proof. reflexivity. Qed.

Lemma add_NaN_r (x : JS.number) : JS.add x JS.NaN = JS.NaN.
Proof. now destruct x. Qed.

Lemma div_NaN_l (x : JS.number) : JS.div JS.NaN x = JS.NaN.
Proof. reflexivity. Qed.

Lemma dot_from_comm (a : vector) :
  forall (b pa pb : vector) (acc : JS.number),
    List.length pa = List.length pb -> List.length a = List.length b ->
    JS.reduce_from (fun sum ai i => JS.add sum (JS.mul ai (JS.at_number (pb ++ b) i)))
                   (List.length pa) a acc
    = JS.reduce_from (fun sum bi i => JS.add sum (JS.mul bi (JS.at_number (pa ++ a) i)))
                     (List.length pb) b acc.
Proof.
  induction a as [|x a IH]; intros [|y b] pa pb acc Hp Hl; try discriminate Hl.
  - reflexivity.
  - cbn [JS.reduce_from].
    assert (Hy : JS.at_number (pb ++ y :: b) (List.length pa) = y)
      by (unfold JS.at_number; rewrite Hp; apply nth_middle).
    assert (Hx : JS.at_number (pa ++ x :: a) (List.length pb) = x)
      by (unfold JS.at_number; rewrite <- Hp; apply nth_middle).
    rewrite Hy, Hx, (mul_comm y x).
    specialize (IH b (pa ++ [x]) (pb ++ [y]) (JS.add acc (JS.mul x y))).
    rewrite !length_app, <- !app_assoc in IH. cbn [List.length app] in IH.
    rewrite !Nat.add_1_r in IH. apply IH; [now rewrite Hp|].
    now injection Hl.
Qed.

Lemma dotProduct_comm (a b : vector) :
  List.length a = List.length b -> dotProduct a b = dotProduct b a.
Proof. intros H. exact (@dot_from_comm a b [] [] JS.zero eq_refl H). Qed.

(** X7.  On vectors of one length the score does not depend on which of the
    two is the query. *)
Theorem cosineSimilarity_symmetric (a b : vector) :
  List.length a = List.length b -> cosineSimilarity a b = cosineSimilarity b a.
Proof.
  intros H. unfold cosineSimilarity.
  change (JS.div (dotProduct a b) (JS.mul (magnitude a) (magnitude b))
          = JS.div (dotProduct b a) (JS.mul (magnitude b) (magnitude a))).
  now rewrite (dotProduct_comm a b H), (mul_comm (magnitude a)).
Qed.

Lemma cosineSimilarity_symmetric_witness :
  cosineSimilarity [Demo.one; Demo.nought] [Demo.one; Demo.one]
  = cosineSimilarity [Demo.one; Demo.one] [Demo.one; Demo.nought].
Proof. apply cosineSimilarity_symmetric. reflexivity. Defined.

Lemma reduce_from_NaN (b a : vector) :
  forall i,
    JS.reduce_from (fun sum ai i => JS.add sum (JS.mul ai (JS.at_number b i))) i a JS.NaN
    = JS.NaN.
Proof. induction a as [|x a IH]; intros i; [reflexivity|apply IH]. Qed.

Lemma dot_from_short (b a : vector) :
  forall i acc,
    i <= List.length b -> List.length b < i + List.length a ->
    JS.reduce_from (fun sum ai i => JS.add sum (JS.mul ai (JS.at_number b i))) i a acc
    = JS.NaN.
Proof.
  induction a as [|x a IH]; intros i acc Hi H; cbn [List.length] in H; [lia|].
  cbn [JS.reduce_from].
  destruct (Nat.le_gt_cases (List.length b) i) as [Hle|Hgt].
  - assert (Hn : JS.at_number b i = JS.NaN)
      by (unfold JS.at_number; now apply nth_overflow).
    rewrite Hn, mul_NaN_r, add_NaN_r. apply reduce_from_NaN.
  - apply IH; lia.
Qed.

(** X8.  A query vector longer than the stored one scores [NaN]: the
    components the stored vector lacks are read as [undefined]. *)
Theorem cosineSimilarity_longer_query_is_NaN (a b : vector) :
  List.length b < List.length a -> cosineSimilarity a b = JS.NaN.
Proof.
  intros H. unfold cosineSimilarity, JS.reduce.
  rewrite dot_from_short by (simpl; lia). reflexivity.
Qed.

Lemma cosineSimilarity_longer_query_is_NaN_witness :
  cosineSimilarity [Demo.one; Demo.one; Demo.one] [Demo.one; Demo.one] = JS.NaN.
Proof. apply cosineSimilarity_longer_query_is_NaN. simpl. lia. Defined.

(** ** Search and initialize: what they leave alone *)

(** X9.  [initialize] loads the local model once and remembers nothing
    else.  After a call that returned on an instance with the local provider,
    every later call returns and changes nothing without asking the loader,
    whatever the loader would answer then; on an instance with the Ollama
    provider every later call asks the server again, and returns or throws as
    the server answers then. *)
Theorem initialize_loads_once (Frame Video : Type) (env : Env Frame Video)
        (st st1 : State Video) :
  initialize env st = (JS.Return tt, st1) ->
  (useOllama (this st) = false ->
   forall later : Env Frame Video, initialize later st1 = (JS.Return tt, st1)) /\
  (useOllama (this st) = true ->
   forall later : Env Frame Video,
     initialize later st1
     = (match ollama_tags later with
        | JS.Return _ => JS.Return tt
        | JS.Throw _ =>
            JS.Throw (JS.Error ("Ollama not accessible. Ensure it's running on "
                                  ++ ollamaURL (config (this st))))
        end, st1)).
Proof.
  unfold initialize. unfold_M.
  destruct (useOllama (this st)) eqn:Hu.
  - destruct (ollama_tags env) as [[]|e]; intros H; inversion H; subst.
    split; [discriminate|]. intros _ later. rewrite Hu.
    now destruct (ollama_tags later).
  - destruct (embedder (this st)) eqn:He.
    + intros H; inversion H; subst. split; [|discriminate].
      intros _ later. now rewrite Hu, He.
    + destruct (load_pipeline env) as [[]|e]; intros H; inversion H; subst.
      split; [|discriminate]. intros _ later.
      cbn [this with_embedder useOllama embedder]. now rewrite Hu.
Qed.

Lemma initialize_loads_once_witness :
  initialize offline (Demo.start Demo.fresh)
  = (JS.Throw (JS.Error "fetch failed"), Demo.start Demo.fresh) /\
  initialize offline (Demo.ready Demo.fresh) = (JS.Return tt, Demo.ready Demo.fresh).
Proof.
  split; [reflexivity|].
  exact (proj1 (@initialize_loads_once _ _ Demo.env (Demo.start Demo.fresh)
                  (Demo.ready Demo.fresh) eq_refl) eq_refl offline).
Defined.

(** X10.  [search] is read-only on the memory: whether it returns or
    throws, the index, the vector buffer, the offsets, the configuration and
    the files and console are as before the call; at most the local model
    has been loaded. *)
Theorem search_changes_nothing (Frame Video : Type) (env : Env Frame Video)
        (query : string) (limit : Z) (filter : option (JS.json -> bool))
        (st : State Video) :
  let st' := snd (search env query limit filter st) in
  world st' = world st /\
  index (this st') = index (this st) /\
  embeddings (this st') = embeddings (this st) /\
  embeddingIndex (this st') = embeddingIndex (this st) /\
  config (this st') = config (this st) /\
  useOllama (this st') = useOllama (this st).
Proof.
  unfold search, bind.
  destruct (initialize env st) as [[[]|e] st1] eqn:Hinit;
    destruct (@initialize_cases _ _ env _ _ _ Hinit) as [-> | ->];
    try (cbn [snd]; repeat split; reflexivity).
  - destruct (generateEmbedding env query st) as [[queryVector|e] st2] eqn:Hemb;
      rewrite (@generateEmbedding_state _ _ env _ _ _ _ Hemb); cbn; repeat split; reflexivity.
  - destruct (generateEmbedding env query _) as [[queryVector|e] st2] eqn:Hemb;
      rewrite (@generateEmbedding_state _ _ env _ _ _ _ Hemb); cbn; repeat split; reflexivity.
Qed.

(** ** Ingestion: what [processText] stores, when it ends, what a failure leaves *)

Lemma index_set_same (chunkId : string) (v : JS.json) (m : JS.Map JS.value JS.json) :
  JS.map_get JS.same_value_zero (Some (JS.JStr chunkId))
             (JS.map_set JS.same_value_zero (Some (JS.JStr chunkId)) v m) = Some v.
Proof.
  induction m as [|[k0 v0] m IH]; cbn [JS.map_set JS.map_get].
  - cbn [JS.same_value_zero]. now rewrite String.eqb_refl.
  - destruct (JS.same_value_zero k0 (Some (JS.JStr chunkId))) eqn:E;
      cbn [JS.map_get]; rewrite E; [reflexivity|exact IH].
Qed.

Lemma index_get_set_other (a b : string) (v : JS.json) (m : JS.Map JS.value JS.json) :
  a <> b ->
  JS.map_get JS.same_value_zero (Some (JS.JStr a))
             (JS.map_set JS.same_value_zero (Some (JS.JStr b)) v m)
  = JS.map_get JS.same_value_zero (Some (JS.JStr a)) m.
Proof.
  intros Hne.
  assert (Hba : String.eqb b a = false) by (apply String.eqb_neq; congruence).
  induction m as [|[k0 v0] m IH]; cbn [JS.map_set JS.map_get].
  - cbn [JS.same_value_zero]. now rewrite Hba.
  - destruct (JS.same_value_zero k0 (Some (JS.JStr b))) eqn:E; cbn [JS.map_get].
    + assert (Hk : JS.same_value_zero k0 (Some (JS.JStr a)) = false).
      { destruct k0 as [[| | |b0| |]|]; cbn [JS.same_value_zero] in *; try reflexivity;
          try discriminate E.
        apply String.eqb_eq in E. now subst b0. }
      now rewrite Hk.
    + destruct (JS.same_value_zero k0 (Some (JS.JStr a))); [reflexivity|exact IH].
Qed.

Lemma index_set_keeps (k k' : JS.value) (v : JS.json) (m : JS.Map JS.value JS.json) :
  JS.map_get JS.same_value_zero k' m <> None ->
  JS.map_get JS.same_value_zero k' (JS.map_set JS.same_value_zero k v m) <> None.
Proof.
  induction m as [|[k0 v0] m IH]; cbn [JS.map_set JS.map_get]; [congruence|].
  destruct (JS.same_value_zero k0 k); cbn [JS.map_get];
    destruct (JS.same_value_zero k0 k'); auto; discriminate.
Qed.

Lemma has_record_set (k : JS.value) (v : JS.json) (s : Memflix) (chunkId : string) :
  has_record s chunkId = true ->
  has_record (with_index (JS.map_set JS.same_value_zero k v (index s)) s) chunkId = true.
Proof.
  unfold has_record. cbn [index with_index]. intros H.
  assert (H' : JS.map_get JS.same_value_zero (Some (JS.JStr chunkId)) (index s) <> None)
    by (destruct (JS.map_get _ _ (index s)); [discriminate|discriminate H]).
  apply (@index_set_keeps k (Some (JS.JStr chunkId)) v (index s)) in H'.
  destruct (JS.map_get _ _ (JS.map_set _ _ _ _)); [reflexivity|congruence].
Qed.

Lemma has_vector_storeEmbedding (chunkId id : string) (embedding : vector) (s : Memflix) :
  has_vector s id = true -> has_vector (storeEmbedding chunkId embedding s) id = true.
Proof.
  unfold has_vector. destruct (storeEmbedding_store chunkId embedding s) as (_ & Hsame & Hother).
  destruct (String.eqb id chunkId) eqn:E.
  - apply String.eqb_eq in E. subst id. now rewrite Hsame.
  - apply String.eqb_neq in E. now rewrite (Hother id E).
Qed.

Lemma has_record_storeEmbedding (chunkId id : string) (embedding : vector) (s : Memflix) :
  has_record (storeEmbedding chunkId embedding s) id = has_record s id.
Proof. unfold has_record, storeEmbedding. now destruct (embeddings s). Qed.

Lemma storeEmbedding_maxChunkSize (chunkId : string) (embedding : vector) (s : Memflix) :
  maxChunkSize (config (storeEmbedding chunkId embedding s)) = maxChunkSize (config s).
Proof. unfold storeEmbedding. now destruct (embeddings s). Qed.

Section Ingestion.

Variables Frame Video : Type.
Variable env : Env Frame Video.

(** The embedding provider is chosen by [useOllama] and [embedder] alone. *)
Lemma generateEmbedding_with_index (text : string) (m : JS.Map JS.value JS.json)
      (st : State Video) :
  generateEmbedding env text {| this := with_index m (this st); world := world st |}
  = (fst (generateEmbedding env text st),
     {| this := with_index m (this st); world := world st |}).
Proof.
  unfold generateEmbedding. unfold_M. cbn [this with_index useOllama embedder].
  destruct (useOllama (this st)); [reflexivity|]. now destruct (embedder (this st)).
Qed.

(** One turn of the loop of [processBatch]. *)
Lemma processBatch_from_cons (chunk : string) (rest : list string)
      (metadata : list (string * JS.json)) (offset i : nat) (results : list string)
      (st : State Video) :
  let chunkId := generateId env (chunk ++ JS.toString offset ++ JS.toString i) in
  let chunkData :=
    JS.JObj [("id", JS.JStr chunkId); ("text", JS.JStr chunk);
             ("metadata",
              JS.JObj (JS.obj_set "index" (JS.JNum (JS.of_Z (Z.of_nat (offset + i))))
                                  metadata))] in
  let s1 := with_index (JS.map_set JS.same_value_zero (Some (JS.JStr chunkId)) chunkData
                                   (index (this st))) (this st) in
  processBatch_from env (chunk :: rest) metadata offset i results st
  = match fst (generateEmbedding env chunk st) with
    | JS.Return embedding =>
        processBatch_from env rest metadata offset (S i) (results ++ [chunkId])
                          {| this := storeEmbedding chunkId embedding s1; world := world st |}
    | JS.Throw e => (JS.Throw e, {| this := s1; world := world st |})
    end.
Proof.
  cbn [processBatch_from]. unfold bind at 1. unfold update_this at 1. cbn [this world].
  unfold bind at 1. rewrite generateEmbedding_with_index.
  destruct (fst (generateEmbedding env chunk st)); reflexivity.
Qed.

(** The loop of [processBatch] over a batch in two parts. *)
Lemma processBatch_from_app (metadata : list (string * JS.json)) (offset : nat)
      (before : list string) :
  forall (rest : list string) (i : nat) (results : list string) (st : State Video),
    processBatch_from env (before ++ rest) metadata offset i results st
    = match processBatch_from env before metadata offset i results st with
      | (JS.Return ids, st1) =>
          processBatch_from env rest metadata offset (i + List.length before) ids st1
      | (JS.Throw e, st1) => (JS.Throw e, st1)
      end.
Proof.
  induction before as [|chunk before IH]; intros rest i results st.
  - cbn [app List.length processBatch_from]. unfold ret. now rewrite Nat.add_0_r.
  - cbn [app List.length]. rewrite !processBatch_from_cons.
    destruct (fst (generateEmbedding env chunk st)); [|reflexivity].
    rewrite IH. now rewrite Nat.add_succ_r.
Qed.

Lemma processBatch_from_ids (chunks : list string) (metadata : list (string * JS.json))
      (offset : nat) :
  forall (i : nat) (results : list string) (st st' : State Video) (ids : list string),
    processBatch_from env chunks metadata offset i results st = (JS.Return ids, st') ->
    exists new,
      ids = results ++ new /\ List.length new = List.length chunks /\
      Forall (fun id => complete (this st') id = true) new /\
      (forall id, complete (this st) id = true -> complete (this st') id = true) /\
      batchSize (config (this st')) = batchSize (config (this st)) /\
      maxChunkSize (config (this st')) = maxChunkSize (config (this st)).
Proof.
  induction chunks as [|chunk rest IH]; intros i results st st' ids H.
  - injection H as <- <-. exists []. rewrite app_nil_r. repeat split; auto.
  - rewrite processBatch_from_cons in H.
    destruct (fst (generateEmbedding env chunk st)) as [embedding|e]; [|discriminate H].
    apply IH in H. destruct H as (new & -> & Hlen & Hnew & Hkeep & Hb & Hm).
    cbn [this] in *.
    set (chunkId := generateId env (chunk ++ JS.toString offset ++ JS.toString i)) in *.
    exists (chunkId :: new). rewrite <- app_assoc. repeat split.
    + cbn [List.length]. now rewrite Hlen.
    + constructor; [|exact Hnew]. apply Hkeep. unfold complete.
      rewrite has_record_storeEmbedding. unfold has_record at 1. cbn [index with_index].
      rewrite index_set_same. unfold has_vector.
      now rewrite (proj1 (proj2 (storeEmbedding_store chunkId embedding _))).
    + intros id Hid. apply Hkeep. unfold complete in *.
      apply andb_true_iff in Hid. destruct Hid as [Hr Hv].
      rewrite has_record_storeEmbedding, has_record_set by exact Hr.
      now rewrite has_vector_storeEmbedding.
    + now rewrite Hb, storeEmbedding_batchSize.
    + now rewrite Hm, storeEmbedding_maxChunkSize.
Qed.

Lemma processText_from_ids (fuel : nat) (chunks : list string)
      (metadata : list (string * JS.json)) :
  forall (i : nat) (results : list string) (st st' : State Video) (ids : list string),
    processText_from env fuel chunks metadata i results st = Some (JS.Return ids, st') ->
    exists new,
      ids = results ++ new /\ List.length new = List.length chunks - i /\
      Forall (fun id => complete (this st') id = true) new /\
      (forall id, complete (this st) id = true -> complete (this st') id = true) /\
      maxChunkSize (config (this st')) = maxChunkSize (config (this st)).
Proof.
  induction fuel as [|fuel IH]; intros i results st st' ids; cbn [processText_from];
    destruct (i <? List.length chunks)%nat eqn:Hi.
  - discriminate.
  - apply Nat.ltb_ge in Hi. intros H. injection H as <- <-.
    exists []. rewrite app_nil_r. repeat split; auto. cbn [List.length]. lia.
  - apply Nat.ltb_lt in Hi. rewrite slice_window. unfold processBatch.
    destruct (processBatch_from env _ metadata i 0 [] st) as [[batchResults|e] st1] eqn:Hb;
      [|discriminate].
    apply processBatch_from_ids in Hb.
    destruct Hb as (new1 & -> & Hlen1 & Hnew1 & Hkeep1 & Hb1 & Hm1).
    intros H. apply IH in H. destruct H as (new2 & -> & Hlen2 & Hnew2 & Hkeep2 & Hm2).
    exists (new1 ++ new2). cbn [app]. repeat split.
    + now rewrite app_assoc.
    + rewrite length_app, Hlen1, Hlen2, length_firstn, length_skipn, Hb1. lia.
    + apply Forall_app. split; [|exact Hnew2].
      eapply Forall_impl; [|exact Hnew1]. intros id. apply Hkeep2.
    + intros id Hid. auto.
    + now rewrite Hm2, Hm1.
  - apply Nat.ltb_ge in Hi. intros H. injection H as <- <-.
    exists []. rewrite app_nil_r. repeat split; auto. cbn [List.length]. lia.
Qed.

(** With a batch size of zero the batch loop stays where it is. *)
Lemma processText_from_stuck (chunks : list string) (metadata : list (string * JS.json))
      (i : nat) (st : State Video) :
  batchSize (config (this st)) = 0 -> i < List.length chunks ->
  forall (fuel : nat) (results : list string),
    processText_from env fuel chunks metadata i results st = None.
Proof.
  intros Hb Hi. apply Nat.ltb_lt in Hi.
  induction fuel as [|fuel IH]; intros results; cbn [processText_from]; rewrite Hi.
  - reflexivity.
  - rewrite slice_window, Hb. cbn [firstn processBatch processBatch_from].
    unfold processBatch, processBatch_from, ret. rewrite Hb, Nat.add_0_r. apply IH.
Qed.

End Ingestion.

(** X11.  A call of [processText] that returns gives one id for every chunk
    of the text, and each of these ids then has a record in the index and a
    vector in the store. *)
Theorem processText_stores_every_chunk (Frame Video : Type) (env : Env Frame Video)
        (text : string) (metadata : list (string * JS.json)) (st st' : State Video)
        (ids : list string) :
  processText env text metadata st = Some (JS.Return ids, st') ->
  List.length ids = List.length (chunkText text (maxChunkSize (config (this st)))) /\
  Forall (fun id => has_record (this st') id = true /\ has_vector (this st') id = true) ids.
Proof.
  unfold processText.
  destruct (initialize env st) as [[[]|e] st1] eqn:Hinit; [|discriminate].
  assert (Hc : maxChunkSize (config (this st1)) = maxChunkSize (config (this st)))
    by (destruct (@initialize_cases _ _ env _ _ _ Hinit) as [-> | ->]; reflexivity).
  rewrite Hc. intros H. apply processText_from_ids in H.
  destruct H as (new & -> & Hlen & Hnew & _). cbn [app]. split.
  - rewrite Hlen. lia.
  - eapply Forall_impl; [|exact Hnew]. intros id Hid.
    now apply andb_true_iff in Hid.
Qed.

Lemma processText_stores_every_chunk_witness :
  exists ids st',
    processText Demo.env "alpha. beta" [] (Demo.start Demo.fresh) = Some (JS.Return ids, st') /\
    List.length ids = 1 /\
    Forall (fun id => has_record (this st') id = true /\ has_vector (this st') id = true) ids.
Proof.
  assert (H : exists ids st',
             processText Demo.env "alpha. beta" [] (Demo.start Demo.fresh)
             = Some (JS.Return ids, st'))
    by (vm_compute; do 2 eexists; reflexivity).
  destruct H as (ids & st' & H). exists ids, st'. split; [exact H|].
  exact (@processText_stores_every_chunk _ _ Demo.env "alpha. beta" [] _ _ _ H).
Defined.

(** X12.  With a batch size of zero and a text that has a chunk, the batch
    loop of [processText] is never left: no number of turns is enough, and the
    call neither returns nor throws. *)
Theorem processText_batchSize_zero (Frame Video : Type) (env : Env Frame Video)
        (text : string) (metadata : list (string * JS.json)) (st st1 : State Video) :
  batchSize (config (this st)) = 0 ->
  initialize env st = (JS.Return tt, st1) ->
  chunkText text (maxChunkSize (config (this st1))) <> [] ->
  processText env text metadata st = None /\
  forall fuel,
    processText_from env fuel (chunkText text (maxChunkSize (config (this st1))))
                     metadata 0 [] st1 = None.
Proof.
  intros Hb Hinit Hne.
  assert (Hb1 : batchSize (config (this st1)) = 0)
    by (destruct (@initialize_cases _ _ env _ _ _ Hinit) as [-> | ->]; exact Hb).
  assert (Hlen : 0 < List.length (chunkText text (maxChunkSize (config (this st1)))))
    by (destruct (chunkText text _); [congruence|cbn [List.length]; lia]).
  split.
  - unfold processText. rewrite Hinit. now apply processText_from_stuck.
  - intros fuel. now apply processText_from_stuck.
Qed.

Lemma processText_batchSize_zero_witness :
  processText Demo.env "alpha" []
    (Demo.start (new_Memflix {| opt_useOllama := false; opt_maxChunkSize := None;
                                opt_embeddingDim := None; opt_batchSize := Some 0;
                                opt_ollamaURL := None |})) = None.
Proof.
  refine (proj1 (@processText_batchSize_zero _ _ Demo.env "alpha" [] _ _ _ _ _)).
  - reflexivity.
  - reflexivity.
  - vm_compute. discriminate.
Defined.

(** X13.  [processBatch] does not undo what it did when the embedding
    provider fails on a chunk of the batch.  The call throws the provider's
    error; the chunks before the failing one are stored as a call on them
    alone leaves them; the record of the failing chunk is set in the index,
    every other record being as those chunks left it; and the vector buffer
    and the offsets are as those chunks left them, so the failing chunk has a
    vector exactly if its id had one already. *)
Theorem processBatch_failure_leaves_record (Frame Video : Type) (env : Env Frame Video)
        (before : list string) (chunk : string) (rest : list string)
        (metadata : list (string * JS.json)) (offset : nat) (st st1 : State Video)
        (ids : list string) (e : JS.exn) :
  processBatch env before metadata offset st = (JS.Return ids, st1) ->
  fst (generateEmbedding env chunk st1) = JS.Throw e ->
  let chunkId :=
    generateId env (chunk ++ JS.toString offset ++ JS.toString (List.length before)) in
  let st' := snd (processBatch env (before ++ chunk :: rest) metadata offset st) in
  fst (processBatch env (before ++ chunk :: rest) metadata offset st) = JS.Throw e /\
  JS.map_get JS.same_value_zero (Some (JS.JStr chunkId)) (index (this st'))
  = Some (record_of chunkId chunk metadata (offset + List.length before)) /\
  (forall id, id <> chunkId ->
              JS.map_get JS.same_value_zero (Some (JS.JStr id)) (index (this st'))
              = JS.map_get JS.same_value_zero (Some (JS.JStr id)) (index (this st1))) /\
  embeddings (this st') = embeddings (this st1) /\
  embeddingIndex (this st') = embeddingIndex (this st1) /\
  has_vector (this st') chunkId = has_vector (this st1) chunkId /\
  world st' = world st1.
Proof.
  intros Hbefore He. cbv zeta. unfold processBatch in *.
  rewrite processBatch_from_app, Hbefore, processBatch_from_cons, He.
  cbn [fst snd this world index with_index embeddings embeddingIndex Nat.add].
  split; [reflexivity|]. split; [apply index_set_same|].
  split; [intros id Hid; now apply index_get_set_other|].
  repeat split.
Qed.

Lemma processBatch_failure_leaves_record_witness :
  exists st1,
    processBatch fails_on_beta ["alpha"] [] 0 (Demo.ready Demo.fresh)
    = (JS.Return [generateId fails_on_beta "alpha00"], st1) /\
    let st' := snd (processBatch fails_on_beta ["alpha"; "beta"; "gamma"] [] 0
                      (Demo.ready Demo.fresh)) in
    fst (processBatch fails_on_beta ["alpha"; "beta"; "gamma"] [] 0 (Demo.ready Demo.fresh))
    = JS.Throw (JS.Error "Tensor allocation failed") /\
    has_record (this st') (generateId fails_on_beta "beta01") = true /\
    has_vector (this st') (generateId fails_on_beta "beta01") = false /\
    embeddings (this st') = embeddings (this st1) /\
    embeddings (this st') <> embeddings Demo.fresh.
Proof.
  assert (H : exists st1,
             processBatch fails_on_beta ["alpha"] [] 0 (Demo.ready Demo.fresh)
             = (JS.Return [generateId fails_on_beta "alpha00"], st1))
    by (vm_compute; eexists; reflexivity).
  destruct H as (st1 & H). exists st1. split; [exact H|].
  destruct (@processBatch_failure_leaves_record _ _ fails_on_beta ["alpha"] "beta" ["gamma"]
              [] 0 (Demo.ready Demo.fresh) st1 _ (JS.Error "Tensor allocation failed") H)
    as (Hthrow & Hrecord & _ & Hbuffer & _ & Hvector & _).
  - vm_compute in H. injection H as <-. reflexivity.
  - cbv zeta. split; [exact Hthrow|]. split; [|split; [|split; [exact Hbuffer|]]].
    + unfold has_record.
      pose proof (Hrecord
                  : JS.map_get JS.same_value_zero
                      (Some (JS.JStr (generateId fails_on_beta "beta01")))
                      (index (this (snd (processBatch fails_on_beta
                                           ["alpha"; "beta"; "gamma"] [] 0
                                           (Demo.ready Demo.fresh)))))
                    = Some (record_of (generateId fails_on_beta "beta01") "beta" [] 1))
        as Hr.
      now rewrite Hr.
    + pose proof (Hvector
                  : has_vector (this (snd (processBatch fails_on_beta
                                             ["alpha"; "beta"; "gamma"] [] 0
                                             (Demo.ready Demo.fresh))))
                               (generateId fails_on_beta "beta01")
                    = has_vector (this st1) (generateId fails_on_beta "beta01"))
        as Hv.
      rewrite Hv. vm_compute in H. injection H as <-. reflexivity.
    + vm_compute. discriminate.
Defined.

(** ** Search: where the results come from *)

Lemma Forall2_In_r (A B : Type) (R : A -> B -> Prop) (l : list A) (l' : list B) (y : B) :
  Forall2 R l l' -> In y l' -> exists x, In x l /\ R x y.
Proof.
  induction 1 as [|x y' l l' HR _ IH]; intros Hin; [destruct Hin|].
  destruct Hin as [<-|Hin].
  - exists x. split; [now left|exact HR].
  - destruct (IH Hin) as (x' & Hx & HR'). exists x'. split; [now right|exact HR'].
Qed.

Lemma In_firstn (A : Type) (n : nat) (l : list A) (x : A) : In x (firstn n l) -> In x l.
Proof.
  revert n. induction l as [|y l IH]; intros [|n]; simpl; try tauto.
  intros [<-|H]; [now left|right; eauto].
Qed.

Lemma candidates_pass (s : Memflix) (filter : option (JS.json -> bool))
      (entry : JS.value * JS.json) :
  In entry (candidates s filter) ->
  match filter with Some f => f (snd entry) = true | None => True end.
Proof.
  unfold candidates. destruct filter as [f|]; [|trivial].
  intros H. apply filter_In in H. tauto.
Qed.

Lemma rank_hits (s : Memflix) (queryVector : vector) (limit : Z)
      (filter : option (JS.json -> bool)) (hits : list Hit.t) :
  rank s queryVector limit filter = JS.Return hits ->
  List.length hits <= List.length (candidates s filter) /\
  Forall (fun h =>
            exists entry,
              In entry (candidates s filter) /\
              Hit.text h = prop (snd entry) "text" /\
              Hit.metadata h = prop (snd entry) "metadata")
         hits.
Proof.
  unfold rank, similarities.
  destruct (traverse (score s queryVector) (candidates s filter)) as [sims|] eqn:Hs;
    [|discriminate].
  rewrite slice_from_0. intros Hh. split.
  - rewrite (traverse_length _ _ Hh), length_firstn, sort_length,
      (traverse_length _ _ Hs). lia.
  - apply traverse_Forall2 in Hs. apply traverse_Forall2 in Hh.
    apply Forall_forall. intros h Hin.
    destruct (@Forall2_In_r _ _ _ _ _ _ Hh Hin) as (item & Hitem & Hhit).
    apply In_firstn in Hitem.
    apply (Permutation_in _ (sort_perm after sims)) in Hitem.
    assert (Hflip : Forall2 (fun item entry => score s queryVector entry = JS.Return item)
                            sims (candidates s filter))
      by (clear -Hs; induction Hs; constructor; auto).
    clear Hs.
    assert (Hex : exists entry, In entry (candidates s filter) /\
                                score s queryVector entry = JS.Return item).
    { clear -Hflip Hitem. induction Hflip as [|i e l l' HR _ IH]; [destruct Hitem|].
      destruct Hitem as [->|Hitem].
      - exists e. split; [now left|exact HR].
      - destruct (IH Hitem) as (e' & He' & HR'). exists e'. split; [now right|exact HR']. }
    destruct Hex as (entry & Hentry & Hscore).
    exists entry. split; [exact Hentry|].
    destruct (hit_prop _ Hhit) as (Ht & Hm & _).
    unfold score in Hscore. destruct (getEmbedding s (fst entry)); [|discriminate].
    injection Hscore as <-. cbn [Item.chunk] in Ht, Hm. now split.
Qed.

(** X14.  Every result of [search] is made from a record of the index that
    passes the filter: its text and metadata are those of the record, and
    there are never more results than such records. *)
Theorem search_hits_from_index (Frame Video : Type) (env : Env Frame Video)
        (query : string) (limit : Z) (filter : option (JS.json -> bool))
        (st st' : State Video) (hits : list Hit.t) :
  search env query limit filter st = (JS.Return hits, st') ->
  List.length hits <= List.length (candidates (this st) filter) /\
  Forall (fun h =>
            exists entry,
              In entry (index (this st)) /\
              match filter with Some f => f (snd entry) = true | None => True end /\
              Hit.text h = prop (snd entry) "text" /\
              Hit.metadata h = prop (snd entry) "metadata")
         hits.
Proof.
  unfold search, bind.
  destruct (initialize env st) as [[[]|e] st1] eqn:Hinit; [|discriminate].
  destruct (generateEmbedding env query st1) as [[queryVector|e] st2] eqn:Hemb;
    [|discriminate].
  unfold get_this, lift. rewrite (@generateEmbedding_state _ _ env _ _ _ _ Hemb).
  intros H. injection H as H _.
  assert (Hrank : rank (this st) queryVector limit filter = JS.Return hits)
    by (destruct (@initialize_cases _ _ env _ _ _ Hinit) as [-> | ->]; exact H).
  destruct (rank_hits _ _ _ _ Hrank) as [Hlen Hall]. split; [exact Hlen|].
  eapply Forall_impl; [|exact Hall].
  intros h (entry & Hentry & Ht & Hm). exists entry. repeat split; try assumption.
  - eapply candidates_incl, Hentry.
  - eapply candidates_pass, Hentry.
Qed.

Lemma search_hits_from_index_witness :
  exists hits st',
    search Demo.env "east" 2 None (Demo.start Demo.abc) = (JS.Return hits, st') /\
    List.length hits <= 3.
Proof.
  assert (H : exists hits st',
             search Demo.env "east" 2 None (Demo.start Demo.abc) = (JS.Return hits, st'))
    by (vm_compute; do 2 eexists; reflexivity).
  destruct H as (hits & st' & H). exists hits, st'. split; [exact H|].
  exact (proj1 (@search_hits_from_index _ _ Demo.env "east" 2 None _ _ _ H)).
Defined.

(** ** The sidecar file *)

Lemma offsets_set_new (V : Type) (k : string) (v : V) (m : JS.Map string V) :
  ~ In k (map fst m) -> JS.map_set String.eqb k v m = m ++ [(k, v)].
Proof.
  induction m as [|[k0 v0] m IH]; cbn [JS.map_set map fst app]; intros H; [reflexivity|].
  destruct (String.eqb k0 k) eqn:E.
  - apply String.eqb_eq in E. exfalso. apply H. now left.
  - rewrite IH; [reflexivity|]. intros Hin. apply H. now right.
Qed.

Lemma offsets_rebuilt (V : Type) (m : JS.Map string V) :
  forall acc : JS.Map string V,
    NoDup (map fst (acc ++ m)) ->
    fold_left (fun m kv => JS.map_set String.eqb (fst kv) (snd kv) m) m acc = acc ++ m.
Proof.
  induction m as [|[k v] m IH]; intros acc H; cbn [fold_left fst snd].
  - now rewrite app_nil_r.
  - rewrite offsets_set_new.
    + rewrite IH; rewrite <- app_assoc; [reflexivity|exact H].
    + rewrite map_app in H. cbn [map fst] in H. apply NoDup_remove_2 in H.
      intros Hin. apply H. apply in_or_app. now left.
Qed.

Lemma with_embeddingDim_same (c : Config) : with_embeddingDim (embeddingDim c) c = c.
Proof. now destruct c. Qed.

Lemma obj_set_map_set (V : Type) (k : string) (v : V) (fields : list (string * V)) :
  JS.obj_set k v fields = JS.map_set String.eqb k v fields.
Proof.
  induction fields as [|[k0 v0] fields IH]; cbn [JS.obj_set JS.map_set]; [reflexivity|].
  now rewrite IH.
Qed.

Lemma fromEntries_distinct (V : Type) (entries : list (string * V)) :
  NoDup (map fst entries) -> JS.fromEntries entries = entries.
Proof.
  intros H. unfold JS.fromEntries.
  rewrite <- (@offsets_rebuilt V entries [] H) at 2.
  generalize (@nil (string * V)).
  induction entries as [|[k v] entries IH]; intros acc; cbn [fold_left fst snd];
    [reflexivity|].
  rewrite obj_set_map_set. apply IH. now inversion H.
Qed.

Lemma filter_split (A : Type) (p : A -> bool) (l : list A) :
  Permutation (filter p l ++ filter (fun x => negb (p x)) l) l.
Proof.
  induction l as [|x l IH]; cbn [filter]; [constructor|].
  destruct (p x); cbn [negb app].
  - now constructor.
  - symmetry. apply Permutation_cons_app. now symmetry.
Qed.

Lemma own_entries_perm (V : Type) (fields : list (string * V)) :
  Permutation (JS.own_entries fields) fields.
Proof.
  unfold JS.own_entries.
  rewrite (sort_perm JS.index_after (filter JS.is_index fields)).
  apply filter_split.
Qed.

Lemma map_get_In (V : Type) (k : string) (v : V) (m : JS.Map string V) :
  NoDup (map fst m) -> In (k, v) m -> JS.map_get String.eqb k m = Some v.
Proof.
  induction m as [|[k0 v0] m IH]; cbn [map fst JS.map_get]; intros Hnd Hin;
    [destruct Hin|].
  inversion Hnd as [|? ? Hk0 Hnd']; subst.
  destruct Hin as [Heq|Hin].
  - injection Heq as -> ->. now rewrite String.eqb_refl.
  - destruct (String.eqb k0 k) eqn:E; [|now apply IH].
    apply String.eqb_eq in E. subst k0. exfalso. apply Hk0.
    change k with (fst (k, v)). now apply in_map.
Qed.

Lemma map_get_found (V : Type) (k : string) (v : V) (m : JS.Map string V) :
  JS.map_get String.eqb k m = Some v -> In (k, v) m.
Proof.
  induction m as [|[k0 v0] m IH]; cbn [JS.map_get]; [discriminate|].
  destruct (String.eqb k0 k) eqn:E.
  - apply String.eqb_eq in E. subst k0. intros H. injection H as ->. now left.
  - intros H. right. now apply IH.
Qed.

Lemma map_get_perm (V : Type) (k : string) (m m' : JS.Map string V) :
  NoDup (map fst m) -> Permutation m' m ->
  JS.map_get String.eqb k m' = JS.map_get String.eqb k m.
Proof.
  intros Hnd Hp.
  assert (Hnd' : NoDup (map fst m'))
    by (eapply Permutation_NoDup; [apply Permutation_map; symmetry; exact Hp|exact Hnd]).
  destruct (JS.map_get String.eqb k m) as [v|] eqn:E.
  - apply map_get_In; [exact Hnd'|].
    eapply Permutation_in; [symmetry; exact Hp|]. now apply map_get_found.
  - destruct (JS.map_get String.eqb k m') as [v'|] eqn:E'; [|reflexivity].
    apply map_get_found in E'. apply (Permutation_in _ Hp) in E'.
    apply (@map_get_In _ k v' m Hnd) in E'. congruence.
Qed.

(** X15.  Saving the vector store and loading the file back keeps the
    offset of every id, the dimension and the rest of the instance.  The ids
    come back in the order of the properties of an object, those that are
    array indices first, in numeric order; each component of the buffer comes
    back as itself, rounded, except that [NaN] and the infinities come back
    as 0. *)
Theorem saveEmbeddings_loadEmbeddings (Frame Video : Type) (env : Env Frame Video)
        (path : string) (st : State Video) (buffer : vector) :
  NoDup (JS.map_keys (embeddingIndex (this st))) ->
  embeddings (this st) = Some buffer ->
  writeFile env path = JS.Return tt ->
  exists st1 st2,
    saveEmbeddings env path st = (JS.Return tt, st1) /\
    loadEmbeddings path st1 = (JS.Return tt, st2) /\
    embeddings (this st2) = Some (map (fun x => JS.fround (through_json x)) buffer) /\
    embeddingIndex (this st2) = JS.own_entries (embeddingIndex (this st)) /\
    Permutation (embeddingIndex (this st2)) (embeddingIndex (this st)) /\
    (forall chunkId, offset_of (this st2) chunkId = offset_of (this st) chunkId) /\
    config (this st2) = config (this st) /\
    index (this st2) = index (this st) /\
    useOllama (this st2) = useOllama (this st) /\
    embedder (this st2) = embedder (this st).
Proof.
  intros Hkeys Hb Hw. unfold saveEmbeddings, loadEmbeddings. unfold_M.
  rewrite Hb, Hw. do 2 eexists. split; [reflexivity|].
  cbn [world this write disk]. rewrite String.eqb_refl. split; [reflexivity|].
  cbn [this with_store embeddings embeddingIndex config index useOllama embedder
       sc_embeddings sc_index sc_embeddingDim].
  unfold JS.map_entries, JS.map_empty, JS.map_keys in *.
  rewrite (@fromEntries_distinct _ (embeddingIndex (this st)) Hkeys).
  pose proof (own_entries_perm (embeddingIndex (this st))) as Hperm.
  assert (Hown : NoDup (map fst (JS.own_entries (embeddingIndex (this st)))))
    by (eapply Permutation_NoDup;
        [apply Permutation_map; symmetry; exact Hperm|exact Hkeys]).
  rewrite (@offsets_rebuilt _ (JS.own_entries (embeddingIndex (this st))) [] Hown).
  cbn [app].
  split; [now rewrite map_map|]. split; [reflexivity|]. split; [exact Hperm|].
  split.
  - intros [[| | |id| |]|]; cbn [offset_of embeddingIndex]; try reflexivity.
    now apply map_get_perm.
  - repeat split. apply with_embeddingDim_same.
Qed.

Lemma saveEmbeddings_loadEmbeddings_witness :
  exists st1 st2,
    saveEmbeddings Demo.env "k.emb" (Demo.start b_10_9) = (JS.Return tt, st1) /\
    loadEmbeddings "k.emb" st1 = (JS.Return tt, st2) /\
    embeddingIndex b_10_9 = [("b", 0); ("10", 2); ("9", 4)] /\
    embeddingIndex (this st2) = [("9", 4); ("10", 2); ("b", 0)] /\
    offset_of (this st2) (Some (JS.JStr "10")) = Some 2.
Proof.
  destruct (@saveEmbeddings_loadEmbeddings _ _ Demo.env "k.emb" (Demo.start b_10_9)
              (map JS.fround [Demo.one; Demo.nought; Demo.nought; Demo.one;
                              Demo.one; Demo.one]))
    as (st1 & st2 & Hs & Hl & _ & Hi & _ & Ho & _).
  - vm_compute. repeat constructor; simpl; intuition discriminate.
  - vm_compute. reflexivity.
  - reflexivity.
  - exists st1, st2. split; [exact Hs|]. split; [exact Hl|].
    split; [vm_compute; reflexivity|]. split.
    + rewrite Hi. vm_compute. reflexivity.
    + rewrite Ho. vm_compute. reflexivity.
Defined.

(** ** Encoding and decoding: failures half way, and paths *)

Section Artifacts.

Variables Frame Video : Type.
Variable env : Env Frame Video.

(** What a call of [encodeToVideo] that returns has gone through. *)
Lemma encodeToVideo_inv (st st1 : State Video) (outputPath : string) (enc : Encoded.t) :
  encodeToVideo env outputPath st = (JS.Return enc, st1) ->
  exists buffer frames v,
    mkdir env (tempDir env) = JS.Return tt /\
    mkdir env (path_join (tempDir env) "frames") = JS.Return tt /\
    embeddings (this st) = Some buffer /\
    writeFile env (JS.replace outputPath ".mp4" ".emb") = JS.Return tt /\
    generate_frames env (JS.map_entries (index (this st))) 0 = JS.Return frames /\
    mux env frames = JS.Return v /\
    rm env (tempDir env) = JS.Return tt.
Proof.
  unfold encodeToVideo, createTempDir, saveEmbeddings, encodeFramesToVideo, cleanup.
  unfold bind at 1. unfold bind at 1. unfold lift at 1.
  destruct (mkdir env (tempDir env)) as [[]|] eqn:Htmp; [|discriminate].
  unfold ret at 1. unfold bind at 1. unfold lift at 1.
  destruct (mkdir env (path_join (tempDir env) "frames")) as [[]|] eqn:Hdir; [|discriminate].
  unfold bind at 1. unfold bind at 1. unfold get_this at 1.
  destruct (embeddings (this st)) as [buffer|] eqn:Hb; [|discriminate].
  unfold bind at 1. unfold lift at 1.
  destruct (writeFile env (JS.replace outputPath ".mp4" ".emb")) as [[]|] eqn:Hw; [|discriminate].
  unfold update_world at 1.
  unfold bind at 1. unfold get_this at 1. cbn [this world].
  unfold bind at 1. unfold lift at 1.
  destruct (generate_frames env (JS.map_entries (index (this st))) 0) as [frames|] eqn:Hf;
    [|discriminate].
  unfold bind at 1. unfold bind at 1. unfold lift at 1.
  destruct (mux env frames) as [v|] eqn:Hm; [|discriminate].
  unfold update_world at 1. cbn [this world].
  unfold bind at 1. unfold lift at 1.
  destruct (rm env (tempDir env)) as [[]|] eqn:Hrm; [|discriminate].
  intros _. exists buffer, frames, v. repeat split; first [reflexivity|assumption].
Qed.

(** [decodeFromVideo] up to the loading of the sidecar file. *)
Lemma decodeFromVideo_not_json (st : State Video) (videoPath : string) (v : Video) :
  mkdir env (tempDir env) = JS.Return tt ->
  mkdir env (path_join (tempDir env) "frames") = JS.Return tt ->
  disk (world st) (JS.replace videoPath ".mp4" ".emb") = Some (VideoFile v) ->
  decodeFromVideo env videoPath st
  = (JS.Throw (JS.SyntaxError "Unexpected token in JSON"), st).
Proof.
  intros Htmp Hdir Hdisk.
  unfold decodeFromVideo, createTempDir, loadEmbeddings. unfold_M.
  now rewrite Htmp, Hdir, Hdisk.
Qed.

Lemma decodeFromVideo_no_frames (st : State Video) (videoPath : string) (data : Sidecar) :
  mkdir env (tempDir env) = JS.Return tt ->
  mkdir env (path_join (tempDir env) "frames") = JS.Return tt ->
  disk (world st) (JS.replace videoPath ".mp4" ".emb") = Some (SidecarFile Video data) ->
  (forall v, disk (world st) videoPath = Some (VideoFile v) ->
             exists e, demux env v = JS.Throw e) ->
  exists e,
    decodeFromVideo env videoPath st
    = (JS.Throw e,
       {| this := with_store (Some (map JS.fround (sc_embeddings data)))
                    (fold_left (fun m kv => JS.map_set String.eqb (fst kv) (snd kv) m)
                               (sc_index data) (JS.map_empty _ _))
                    (sc_embeddingDim data) (this st);
          world := world st |}).
Proof.
  intros Htmp Hdir Hdisk Hvideo.
  unfold decodeFromVideo, createTempDir, loadEmbeddings, extractFramesFromVideo. unfold_M.
  rewrite Htmp, Hdir, Hdisk. cbn [world].
  destruct (disk (world st) videoPath) as [[data0|v]|] eqn:Hv; eauto.
  destruct (Hvideo v eq_refl) as [e ->]. eauto.
Qed.

End Artifacts.

(** X16.  An output path without [.mp4] makes the sidecar path the path of
    the video: [encodeToVideo] then writes the video over the sidecar file it
    has just written, reports both under the same path, and a following
    [decodeFromVideo] of that path throws a [SyntaxError] and changes
    nothing. *)
Theorem encodeToVideo_same_path (Frame Video : Type) (env : Env Frame Video)
        (outputPath : string) (st st1 : State Video) (enc : Encoded.t) :
  String.index 0 ".mp4" outputPath = None ->
  encodeToVideo env outputPath st = (JS.Return enc, st1) ->
  Encoded.embeddingPath enc = Encoded.videoPath enc /\
  (exists v, disk (world st1) outputPath = Some (VideoFile v)) /\
  decodeFromVideo env outputPath st1
  = (JS.Throw (JS.SyntaxError "Unexpected token in JSON"), st1).
Proof.
  intros Hno H.
  assert (Hpath : JS.replace outputPath ".mp4" ".emb" = outputPath)
    by (unfold JS.replace; now rewrite Hno).
  destruct (@encodeToVideo_inv _ _ env _ _ _ _ H)
    as (buffer & frames & v & Htmp & Hdir & Hb & Hw & Hf & Hm & Hrm).
  rewrite (@encodeToVideo_success _ _ env st outputPath _ _ _ Htmp Hdir Hb Hw Hf Hm Hrm) in H.
  injection H as <- <-. cbn [Encoded.embeddingPath Encoded.videoPath].
  split; [exact Hpath|]. split.
  - exists v. cbn [world]. apply disk_write_same.
  - apply decodeFromVideo_not_json with (v := v); try assumption.
    cbn [world]. rewrite Hpath. apply disk_write_same.
Qed.

Lemma encodeToVideo_same_path_witness :
  exists enc st1,
    encodeToVideo Demo.env "memory" (Demo.start Demo.abc) = (JS.Return enc, st1) /\
    decodeFromVideo Demo.env "memory" st1
    = (JS.Throw (JS.SyntaxError "Unexpected token in JSON"), st1).
Proof.
  assert (H : exists enc st1,
             encodeToVideo Demo.env "memory" (Demo.start Demo.abc) = (JS.Return enc, st1))
    by (vm_compute; do 2 eexists; reflexivity).
  destruct H as (enc & st1 & H). exists enc, st1. split; [exact H|].
  exact (proj2 (proj2 (@encodeToVideo_same_path _ _ Demo.env "memory" _ _ _ eq_refl H))).
Defined.

(** X17.  [decodeFromVideo] is not all or nothing: when the sidecar file is
    loaded and the frames cannot be extracted, the call throws with the
    index as it was but with the vector buffer, the offsets and the dimension
    already replaced by those of the file. *)
Theorem decodeFromVideo_failure_replaces_store (Frame Video : Type) (env : Env Frame Video)
        (st : State Video) (videoPath : string) (data : Sidecar) :
  mkdir env (tempDir env) = JS.Return tt ->
  mkdir env (path_join (tempDir env) "frames") = JS.Return tt ->
  disk (world st) (JS.replace videoPath ".mp4" ".emb") = Some (SidecarFile Video data) ->
  (forall v, disk (world st) videoPath = Some (VideoFile v) ->
             exists e, demux env v = JS.Throw e) ->
  exists e st',
    decodeFromVideo env videoPath st = (JS.Throw e, st') /\
    index (this st') = index (this st) /\
    embeddings (this st') = Some (map JS.fround (sc_embeddings data)) /\
    embeddingIndex (this st')
    = fold_left (fun m kv => JS.map_set String.eqb (fst kv) (snd kv) m)
                (sc_index data) (JS.map_empty _ _) /\
    embeddingDim (config (this st')) = sc_embeddingDim data.
Proof.
  intros Htmp Hdir Hdisk Hvideo.
  destruct (decodeFromVideo_no_frames env st videoPath Htmp Hdir Hdisk Hvideo) as [e ->].
  do 2 eexists. split; [reflexivity|]. repeat split.
Qed.

Lemma decodeFromVideo_failure_replaces_store_witness :
  exists e st',
    decodeFromVideo Demo.broken_video "twice.mp4" Demo.rerun = (JS.Throw e, st') /\
    index (this st') = index Demo.abc /\
    embeddings (this st') = Some (map JS.fround [Demo.one; Demo.nought]).
Proof.
  destruct (@decodeFromVideo_failure_replaces_store _ _ Demo.broken_video Demo.rerun
              "twice.mp4"
              {| sc_embeddings := [Demo.one; Demo.nought]; sc_index := [("a", 0)];
                 sc_embeddingDim := 2; sc_useOllama := false |})
    as (e & st' & H & Hi & Hb & _).
  - reflexivity.
  - reflexivity.
  - reflexivity.
  - intros v _. eexists. reflexivity.
  - exists e, st'. repeat split; assumption.
Defined.

(** X18.  Decoding the same video a second time gives the same result and
    the same instance as the first time. *)
Theorem decodeFromVideo_twice (Frame Video : Type) (env : Env Frame Video)
        (videoPath : string) (st st1 : State Video) (r : Decoded.t) :
  decodeFromVideo env videoPath st = (JS.Return r, st1) ->
  exists st2,
    decodeFromVideo env videoPath st1 = (JS.Return r, st2) /\
    this st2 = this st1 /\
    disk (world st2) = disk (world st1).
Proof.
  intros H.
  destruct (decodeFromVideo_inv _ _ _ H) as (data & v & dir & Htmp & Hdir & Hs & Hv & Hd & Hrm).
  destruct (decodeFromVideo_success env st videoPath Htmp Hdir Hs Hv Hd Hrm) as [warnings Heq].
  rewrite Heq in H. injection H as <- <-.
  destruct (decodeFromVideo_success env (decoded_state env st data dir warnings) videoPath
              Htmp Hdir Hs Hv Hd Hrm) as [warnings' Heq'].
  eexists. split; [exact Heq'|]. split; reflexivity.
Qed.

Lemma decodeFromVideo_twice_witness :
  exists r st1 st2,
    decodeFromVideo Demo.env "twice.mp4" Demo.rerun = (JS.Return r, st1) /\
    decodeFromVideo Demo.env "twice.mp4" st1 = (JS.Return r, st2) /\
    this st2 = this st1.
Proof.
  assert (H : exists r st1,
             decodeFromVideo Demo.env "twice.mp4" Demo.rerun = (JS.Return r, st1))
    by (vm_compute; do 2 eexists; reflexivity).
  destruct H as (r & st1 & H).
  destruct (@decodeFromVideo_twice _ _ Demo.env "twice.mp4" _ _ _ H) as (st2 & H2 & Hthis & _).
  exists r, st1, st2. repeat split; assumption.
Defined.

(** ** The chunker packs greedily *)

(** X19.  [chunkText] is the greedy packing of the sentences under its flush
    test: the groups of sentences its chunks are made of are consecutive,
    inside a group every sentence after the first passed the test when it was
    added, and every group but the last was closed because the first sentence
    of the next group failed it. *)
Theorem chunkText_greedy (text : string) (maxSize : Z) :
  exists groups : list (list string),
    List.concat groups = sentences_of text /\
    chunkText text maxSize = map chunk_of groups /\
    Forall (fun group => fits maxSize group = true) groups /\
    packed maxSize groups = true.
Proof.
  destruct (chunkText_groups maxSize text) as (groups & Hchunks & _ & Hsplit & Hfits & Hp).
  exists groups. repeat split; assumption.
Qed.

(** ** An invariant of the instance *)

(** X20.  Every state reached from a new instance by calls of [initialize],
    [processText], [search], [encodeToVideo] and [decodeFromVideo], returning
    or throwing, holds a well-formed instance: offsets are recorded only
    once the vector buffer exists, and no record of the index is [null]. *)
Theorem produced_wf (Frame Video : Type) (env : Env Frame Video) (st : State Video) :
  produced env st -> wf (this st).
Proof.
  induction 1 as [options w|st _ IH|st text metadata r _ IH Hr|st query limit filter _ IH
                  |st outputPath _ IH|st videoPath _ IH].
  - apply wf_new_Memflix.
  - destruct (initialize env st) as [c st1] eqn:Hinit.
    destruct (@initialize_cases _ _ env _ _ _ Hinit) as [-> | ->]; [exact IH|].
    now apply wf_with_embedder.
  - exact (@processText_wf _ _ env text metadata st r IH Hr).
  - now apply search_keeps_wf.
  - now rewrite encodeToVideo_keeps_this.
  - now apply decodeFromVideo_keeps_wf.
Qed.

Lemma produced_wf_witness :
  exists r,
    processText Demo.env "alpha. beta" [] (Demo.start Demo.fresh) = Some r /\
    JS.map_size (index (this (snd r))) = 1 /\
    embeddings (this (snd r)) = Some (map JS.fround [Demo.nought; Demo.nought]) /\
    List.length (embeddingIndex (this (snd r))) = 1 /\
    wf (this (snd r)) /\
    wf (this (snd (search Demo.env "east" 10 None (snd r)))).
Proof.
  assert (H : exists r, processText Demo.env "alpha. beta" [] (Demo.start Demo.fresh) = Some r)
    by (vm_compute; eexists; reflexivity).
  destruct H as (r & H). exists r. split; [exact H|].
  assert (Hp : produced Demo.env (snd r))
    by (apply produced_processText with (2 := H);
        exact (produced_new Demo.env default_options Demo.nothing)).
  assert (Hr := H). vm_compute in Hr. injection Hr as <-.
  split; [reflexivity|]. split; [vm_compute; reflexivity|]. split; [reflexivity|].
  split.
  - exact (@produced_wf _ _ Demo.env _ Hp).
  - apply (@produced_wf _ _ Demo.env). now apply produced_search.
Defined.

(** ** Encoding that fails half way *)

(** X21.  [encodeToVideo] writes the sidecar file before it draws a frame:
    when a frame cannot be drawn, the call throws with the new sidecar file
    written, and with every other file outside the temporary directory of the
    call, the video of an earlier call among them, as it was. *)
Theorem encodeToVideo_failure_leaves_sidecar (Frame Video : Type) (env : Env Frame Video)
        (outputPath : string) (st : State Video) (buffer : vector) (e : JS.exn) :
  mkdir env (tempDir env) = JS.Return tt ->
  mkdir env (path_join (tempDir env) "frames") = JS.Return tt ->
  embeddings (this st) = Some buffer ->
  writeFile env (JS.replace outputPath ".mp4" ".emb") = JS.Return tt ->
  generate_frames env (JS.map_entries (index (this st))) 0 = JS.Throw e ->
  exists st',
    encodeToVideo env outputPath st = (JS.Throw e, st') /\
    disk (world st') (JS.replace outputPath ".mp4" ".emb")
    = Some (SidecarFile Video
              {| sc_embeddings := map through_json buffer;
                 sc_index :=
                   JS.own_entries (JS.fromEntries (JS.map_entries (embeddingIndex (this st))));
                 sc_embeddingDim := embeddingDim (config (this st));
                 sc_useOllama := useOllama (this st) |}) /\
    forall path, inside (tempDir env) path = false ->
                 (path =? JS.replace outputPath ".mp4" ".emb") = false ->
                 disk (world st') path = disk (world st) path.
Proof.
  intros Htmp Hdir Hb Hw Hf.
  unfold encodeToVideo, createTempDir, saveEmbeddings, encodeFramesToVideo, cleanup.
  unfold_M. rewrite Htmp, Hdir, Hb, Hw. cbn [this world]. rewrite Hf.
  eexists. split; [reflexivity|]. cbn [world]. split.
  - apply disk_write_same.
  - intros path _ Hp. now apply disk_write_other.
Qed.

Lemma encodeToVideo_failure_leaves_sidecar_witness :
  exists st',
    encodeToVideo no_room "twice.mp4" Demo.rerun
    = (JS.Throw (JS.Error "The amount of data is too big to be stored in a QR Code"), st') /\
    disk (world st') "twice.mp4"
    = Some (VideoFile [Demo.stringify (Demo.chunk_record "a" "alpha");
                       Demo.stringify (Demo.chunk_record "a" "alpha")]) /\
    disk (world st') "twice.emb"
    = Some (SidecarFile Demo.Video
              {| sc_embeddings := map through_json
                                      (map JS.fround [Demo.one; Demo.nought; Demo.nought;
                                                      Demo.one; Demo.one; Demo.nought]);
                 sc_index := [("a", 0); ("b", 2); ("c", 4)];
                 sc_embeddingDim := 2;
                 sc_useOllama := false |}).
Proof.
  destruct (@encodeToVideo_failure_leaves_sidecar _ _ no_room "twice.mp4" Demo.rerun
              (map JS.fround [Demo.one; Demo.nought; Demo.nought; Demo.one;
                              Demo.one; Demo.nought])
              (JS.Error "The amount of data is too big to be stored in a QR Code"))
    as (st' & H & Hside & Hother).
  - reflexivity.
  - reflexivity.
  - vm_compute. reflexivity.
  - reflexivity.
  - vm_compute. reflexivity.
  - exists st'. split; [exact H|]. split.
    + rewrite Hother; reflexivity.
    + exact Hside.
Defined.

(** ** Ingestion: the records written *)

Lemma written_set (chunks : list string) (metadata : list (string * JS.json)) (s : Memflix)
      (chunkId chunk : string) (position : nat) (id : string) :
  nth_error chunks position = Some chunk ->
  written chunks metadata s id ->
  written chunks metadata
          (with_index (JS.map_set JS.same_value_zero (Some (JS.JStr chunkId))
                                  (record_of chunkId chunk metadata position) (index s)) s)
          id.
Proof.
  intros Hnth (chunk' & position' & Hnth' & Hget). unfold written. cbn [index with_index].
  destruct (String.eqb id chunkId) eqn:E.
  - apply String.eqb_eq in E. subst id. exists chunk, position.
    split; [exact Hnth|apply index_set_same].
  - apply String.eqb_neq in E. exists chunk', position'.
    split; [exact Hnth'|]. now rewrite index_get_set_other.
Qed.

Lemma written_storeEmbedding (chunks : list string) (metadata : list (string * JS.json))
      (s : Memflix) (chunkId : string) (embedding : vector) (id : string) :
  written chunks metadata s id ->
  written chunks metadata (storeEmbedding chunkId embedding s) id.
Proof.
  unfold written, storeEmbedding. now destruct (embeddings s).
Qed.

Lemma nth_error_firstn_Some (A : Type) (n : nat) (l : list A) (j : nat) (x : A) :
  nth_error (firstn n l) j = Some x -> nth_error l j = Some x.
Proof.
  revert n j. induction l as [|y l IH]; intros [|n] [|j]; simpl; try discriminate; auto.
  apply IH.
Qed.

Section Records.

Variables Frame Video : Type.
Variable env : Env Frame Video.
Variable all : list string.
Variable metadata : list (string * JS.json).

Lemma processBatch_from_records (chunks : list string) (offset : nat) :
  forall (i : nat) (results : list string) (st st' : State Video) (ids : list string),
    (forall j chunk, nth_error chunks j = Some chunk ->
                     nth_error all (offset + (i + j)) = Some chunk) ->
    processBatch_from env chunks metadata offset i results st = (JS.Return ids, st') ->
    exists new,
      ids = results ++ new /\
      Forall (written all metadata (this st')) new /\
      (forall id, written all metadata (this st) id -> written all metadata (this st') id).
Proof.
  induction chunks as [|chunk rest IH]; intros i results st st' ids Hnth H.
  - injection H as <- <-. exists []. rewrite app_nil_r. repeat split; auto.
  - rewrite processBatch_from_cons in H.
    destruct (fst (generateEmbedding env chunk st)) as [embedding|e]; [|discriminate H].
    assert (Hhere : nth_error all (offset + i) = Some chunk)
      by (rewrite <- (Nat.add_0_r i); now apply Hnth).
    apply IH in H.
    + destruct H as (new & -> & Hnew & Hkeep). cbn [this] in *.
      set (chunkId := generateId env (chunk ++ JS.toString offset ++ JS.toString i)) in *.
      exists (chunkId :: new). rewrite <- app_assoc. repeat split.
      * constructor; [|exact Hnew]. apply Hkeep, written_storeEmbedding.
        exists chunk, (offset + i). split; [exact Hhere|].
        cbn [index with_index]. apply index_set_same.
      * intros id Hid. apply Hkeep, written_storeEmbedding.
        now apply (@written_set all metadata _ chunkId chunk (offset + i) id).
    + intros j chunk' Hj. replace (S i + j) with (i + S j) by lia. now apply Hnth.
Qed.

Lemma processText_from_records (fuel : nat) :
  forall (i : nat) (results : list string) (st st' : State Video) (ids : list string),
    processText_from env fuel all metadata i results st = Some (JS.Return ids, st') ->
    exists new,
      ids = results ++ new /\
      Forall (written all metadata (this st')) new /\
      (forall id, written all metadata (this st) id -> written all metadata (this st') id).
Proof.
  induction fuel as [|fuel IH]; intros i results st st' ids; cbn [processText_from];
    destruct (i <? List.length all)%nat eqn:Hi.
  - discriminate.
  - intros H. injection H as <- <-. exists []. rewrite app_nil_r. repeat split; auto.
  - rewrite slice_window. unfold processBatch.
    destruct (processBatch_from env _ metadata i 0 [] st) as [[batchResults|e] st1] eqn:Hb;
      [|discriminate].
    apply processBatch_from_records in Hb.
    + destruct Hb as (new1 & -> & Hnew1 & Hkeep1).
      intros H. apply IH in H. destruct H as (new2 & -> & Hnew2 & Hkeep2).
      exists (new1 ++ new2). cbn [app]. repeat split.
      * now rewrite app_assoc.
      * apply Forall_app. split; [|exact Hnew2].
        eapply Forall_impl; [|exact Hnew1]. intros id. apply Hkeep2.
      * intros id Hid. auto.
    + intros j chunk Hj. apply nth_error_firstn_Some in Hj.
      now rewrite nth_error_skipn in Hj.
  - intros H. injection H as <- <-. exists []. rewrite app_nil_r. repeat split; auto.
Qed.

End Records.

(** X22.  After a call of [processText] that returns, the index holds under
    every returned id the record of a chunk of the text: that id, the text of
    the chunk, and the caller's metadata with [index] set to the position of
    the chunk in the text. *)
Theorem processText_records (Frame Video : Type) (env : Env Frame Video)
        (text : string) (metadata : list (string * JS.json)) (st st' : State Video)
        (ids : list string) :
  processText env text metadata st = Some (JS.Return ids, st') ->
  Forall (fun id =>
            exists chunk position,
              nth_error (chunkText text (maxChunkSize (config (this st)))) position
              = Some chunk /\
              JS.map_get JS.same_value_zero (Some (JS.JStr id)) (index (this st'))
              = Some (record_of id chunk metadata position))
         ids.
Proof.
  unfold processText.
  destruct (initialize env st) as [[[]|e] st1] eqn:Hinit; [|discriminate].
  assert (Hc : maxChunkSize (config (this st1)) = maxChunkSize (config (this st)))
    by (destruct (@initialize_cases _ _ env _ _ _ Hinit) as [-> | ->]; reflexivity).
  rewrite Hc. intros H. apply processText_from_records in H.
  destruct H as (new & -> & Hnew & _). exact Hnew.
Qed.

Lemma processText_records_witness :
  exists ids st',
    processText Demo.env "alpha. beta" [] (Demo.start Demo.fresh) = Some (JS.Return ids, st') /\
    Forall (fun id =>
              exists chunk position,
                nth_error (chunkText "alpha. beta" 1500) position = Some chunk /\
                JS.map_get JS.same_value_zero (Some (JS.JStr id)) (index (this st'))
                = Some (record_of id chunk [] position))
           ids.
Proof.
  assert (H : exists ids st',
             processText Demo.env "alpha. beta" [] (Demo.start Demo.fresh)
             = Some (JS.Return ids, st'))
    by (vm_compute; do 2 eexists; reflexivity).
  destruct H as (ids & st' & H). exists ids, st'. split; [exact H|].
  exact (@processText_records _ _ Demo.env "alpha. beta" [] _ _ _ H).
Defined.

Lemma assoc_obj_set_same (V : Type) (k : string) (v : V) (fields : list (string * V)) :
  JS.assoc k (JS.obj_set k v fields) = Some v.
Proof.
  induction fields as [|[k0 v0] fields IH]; cbn [JS.obj_set JS.assoc].
  - now rewrite String.eqb_refl.
  - destruct (String.eqb k0 k) eqn:E; cbn [JS.assoc]; rewrite E; [reflexivity|exact IH].
Qed.

Lemma assoc_obj_set_other (V : Type) (k k' : string) (v : V) (fields : list (string * V)) :
  k' <> k -> JS.assoc k' (JS.obj_set k v fields) = JS.assoc k' fields.
Proof.
  intros Hne. induction fields as [|[k0 v0] fields IH]; cbn [JS.obj_set JS.assoc].
  - assert (H : String.eqb k k' = false) by (apply String.eqb_neq; congruence).
    now rewrite H.
  - destruct (String.eqb k0 k) eqn:E; cbn [JS.assoc].
    + apply String.eqb_eq in E. subst k0.
      assert (H : String.eqb k k' = false) by (apply String.eqb_neq; congruence).
      now rewrite H.
    + destruct (String.eqb k0 k'); [reflexivity|exact IH].
Qed.

(** X23.  Every record written by a call of [processPDF] that returns says
    where it comes from: whatever metadata the caller gave, its metadata has
    [source] the path of the document, [type] "pdf", [pages] the number of
    pages of the document, and [index] the position of the chunk. *)
Theorem processPDF_metadata (Frame Video : Type) (env : Env Frame Video)
        (pdf_parse : string -> JS.completion (string * JS.number))
        (pdfPath : string) (metadata : list (string * JS.json)) (st st' : State Video)
        (ids : list string) (text : string) (numpages : JS.number) :
  pdf_parse pdfPath = JS.Return (text, numpages) ->
  processPDF env pdf_parse pdfPath metadata st = Some (JS.Return ids, st') ->
  Forall (fun id =>
            exists chunk position fields,
              JS.map_get JS.same_value_zero (Some (JS.JStr id)) (index (this st'))
              = Some (JS.JObj [("id", JS.JStr id); ("text", JS.JStr chunk);
                               ("metadata", JS.JObj fields)]) /\
              JS.assoc "source" fields = Some (JS.JStr pdfPath) /\
              JS.assoc "type" fields = Some (JS.JStr "pdf") /\
              JS.assoc "pages" fields = Some (JS.JNum numpages) /\
              JS.assoc "index" fields = Some (JS.JNum (JS.of_Z (Z.of_nat position))))
         ids.
Proof.
  intros Hparse. unfold processPDF, processText. rewrite Hparse.
  destruct (initialize env st) as [[[]|e] st1]; [|discriminate].
  intros H. apply processText_from_records in H.
  destruct H as (new & -> & H & _). cbn [app].
  eapply Forall_impl; [|exact H].
  intros id (chunk & position & _ & Hget).
  exists chunk, position. eexists. split; [exact Hget|].
  repeat split.
  - rewrite !assoc_obj_set_other by discriminate. apply assoc_obj_set_same.
  - rewrite !assoc_obj_set_other by discriminate. apply assoc_obj_set_same.
  - rewrite assoc_obj_set_other by discriminate. apply assoc_obj_set_same.
  - apply assoc_obj_set_same.
Qed.

Lemma processPDF_metadata_witness :
  exists ids st',
    processPDF Demo.env (fun _ => JS.Return ("alpha. beta", Demo.one)) "book.pdf"
               [("source", JS.JStr "elsewhere")] (Demo.start Demo.fresh)
    = Some (JS.Return ids, st') /\
    Forall (fun id =>
              exists chunk position fields,
                JS.map_get JS.same_value_zero (Some (JS.JStr id)) (index (this st'))
                = Some (JS.JObj [("id", JS.JStr id); ("text", JS.JStr chunk);
                                 ("metadata", JS.JObj fields)]) /\
                JS.assoc "source" fields = Some (JS.JStr "book.pdf") /\
                JS.assoc "type" fields = Some (JS.JStr "pdf") /\
                JS.assoc "pages" fields = Some (JS.JNum Demo.one) /\
                JS.assoc "index" fields = Some (JS.JNum (JS.of_Z (Z.of_nat position))))
           ids.
Proof.
  assert (H : exists ids st',
             processPDF Demo.env (fun _ => JS.Return ("alpha. beta", Demo.one)) "book.pdf"
                        [("source", JS.JStr "elsewhere")] (Demo.start Demo.fresh)
             = Some (JS.Return ids, st'))
    by (vm_compute; do 2 eexists; reflexivity).
  destruct H as (ids & st' & H). exists ids, st'. split; [exact H|].
  exact (@processPDF_metadata _ _ Demo.env _ "book.pdf" _ _ _ _ "alpha. beta" Demo.one
           eq_refl H).
Defined.

(** ** The text kept of a chapter *)

Lemma space_is_white_space : JS.is_white_space " " = true.
Proof. reflexivity. Qed.

Lemma has_gt_strip_from (s : string) :
  forall in_tag, has_gt s = false -> has_gt (strip_from in_tag s) = false.
Proof.
  induction s as [|c s IH]; intros in_tag; cbn [has_gt strip_from]; [reflexivity|].
  intros H. apply orb_false_iff in H. destruct H as [Hc Hs].
  rewrite Hc, Hs, andb_false_r. destruct in_tag; [now apply IH|].
  cbn [has_gt]. now rewrite Hc, IH.
Qed.

Lemma tag_free_strip_from (s : string) :
  forall in_tag, tag_free (strip_from in_tag s) = true.
Proof.
  induction s as [|c s IH]; intros in_tag; cbn [strip_from]; [reflexivity|].
  destruct in_tag.
  - destruct (c =? ">")%char; apply IH.
  - destruct ((c =? "<")%char && has_gt s) eqn:E; cbn [tag_free].
    + rewrite IH. reflexivity.
    + rewrite IH, andb_true_r. apply negb_true_iff.
      apply andb_false_iff in E. destruct E as [E|E]; [now rewrite E|].
      now rewrite (has_gt_strip_from s false E), andb_false_r.
Qed.

Lemma gt_not_white_space (c : ascii) : (c =? ">")%char = true -> JS.is_white_space c = false.
Proof. intros H. apply Ascii.eqb_eq in H. now subst c. Qed.

Lemma lt_not_white_space (c : ascii) : (c =? "<")%char = true -> JS.is_white_space c = false.
Proof. intros H. apply Ascii.eqb_eq in H. now subst c. Qed.

Lemma has_gt_collapse_from (s : string) :
  forall in_run, has_gt (collapse_from in_run s) = has_gt s.
Proof.
  induction s as [|c s IH]; intros in_run; cbn [collapse_from has_gt]; [reflexivity|].
  destruct (JS.is_white_space c) eqn:Ec.
  - assert (Hc : (c =? ">")%char = false).
    { destruct (c =? ">")%char eqn:E; [|reflexivity].
      apply gt_not_white_space in E. congruence. }
    rewrite Hc. destruct in_run; cbn [has_gt orb]; apply IH.
  - cbn [has_gt]. now rewrite IH.
Qed.

Lemma tag_free_collapse_from (s : string) :
  forall in_run, tag_free s = true -> tag_free (collapse_from in_run s) = true.
Proof.
  induction s as [|c s IH]; intros in_run; cbn [collapse_from tag_free]; [reflexivity|].
  intros H. apply andb_true_iff in H. destruct H as [Hc Hs].
  destruct (JS.is_white_space c) eqn:Ec.
  - destruct in_run; [now apply IH|]. cbn [tag_free]. now rewrite IH.
  - cbn [tag_free]. now rewrite has_gt_collapse_from, Hc, IH.
Qed.

Lemma collapse_from_start (s : string) :
  starts_with_white_space (collapse_from true s) = false.
Proof.
  induction s as [|c s IH]; cbn [collapse_from]; [reflexivity|].
  destruct (JS.is_white_space c) eqn:Ec; [exact IH|]. cbn [starts_with_white_space].
  exact Ec.
Qed.

Lemma single_spaced_collapse_from (s : string) :
  forall in_run, single_spaced (collapse_from in_run s) = true.
Proof.
  induction s as [|c s IH]; intros in_run; cbn [collapse_from]; [reflexivity|].
  destruct (JS.is_white_space c) eqn:Ec.
  - destruct in_run; [apply IH|]. cbn [single_spaced].
    now rewrite space_is_white_space, collapse_from_start, IH.
  - cbn [single_spaced]. now rewrite Ec, IH.
Qed.

(** X24.  The text [processEPUB] keeps of a chapter holds no tag, and its
    white space is single spaces: no two white-space characters follow each
    other and none is a tab or a line break. *)
Theorem chapter_text_clean (text : string) :
  tag_free (chapter_text text) = true /\ single_spaced (chapter_text text) = true.
Proof.
  unfold chapter_text, collapse_white_space, strip_tags. split.
  - apply tag_free_collapse_from, tag_free_strip_from.
  - apply single_spaced_collapse_from.
Qed.

Lemma strip_from_tag_free (s : string) : tag_free s = true -> strip_from false s = s.
Proof.
  induction s as [|c s IH]; cbn [tag_free strip_from]; [reflexivity|].
  intros H. apply andb_true_iff in H. destruct H as [Hc Hs].
  apply negb_true_iff in Hc. now rewrite Hc, IH.
Qed.

Lemma collapse_from_single_spaced (s : string) :
  single_spaced s = true ->
  collapse_from false s = s /\
  (starts_with_white_space s = false -> collapse_from true s = s).
Proof.
  induction s as [|c s IH]; cbn [single_spaced collapse_from starts_with_white_space];
    [now split|].
  intros H. apply andb_true_iff in H. destruct H as [Hc Hs].
  destruct (IH Hs) as [IH0 IH1].
  destruct (JS.is_white_space c) eqn:Ec.
  - apply andb_true_iff in Hc. destruct Hc as [Hsp Hnext].
    apply Ascii.eqb_eq in Hsp. apply negb_true_iff in Hnext. subst c.
    split; [now rewrite (IH1 Hnext)|discriminate].
  - split; [now rewrite IH0|intros _; now rewrite IH0].
Qed.

(** X25.  Cleaning a chapter is idempotent: text that has been cleaned is
    left as it is by a second cleaning. *)
Theorem chapter_text_idempotent (text : string) :
  chapter_text (chapter_text text) = chapter_text text.
Proof.
  assert (Ht : tag_free (chapter_text text) = true)
    by apply tag_free_collapse_from, tag_free_strip_from.
  assert (Hs : single_spaced (chapter_text text) = true)
    by apply single_spaced_collapse_from.
  unfold chapter_text at 1. unfold strip_tags, collapse_white_space.
  rewrite (strip_from_tag_free _ Ht).
  now apply collapse_from_single_spaced.
Qed.

(** ** What encoding touches *)

(** X26.  [encodeToVideo] reads the instance and, outside the temporary
    directory of the call, writes two files: whether it returns or throws,
    the instance and the console are as before the call, and so is every file
    outside that directory other than the sidecar file and the video. *)
Theorem encodeToVideo_touches_two_paths (Frame Video : Type) (env : Env Frame Video)
        (outputPath : string) (st : State Video) :
  let st' := snd (encodeToVideo env outputPath st) in
  this st' = this st /\
  console (world st') = console (world st) /\
  forall path,
    inside (tempDir env) path = false ->
    (path =? JS.replace outputPath ".mp4" ".emb") = false ->
    (path =? outputPath) = false ->
    disk (world st') path = disk (world st) path.
Proof.
  cbv zeta. destruct (encodeToVideo env outputPath st) as [c st'] eqn:H.
  cbn [snd]. revert H.
  unfold encodeToVideo, createTempDir, saveEmbeddings, encodeFramesToVideo, cleanup.
  unfold bind at 1. unfold bind at 1. unfold lift at 1.
  destruct (mkdir env (tempDir env)) as [[]|];
    [|intros H; injection H as _ <-; now repeat split].
  unfold ret at 1. unfold bind at 1. unfold lift at 1.
  destruct (mkdir env (path_join (tempDir env) "frames")) as [[]|];
    [|intros H; injection H as _ <-; now repeat split].
  unfold bind at 1. unfold bind at 1. unfold get_this at 1.
  destruct (embeddings (this st)) as [buffer|];
    [|intros H; injection H as _ <-; now repeat split].
  unfold bind at 1. unfold lift at 1.
  destruct (writeFile env (JS.replace outputPath ".mp4" ".emb")) as [[]|];
    [|intros H; injection H as _ <-; now repeat split].
  unfold update_world at 1.
  unfold bind at 1. unfold get_this at 1. cbn [this world].
  unfold bind at 1. unfold lift at 1.
  destruct (generate_frames env (JS.map_entries (index (this st))) 0) as [frames|].
  - unfold bind at 1. unfold bind at 1. unfold lift at 1.
    destruct (mux env frames) as [v|].
    + unfold update_world at 1. cbn [this world].
      unfold bind at 1. unfold lift at 1.
      destruct (rm env (tempDir env)) as [[]|]; intros H; injection H as _ <-;
        cbn [this world]; (split; [reflexivity|split; [reflexivity|]]);
        intros path _ H1 H2; simpl; rewrite H2, H1; reflexivity.
    + intros H; injection H as _ <-. cbn [this world].
      split; [reflexivity|split; [reflexivity|]].
      intros path _ H1 H2. simpl. rewrite H1. reflexivity.
  - intros H; injection H as _ <-. cbn [this world].
    split; [reflexivity|split; [reflexivity|]].
    intros path _ H1 H2. simpl. rewrite H1. reflexivity.
Qed.

(** ** The chunker and the batch loop on concrete inputs *)

Lemma chunkText_chunks_not_blank_witness :
  "One two.  Three four" <> "" /\ blank "One two.  Three four" = false.
Proof.
  apply (@chunkText_chunks_not_blank "One two. Three four." 18).
  vm_compute. left. reflexivity.
Defined.

Lemma chunkText_bound_witness :
  (Z.of_nat (String.length "One two.  Three four") <= 18 + 2)%Z \/
  exists sentence,
    In sentence (sentences_of "One two. Three four.") /\
    "One two.  Three four" = JS.trim sentence.
Proof.
  apply (@chunkText_bound "One two. Three four." 18).
  vm_compute. left. reflexivity.
Defined.

Lemma processText_ends_witness :
  exists r, processText Demo.env "alpha. beta" [] (Demo.start Demo.fresh) = Some r.
Proof.
  apply (@processText_ends _ _ Demo.env "alpha. beta" [] (Demo.start Demo.fresh)).
  simpl. lia.
Defined.
